(** * Matrix.js: a shallow embedding of [matrix.js] and its properties

    The JavaScript source keeps every matrix as an object with two
    read-only extents ([rows], [cols]) and a writable, array-of-arrays
    [value].  Methods mutate [this.value] in place and read their
    operands while doing so, so the embedding threads an explicit store of
    matrix objects through every function, in a state-and-exception monad.

    Numbers are what they are in JavaScript, IEEE 754 binary64 values: a
    cell holds one of the kernel's primitive floats, and [+], [-] and [*] on
    cells are the floating-point operations themselves, with their rounding,
    their infinities, signed zeros and NaN.  [undefined] is kept beside the
    numbers, because out-of-range reads produce it.  Indices, extents and the
    exponent of [pow] are integers.

    Matrix objects live in the store and are passed by reference, so that
    a call can be asked what it did to its receiver, to its operands and to
    everything else.  The grid of an object is kept by value inside the
    object: the constructor, [zero] and [_.zip] always build fresh row
    arrays, so no two matrices ever share a row.  Raw grids (plain nested
    arrays handed to the constructor, to [copy] or to [product]) are only
    read, and are passed by value.

    Extents are natural numbers or [undefined]; the loops of the source do
    not terminate on negative or fractional extents, which are left out. *)

From Stdlib Require Import ZArith Lia PrimFloat.
From stdpp Require Import base tactics option list strings pretty.

Open Scope Z_scope.
Open Scope nat_scope.

(** ** JavaScript values held in cells *)

Inductive jsval : Type :=
| Undef            (* undefined, also what a hole of an array reads as *)
| Num (x : float). (* a number: any double, the infinities and NaN included *)

(** [a + b], [a * b] on cell values: on numbers the operation on doubles;
    [undefined] turns the result into NaN. *)
Definition jsadd (a b : jsval) : jsval :=
  match a, b with
  | Num x, Num y => Num (x + y)%float
  | _, _ => Num nan
  end.

Definition jsmul (a b : jsval) : jsval :=
  match a, b with
  | Num x, Num y => Num (x * y)%float
  | _, _ => Num nan
  end.

(** The numbers that count as false: [0], [-0] and NaN. *)
Definition falsy (x : float) : bool := is_nan x || is_zero x.

(** [x || 0] on a number *)
Definition num_or0 (x : float) : float := if falsy x then 0%float else x.

(** [v || 0] *)
Definition or0 (v : jsval) : jsval :=
  match v with
  | Num x => Num (num_or0 x)
  | Undef => Num 0
  end.

(** ** JavaScript arrays

    An array is a list; a hole reads like the padding value [d]
    ([Undef] in a row, [None] in the outer array).  Writing at or past the
    end extends the array, as JavaScript does. *)

Definition arr_set {A} (d : A) (a : list A) (i : nat) (v : A) : list A :=
  if decide (i < length a) then <[i := v]> a
  else a ++ replicate (i - length a) d ++ [v].

Abbreviation jsrow := (list jsval).
Abbreviation jsgrid := (list (option jsrow)).

(** [g[r]] when it is an array. *)
Definition grid_row (g : jsgrid) (r : nat) : option jsrow :=
  match g !! r with
  | Some (Some row) => Some row
  | _ => None
  end.

(** [row[c]] *)
Definition row_get (row : jsrow) (c : nat) : jsval := default Undef (row !! c).

(** Index by a JavaScript number that may be negative: a negative index
    names no element. *)
Definition lookupZ {A} (l : list A) (z : Z) : option A :=
  if decide (z < 0)%Z then None else l !! Z.to_nat z.

(** ** The store of matrix objects *)

Record Matrix : Type := mkMatrix {
  rows : option nat;      (* None: the property holds undefined *)
  cols : option nat;
  value : jsgrid
}.

Definition dimensions (o : Matrix) : option nat * option nat := (rows o, cols o).

Definition with_value (o : Matrix) (g : jsgrid) : Matrix :=
  {| rows := rows o; cols := cols o; value := g |}.

Definition ref := nat.
Abbreviation heap := (list Matrix).

(** What a call can throw.  The source throws plain strings; a property
    access on [undefined] throws the runtime's TypeError.  [NoSuchObject]
    is only reached through a reference that is not in the store, which no
    JavaScript run can build. *)
Inductive exn : Type :=
| TypeError
| Thrown (msg : string)
| NoSuchObject.

Inductive res (A : Type) : Type :=
| Ok (a : A) (h : heap)
| Throw (e : exn).
Arguments Ok {A} a h.
Arguments Throw {A} e.

Definition M (A : Type) : Type := heap → res A.

Global Instance M_ret : MRet M := λ A a h, Ok a h.
Global Instance M_bind : MBind M := λ A B k m h,
  match m h with
  | Ok a h' => k a h'
  | Throw e => Throw e
  end.
Definition throw {A} (e : exn) : M A := λ _, Throw e.

Definition deref (r : ref) : M Matrix :=
  λ h, match h !! r with
       | Some o => Ok o h
       | None => Throw NoSuchObject
       end.

(** [r.value = g] *)
Definition set_value (r : ref) (g : jsgrid) : M unit :=
  λ h, match h !! r with
       | Some o => Ok () (<[r := with_value o g]> h)
       | None => Throw NoSuchObject
       end.

Definition alloc (o : Matrix) : M ref := λ h, Ok (length h) (h ++ [o]).

(** ** Loops *)

(** [for (k = n; k--; ) body(k)] *)
Fixpoint for_down (n : nat) (body : nat → M unit) : M unit :=
  match n with
  | 0 => mret ()
  | S k => body k ;; for_down k body
  end.

(** [for (k = i; k < i + n; k++) body(k)] *)
Fixpoint for_up_from (i n : nat) (body : nat → M unit) : M unit :=
  match n with
  | 0 => mret ()
  | S k => body i ;; for_up_from (S i) k body
  end.

Definition for_up (n : nat) (body : nat → M unit) : M unit := for_up_from 0 n body.

(** [for (i = 0; i < args.length; i++) body(args[i])] *)
Fixpoint for_args {A} (args : list A) (body : A → M unit) : M unit :=
  match args with
  | [] => mret ()
  | a :: rest => body a ;; for_args rest body
  end.

(** The number of turns of a loop bounded by an extent: with [undefined]
    both [undefined--] and [k < undefined] are falsy at once. *)
Definition ext (d : option nat) : nat := default 0 d.

(** ** Cell statements *)

(** [m.value[r][c]] *)
Definition read_cell (m : ref) (r c : nat) : M jsval :=
  o ← deref m;
  match grid_row (value o) r with
  | Some row => mret (row_get row c)
  | None => throw TypeError
  end.

(** [m.value[r][c] = v] *)
Definition write_cell (m : ref) (r c : nat) (v : jsval) : M unit :=
  o ← deref m;
  match grid_row (value o) r with
  | Some row => set_value m (<[r := Some (arr_set Undef row c v)]> (value o))
  | None => throw TypeError
  end.

(** [m.value[r] = []] *)
Definition new_row (m : ref) (r : nat) : M unit :=
  o ← deref m;
  set_value m (arr_set None (value o) r (Some [])).

(** ** Arguments *)

(** What callers pass where a matrix or a scalar is expected. *)
Inductive arg : Type :=
| AUndef
| ANum (x : float)
| AMat (m : ref)
| AGrid (g : list jsrow).     (* a raw array of arrays *)

(** The argument of the constructor: nothing, a [[rows, cols]] pair or a
    raw grid. *)
Inductive ctor_arg : Type :=
| CUndef
| CPair (r c : option nat)
| CGrid (g : list jsrow).

(** ** Matrix.prototype: set, zero, reset *)

(** [this.set(x, y)(v)] *)
Definition set (this : ref) (x y : nat) (v : jsval) : M unit :=
  write_cell this x y v.

(** [this.zero(fill)]; [fill] is [Undef] when the argument is omitted.
    (Generator functions as [fill] are not modelled.) *)
Definition zero (this : ref) (fill : jsval) : M unit :=
  let fill := or0 fill in
  o ← deref this;
  for_down (ext (rows o)) (λ row,
    new_row this row;;
    for_down (ext (cols o)) (λ col, write_cell this row col fill)).

Definition reset (this : ref) : M unit :=
  zero this Undef;;
  o ← deref this;
  for_down (ext (fst (dimensions o))) (λ i, set this i i (Num 1)).

(** ** The constructor

    [undefined] (or [null]) stands for [[2, 2]].  An argument whose first
    entry is an array is a grid of values; anything else is read as a
    [[rows, cols]] pair and the grid is built by [reset].  The empty array
    has no first entry, so both extents are then [undefined]. *)

Definition new_Matrix (d : ctor_arg) : M ref :=
  let d := match d with CUndef => CPair (Some 2) (Some 2) | _ => d end in
  match d with
  | CGrid ((row0 :: _) as g) =>
      this ← alloc {| rows := Some (length g); cols := Some (length row0); value := [] |};
      for_down (length g) (λ row,
        new_row this row;;
        for_down (length row0) (λ col,
          write_cell this row col (or0 (row_get (default [] (g !! row)) col))));;
      mret this
  | CGrid [] =>
      this ← alloc {| rows := None; cols := None; value := [] |};
      reset this;;
      mret this
  | CPair r c =>
      this ← alloc {| rows := r; cols := c; value := [] |};
      reset this;;
      mret this
  | CUndef => throw TypeError      (* not reached: replaced by [[2, 2]] above *)
  end.

(** ** Property reads on arguments *)

(** [a.dimensions]: a matrix answers with its pair; numbers and raw arrays
    have no such property; [undefined] cannot be asked. *)
Definition prop_dimensions (a : arg) : M (option (option nat * option nat)) :=
  match a with
  | AUndef => throw TypeError
  | AMat m => o ← deref m; mret (Some (dimensions o))
  | ANum _ | AGrid _ => mret None
  end.

(** [a.rows] and [a.cols] *)
Definition prop_rows (a : arg) : M (option nat) :=
  match a with
  | AUndef => throw TypeError
  | AMat m => o ← deref m; mret (rows o)
  | ANum _ | AGrid _ => mret None
  end.

Definition prop_cols (a : arg) : M (option nat) :=
  match a with
  | AUndef => throw TypeError
  | AMat m => o ← deref m; mret (cols o)
  | ANum _ | AGrid _ => mret None
  end.

(** [a.value[r][c]] *)
Definition arg_cell (a : arg) (r c : nat) : M jsval :=
  match a with
  | AMat m => read_cell m r c
  | AUndef | ANum _ | AGrid _ => throw TypeError
  end.

(** ** Matrix.prototype: get, copy *)

Definition get (this : ref) (x y : Z) : M jsval :=
  o ← deref this;
  match lookupZ (value o) x with
  | Some (Some row) => mret (default Undef (lookupZ row y))
  | _ => throw TypeError
  end.

(** [this.copy(M)]: anything that is not a Matrix goes through the
    constructor first; a number has no entry [0] or [1], so it yields a
    Matrix with both extents [undefined]. *)
Definition copy (this : ref) (src : arg) : M unit :=
  m ← match src with
      | AMat m => mret m
      | AUndef => new_Matrix CUndef
      | ANum _ => new_Matrix (CPair None None)
      | AGrid g => new_Matrix (CGrid g)
      end;
  om ← deref m;
  for_down (ext (rows om)) (λ row,
    for_down (ext (cols om)) (λ col,
      v ← read_cell m row col;
      write_cell this row col v)).

(** ** The derived properties T and I *)

(** Modelled from the spec: [_.zip] belongs to the underscore library, which
    is not part of the repository; the transpose is specified as the grid
    whose cell (j, i) is the source's cell (i, j).  [_.zip(a0, ..., ak)] has
    as many entries as the longest argument, and entry [i] collects
    [a0[i], ..., ak[i]], [undefined] where an argument is too short. *)
Definition underscore_zip (g : jsgrid) : jsgrid :=
  let len := max_list (map (λ r, length (default [] r)) g) in
  map (λ i, Some (map (λ r, row_get (default [] r) i) g)) (seq 0 len).

Definition T (this : ref) : M ref :=
  o ← deref this;
  result ← new_Matrix (CPair (cols o) (rows o));
  o ← deref this;
  set_value result (underscore_zip (value o));;
  mret result.

Definition I (this : ref) : M jsgrid :=
  o ← deref this;
  m ← new_Matrix (CPair (rows o) (cols o));
  om ← deref m;
  mret (value om).

(** ** Matrix.dot *)

Definition show_extent (d : option nat) : string :=
  match d with
  | Some n => pretty n
  | None => "undefined"
  end.

Definition dot_message (acols brows : option nat) : string :=
  "Cannot compute the dot product of matrices of incompatible dimensions. "
  +:+ show_extent acols +:+ " !== " +:+ show_extent brows.

(** [sum = 0; for (j = A.cols; j--; ) sum += A.value[row][j] * B.value[j][col]] *)
Fixpoint dot_sum (A B : arg) (row col j : nat) (sum : jsval) : M jsval :=
  match j with
  | 0 => mret sum
  | S k =>
      a ← arg_cell A row k;
      b ← arg_cell B k col;
      dot_sum A B row col k (jsadd sum (jsmul a b))
  end.

(** One turn of the loop of [Matrix.dot], from the test on the inner
    extents to the filled [result]. *)
Definition dot_step (A B : arg) : M ref :=
  ac ← prop_cols A;
  br ← prop_rows B;
  if decide (ac ≠ br) then throw (Thrown (dot_message ac br)) else
  ar ← prop_rows A;
  bc ← prop_cols B;
  result ← new_Matrix (CPair ar bc);
  zero result Undef;;
  for_up (ext ar) (λ row,
    for_up (ext bc) (λ col,
      sum ← dot_sum A B row col (ext ac) (Num 0);
      write_cell result row col sum));;
  mret result.

Fixpoint dot_chain (result : option ref) (args : list arg) : M (option ref) :=
  match args with
  | a :: rest =>
      match rest with
      | b :: _ =>
          A ← match result with
              | None => mret a
              | Some r =>
                  o ← deref r;
                  A ← new_Matrix (CPair (rows o) (cols o));
                  copy A (AMat r);;
                  mret (AMat A)
              end;
          r' ← dot_step A b;
          dot_chain (Some r') rest
      | [] => mret result
      end
  | [] => mret result
  end.

(** [Matrix.dot(args...)]; [None] is the [undefined] returned when the
    loop never runs. *)
Definition Matrix_dot (args : list arg) : M (option ref) := dot_chain None args.

(** ** Matrix.prototype: dot, add, product, pow *)

Definition equal_dimensions_message : string :=
  "Must supply matrices of equal dimensions. To multiply rectangular matrices, use the Matrix.dot() function.".

(** The test made on every operand of the mutating [dot], before any
    multiplication. *)
Definition dot_check (o : Matrix) (a : arg) : M unit :=
  if decide (rows o ≠ cols o) then throw (Thrown equal_dimensions_message)
  else
    d ← prop_dimensions a;
    if decide (d = Some (dimensions o)) then mret ()
    else throw (Thrown equal_dimensions_message).

Definition dot (this : ref) (args : list arg) : M ref :=
  o ← deref this;
  for_args args (dot_check o);;
  result ← Matrix_dot (AMat this :: args);
  copy this (match result with Some r => AMat r | None => AUndef end);;
  mret this.

Definition add_message : string := "Cannot add matrices of different dimensions.".

(** The body of the loop of [add] for one operand [a]; [o] is the
    receiver, read for its extents. *)
Definition add_operand (this : ref) (o : Matrix) (a : arg) : M unit :=
  a' ← match a with
       | ANum val =>
           m ← new_Matrix (CPair (rows o) (cols o));
           zero m (Num val);;
           mret (AMat m)
       | _ =>
           d ← prop_dimensions a;
           if decide (d = Some (dimensions o)) then mret a
           else throw (Thrown add_message)
       end;
  for_up (ext (rows o)) (λ row,
    for_up (ext (cols o)) (λ col,
      x ← read_cell this row col;
      y ← arg_cell a' row col;
      write_cell this row col (jsadd x y))).

Definition add (this : ref) (args : list arg) : M ref :=
  o ← deref this;
  for_args args (add_operand this o);;
  mret this.

Definition is_matrix (a : arg) : option ref :=
  match a with AMat m => Some m | _ => None end.

(** [Matrix.add(args...)] *)
Definition Matrix_add (args : list arg) : M ref :=
  match list_find (λ a, is_Some (is_matrix a)) args with
  | Some (_, AMat first) =>
      o ← deref first;
      result ← new_Matrix (CPair (rows o) (cols o));
      zero result Undef;;
      add result args;;
      mret result
  | _ => throw TypeError
  end.

(** The body of the loop of [product] for one operand [a]; [o] is the
    receiver, read for its extents.  An operand that is neither a number
    nor a Matrix matches neither branch of the source's [if]/[else if]. *)
Definition product_operand (this : ref) (o : Matrix) (a : arg) : M unit :=
  match a with
  | ANum z =>
      for_down (ext (rows o)) (λ row,
        for_down (ext (cols o)) (λ col,
          x ← read_cell this row col;
          write_cell this row col (jsmul x (Num z))))
  | AMat m => dot this [AMat m];; mret ()
  | AUndef | AGrid _ => mret ()
  end.

Definition product (this : ref) (args : list arg) : M ref :=
  o ← deref this;
  for_args args (product_operand this o);;
  mret this.

(** [Matrix.product(args...)] *)
Definition Matrix_product (args : list arg) : M ref :=
  match args with
  | [] => throw TypeError
  | a0 :: rest =>
      d ← prop_dimensions a0;
      result ← new_Matrix (match d with
                           | Some (r, c) => CPair r c
                           | None => CUndef
                           end);
      copy result a0;;
      product result rest;;
      mret result
  end.

Definition pow (this : ref) (exp : Z) : M ref :=
  o ← deref this;
  A ← new_Matrix (CPair (rows o) (cols o));
  copy A (AMat this);;
  (if decide (exp = 0%Z) then reset this
   else for_up_from 1 (Z.to_nat (exp - 1)) (λ _, dot this [AMat A];; mret ()));;
  mret this.

(** ** Matrix.prototype: sub, mult *)

(** [a - b] on cell values. *)
Definition jssub (a b : jsval) : jsval :=
  match a, b with
  | Num x, Num y => Num (x - y)%float
  | _, _ => Num nan
  end.

Definition sub_message : string := "Cannot subtract matrices of different dimensions.".

Definition mult_message : string :=
  "Cannot compute the hadamard (element-wise) product of matrices of different dimensions.".

(** The body of the loop of [sub] for one operand. *)
Definition sub_operand (this : ref) (o : Matrix) (a : arg) : M unit :=
  a' ← match a with
       | ANum val =>
           m ← new_Matrix (CPair (rows o) (cols o));
           zero m (Num val);;
           mret (AMat m)
       | _ =>
           d ← prop_dimensions a;
           if decide (d = Some (dimensions o)) then mret a
           else throw (Thrown sub_message)
       end;
  for_up (ext (rows o)) (λ row,
    for_up (ext (cols o)) (λ col,
      x ← read_cell this row col;
      y ← arg_cell a' row col;
      write_cell this row col (jssub x y))).

Definition sub (this : ref) (args : list arg) : M ref :=
  o ← deref this;
  for_args args (sub_operand this o);;
  mret this.

(** The body of the loop of [mult] for one operand; its cell loops run
    downwards. *)
Definition mult_operand (this : ref) (o : Matrix) (a : arg) : M unit :=
  a' ← match a with
       | ANum val =>
           m ← new_Matrix (CPair (rows o) (cols o));
           zero m (Num val);;
           mret (AMat m)
       | _ =>
           d ← prop_dimensions a;
           if decide (d = Some (dimensions o)) then mret a
           else throw (Thrown mult_message)
       end;
  for_down (ext (rows o)) (λ row,
    for_down (ext (cols o)) (λ col,
      x ← read_cell this row col;
      y ← arg_cell a' row col;
      write_cell this row col (jsmul x y))).

Definition mult (this : ref) (args : list arg) : M ref :=
  o ← deref this;
  for_args args (mult_operand this o);;
  mret this.

(** ** Matrix.sub, Matrix.mult *)

(** [Matrix.sub(args...)]: the result starts as a copy of the first
    argument (a number is first spread over a matrix) and the others are
    subtracted from it. *)
Definition Matrix_sub (args : list arg) : M ref :=
  match list_find (λ a, is_Some (is_matrix a)) args with
  | Some (_, AMat first) =>
      o ← deref first;
      result ← new_Matrix (CPair (rows o) (cols o));
      match args with
      | a0 :: rest =>
          a0' ← match a0 with
                | ANum val =>
                    m ← new_Matrix (CPair (rows o) (cols o));
                    zero m (Num val);;
                    mret (AMat m)
                | _ => mret a0
                end;
          copy result a0';;
          sub result rest;;
          mret result
      | [] => throw TypeError     (* not reached: a Matrix was found *)
      end
  | _ => throw TypeError
  end.

(** [Matrix.mult(args...)] *)
Definition Matrix_mult (args : list arg) : M ref :=
  match args with
  | [] => throw TypeError
  | a0 :: _ =>
      d ← prop_dimensions a0;
      result ← new_Matrix (match d with
                           | Some (r, c) => CPair r c
                           | None => CUndef
                           end);
      zero result (Num 1);;
      mult result args;;
      mret result
  end.

(** ** clone *)

(** [new this.constructor(this.value)]: the constructor run on the grid of
    the receiver, rows of which may be missing.  (When the first entry of
    the grid is missing the extents of the clone are no numbers; they are
    both rendered as [undefined].) *)
Definition clone (this : ref) : M ref :=
  o ← deref this;
  let g := value o in
  match g with
  | Some row0 :: _ =>
      c ← alloc {| rows := Some (length g); cols := Some (length row0); value := [] |};
      for_down (length g) (λ row,
        new_row c row;;
        for_down (length row0) (λ col,
          match grid_row g row with
          | Some r => write_cell c row col (or0 (row_get r col))
          | None => throw TypeError
          end));;
      mret c
  | _ =>
      c ← alloc {| rows := None; cols := None; value := [] |};
      reset c;;
      mret c
  end.

(** ** Matrix.join, Matrix.concat *)

Definition join_message : string := "Must supply arrays with equal rows.".

Definition concat_message : string := "Must supply matrices with compatible dimensions.".

(** [a.value]: [None] is [undefined]. *)
Definition prop_value (a : arg) : M (option jsgrid) :=
  match a with
  | AUndef => throw TypeError
  | AMat m => o ← deref m; mret (Some (value o))
  | ANum _ | AGrid _ => mret None
  end.

(** [A.value[row].concat(B.value[row])]: a missing row of [B] is appended
    as one [undefined] entry. *)
Definition join_row (A B : arg) (row : nat) : M jsrow :=
  va ← prop_value A;
  match va ≫= λ ga, grid_row ga row with
  | None => throw TypeError
  | Some ra =>
      vb ← prop_value B;
      match vb with
      | None => throw TypeError
      | Some gb => mret (ra ++ default [Undef] (grid_row gb row))
      end
  end.

(** [for (row = n; row--; ) result[row] = ...]: the local array [result],
    filled from its last row down. *)
Fixpoint join_rows (A B : arg) (n : nat) : M (list jsrow) :=
  match n with
  | 0 => mret []
  | S k =>
      r ← join_row A B k;
      result ← join_rows A B k;
      mret (result ++ [r])
  end.

Definition Matrix_join (A B : arg) : M ref :=
  ar ← prop_rows A;
  br ← prop_rows B;
  if decide (ar ≠ br) then throw (Thrown join_message) else
  result ← join_rows A B (ext ar);
  new_Matrix (CGrid result).

(** What [Matrix.concat] returns: a Matrix through [join], a plain array
    of rows otherwise. *)
Inductive concat_result : Type :=
| ConcatMatrix (r : ref)
| ConcatRaw (g : jsgrid).

Definition Matrix_concat (A B : arg) : M concat_result :=
  ar ← prop_rows A;
  br ← prop_rows B;
  if decide (ar = br) then r ← Matrix_join A B; mret (ConcatMatrix r)
  else
    ac ← prop_cols A;
    bc ← prop_cols B;
    if decide (ac = bc) then
      va ← prop_value A;
      match va with
      | None => throw TypeError
      | Some ga =>
          vb ← prop_value B;
          mret (ConcatRaw (ga ++ default [None] vb))
      end
    else throw (Thrown concat_message).

(** ** sum *)

(** [result[row] = [0]; for (col = n; col--; ) result[row][0] += this.value[row][col]] *)
Fixpoint sum_row (this : ref) (row n : nat) (acc : jsval) : M jsval :=
  match n with
  | 0 => mret acc
  | S k =>
      v ← read_cell this row k;
      sum_row this row k (jsadd acc v)
  end.

Fixpoint sum_rows (this : ref) (n m : nat) : M (list jsrow) :=
  match n with
  | 0 => mret []
  | S k =>
      s ← sum_row this k m (Num 0);
      result ← sum_rows this k m;
      mret (result ++ [[s]])
  end.

(** [this.sum()] *)
Definition proto_sum (this : ref) : M ref :=
  o ← deref this;
  result ← sum_rows this (ext (rows o)) (ext (cols o));
  new_Matrix (CGrid result).

(** ** map, forEach *)

(** A callback: it receives the value, the row and the column (the matrix
    and the handler are whatever the closure captured) and may do anything
    to the store.  [None] is an argument that is not a function. *)
Definition callback : Type := jsval → nat → nat → M jsval.

Definition map_message : string := "Must pass a function to the 'map' function.".

Definition forEach_message : string := "Must pass a function to the 'forEach' function.".

(** [this.map(cb)]: a result that is [undefined] leaves the cell alone. *)
Definition proto_map (this : ref) (cb : option callback) : M unit :=
  match cb with
  | None => throw (Thrown map_message)
  | Some f =>
      o ← deref this;
      for_up (ext (rows o)) (λ row,
        for_up (ext (cols o)) (λ col,
          v ← read_cell this row col;
          result ← f v row col;
          match result with
          | Undef => mret ()
          | _ => write_cell this row col result
          end))
  end.

(** [this.forEach(cb)] *)
Definition proto_forEach (this : ref) (cb : option callback) : M unit :=
  match cb with
  | None => throw (Thrown forEach_message)
  | Some f =>
      o ← deref this;
      for_up (ext (rows o)) (λ row,
        for_up (ext (cols o)) (λ col,
          v ← read_cell this row col;
          f v row col;;
          mret ()))
  end.

(** ** Pure counterparts used to describe results *)

(** What [g[r][c]] reads, when the read does not throw. *)
Definition rd (g : jsgrid) (r c : nat) : jsval :=
  match grid_row g r with
  | Some row => row_get row c
  | None => Undef
  end.

(** The grid after [g[r][c] = v], when row [r] is there. *)
Definition grid_write (g : jsgrid) (r c : nat) (v : jsval) : jsgrid :=
  match grid_row g r with
  | Some row => <[r := Some (arr_set Undef row c v)]> g
  | None => g
  end.

(** The grid after writing [F r c] at every cell of a list, in order. *)
Definition writes (F : nat → nat → jsval) (cs : list (nat * nat)) (g : jsgrid) : jsgrid :=
  foldl (λ g p, grid_write g p.1 p.2 (F p.1 p.2)) g cs.

(** The cells visited by a loop over [l1] around a loop over [l2]. *)
Definition cells (l1 l2 : list nat) : list (nat * nat) :=
  l1 ≫= λ r, pair r <$> l2.

(** The order in which [for_down n] visits its indices. *)
Definition down (n : nat) : list nat := reverse (seq 0 n).

(** A full [n]-by-[m] grid given cell by cell. *)
Definition grid_of (n m : nat) (F : nat → nat → jsval) : jsgrid :=
  map (λ r, Some (map (F r) (seq 0 m))) (seq 0 n).

(** The grid [reset] leaves in the first [n] rows of a matrix with [m]
    columns: row [i] is [m] zeros with a one written at index [i]. *)
Definition reset_rows (n m : nat) : jsgrid :=
  map (λ i, Some (arr_set Undef (replicate m (Num 0)) i (Num 1))) (seq 0 n).

(** Tables of numbers, the content of a well-formed matrix. *)
Abbreviation table := (list (list float)).

Definition entry (l : table) (r c : nat) : float :=
  default 0%float (l !! r ≫= λ row, row !! c).

Definition tabulate (n m : nat) (f : nat → nat → float) : table :=
  map (λ r, map (f r) (seq 0 m)) (seq 0 n).

Definition is_table (n m : nat) (l : table) : Prop :=
  length l = n ∧ ∀ r row, l !! r = Some row → length row = m.

Definition nums (l : table) : jsgrid := map (λ row, Some (map Num row)) l.

Definition raw (l : table) : list jsrow := map (map Num) l.

(** The object of a matrix of shape [n]-by-[m] holding table [l]. *)
Definition matrix (n m : nat) (l : table) : Matrix :=
  {| rows := Some n; cols := Some m; value := nums l |}.

(** The sum the loops of the source accumulate: starting from [acc], the
    terms [f (m-1)], ..., [f 0] are added one after the other, in this
    order, each addition being rounded:
    [(...((acc + f (m-1)) + f (m-2)) + ...) + f 0]. *)
Fixpoint sum_down (m : nat) (f : nat → float) (acc : float) : float :=
  match m with
  | 0 => acc
  | S k => sum_down k f (acc + f k)%float
  end.

(** The product of an [n]-by-[m] table and an [m]-by-[p] table as the
    source computes it: each cell is [sum_down] of the m products, from 0. *)
Definition mmul (n m p : nat) (A B : table) : table :=
  tabulate n p (λ r c, sum_down m (λ k, entry A r k * entry B k c)%float 0%float).

(** The identity pattern of shape [n]-by-[m]: ones at (i, i), zeros
    elsewhere. *)
Definition identity (n m : nat) : table :=
  tabulate n m (λ r c, if decide (r = c) then 1%float else 0%float).

Definition transpose (n m : nat) (l : table) : table :=
  tabulate m n (λ r c, entry l c r).

(** Object [o] is an [n]-by-[m] matrix whose cells, read through
    [value[r][c]] inside its extents, are the entries of table [l].  This is
    all the arithmetic loops look at; [matrix n m l] is the tidy case. *)
Definition holds (o : Matrix) (n m : nat) (l : table) : Prop :=
  rows o = Some n ∧ cols o = Some m ∧
  (∀ r, r < n → is_Some (grid_row (value o) r)) ∧
  (∀ r c, r < n → c < m → rd (value o) r c = Num (entry l r c)).

(** Argument [a] is a well-formed matrix of shape [s] in store [h]. *)
Definition operand (h : heap) (a : arg) (s : nat * nat) : Prop :=
  ∃ r l, a = AMat r ∧ h !! r = Some (matrix s.1 s.2 l) ∧ is_table s.1 s.2 l.

(** Argument [a] is a Matrix of shape [n]-by-[m] in store [h]. *)
Definition same_shape (h : heap) (a : arg) (n m : nat) : Prop :=
  ∃ r o, a = AMat r ∧ h !! r = Some o ∧ rows o = Some n ∧ cols o = Some m.

(** The product accumulated by [k] turns of the loop of [pow]. *)
Definition times (n : nat) (l : table) (k : nat) (X : table) : table :=
  Nat.iter k (λ Y, mmul n n n Y l) X.

(** The first adjacent pair of shapes whose inner extents differ. *)
Fixpoint first_mismatch (ss : list (nat * nat)) : option (nat * nat) :=
  match ss with
  | s1 :: rest =>
      match rest with
      | s2 :: _ =>
          if decide (s1.2 = s2.1) then first_mismatch rest else Some (s1.2, s2.1)
      | [] => None
      end
  | [] => None
  end.

(** The heap with the [value] of object [this] replaced. *)
Definition st (this : ref) (o : Matrix) (h : heap) (g : jsgrid) : heap :=
  <[this := with_value o g]> h.

(** ** Descriptions used by the further properties *)

(** The number [v || 0] stands for in a cell. *)
Definition coerce (v : jsval) : float :=
  match v with
  | Num x => num_or0 x
  | Undef => 0%float
  end.

(** A table after every cell went through [|| 0]. *)
Definition settle (l : table) : table := map (map num_or0) l.

(** An operand of an elementwise method, seen from outside: the table of a
    Matrix of the store other than the receiver, a number, or the receiver
    itself. *)
Inductive opd : Type :=
| OMat (lb : table)
| ONum (s : float)
| OSelf.

(** What an operand contributes at cell (r, c), where the receiver holds
    [x] at that moment: the cell of a Matrix, [s || 0] for a number [s]
    (numbers are spread over a matrix by [zero]), [x] itself for the
    receiver. *)
Definition operand_cell (x : float) (d : opd) (r c : nat) : float :=
  match d with
  | OMat lb => entry lb r c
  | ONum s => num_or0 s
  | OSelf => x
  end.

(** One operand combined into a table, cell by cell. *)
Definition combine (op : float → float → float) (n m : nat) (l : table) (d : opd) : table :=
  tabulate n m (λ r c, op (entry l r c) (operand_cell (entry l r c) d r c)).

(** All operands combined, from left to right. *)
Definition fold_cells (op : float → float → float) (n m : nat) (l : table)
    (ds : list opd) : table :=
  foldl (combine op n m) l ds.

(** Argument [a] of a call on receiver [this] is what [d] describes: a
    well-formed [n]-by-[m] Matrix of the store other than the receiver, a
    number, or the receiver. *)
Definition describes (h : heap) (this : ref) (n m : nat) (a : arg) (d : opd) : Prop :=
  match d with
  | OMat lb => ∃ b, a = AMat b ∧ b ≠ this ∧ h !! b = Some (matrix n m lb) ∧ is_table n m lb
  | ONum s => a = ANum s
  | OSelf => a = AMat this
  end.

(** Argument [a] of a function of the [Matrix] object is what [d]
    describes: a well-formed [n]-by-[m] Matrix of the store, or a number. *)
Definition stored (h : heap) (n m : nat) (a : arg) (d : table + float) : Prop :=
  match d with
  | inl lb => ∃ b, a = AMat b ∧ h !! b = Some (matrix n m lb) ∧ is_table n m lb
  | inr s => a = ANum s
  end.

Definition opd_of (d : table + float) : opd :=
  match d with
  | inl lb => OMat lb
  | inr s => ONum s
  end.

(** What a stored operand contributes at cell (r, c). *)
Definition operand_entry (d : table + float) (r c : nat) : float :=
  match d with
  | inl lb => entry lb r c
  | inr s => num_or0 s
  end.

(** Argument [a] is a raw grid, or a Matrix of the store whose shape is not
    [n]-by-[m]. *)
Definition mismatched (h : heap) (a : arg) (n m : nat) : Prop :=
  (∃ g, a = AGrid g) ∨
  (∃ b ob, a = AMat b ∧ h !! b = Some ob ∧ dimensions ob ≠ (Some n, Some m)).

(** Whether an operand is a number (and not a matrix). *)
Definition is_number (d : opd) : bool :=
  match d with ONum _ => true | OMat _ | OSelf => false end.

(** One operand of [product] taken into a table: a matrix multiplies it
    from the right (the receiver multiplies it by itself), a number scales
    every cell. *)
Definition product_step (n m : nat) (acc : table) (d : opd) : table :=
  match d with
  | OMat lb => mmul n m m acc lb
  | ONum s => tabulate n m (λ r c, entry acc r c * s)%float
  | OSelf => mmul n m m acc acc
  end.

(** The product of a chain of tables, multiplied from left to right: [l] of
    shape [n]-by-[p], then each [(q, lb)] with [lb] of [q] columns and as
    many rows as its predecessor has columns.  The result comes with its
    number of columns. *)
Fixpoint chain_product (n p : nat) (l : table) (bs : list (nat * table)) : nat * table :=
  match bs with
  | [] => (p, l)
  | (q, lb) :: bs => chain_product n q (mmul n p q l lb) bs
  end.

(** Arguments [args] are well-formed matrices of the store, described by
    [bs], the first with [p] rows and each of the others with as many rows
    as its predecessor has columns. *)
Fixpoint chained (h : heap) (p : nat) (args : list arg) (bs : list (nat * table)) : Prop :=
  match args, bs with
  | [], [] => True
  | a :: args, (q, lb) :: bs =>
      (∃ r, a = AMat r ∧ h !! r = Some (matrix p q lb) ∧ is_table p q lb) ∧
      chained h q args bs
  | _, _ => False
  end.

(** * Proofs *)

(** ** The monad *)

Lemma bind_ok {A B} (m : M A) (k : A → M B) h a h' :
  m h = Ok a h' → (m ≫= k) h = k a h'.
Proof. intros E. unfold mbind, M_bind. by rewrite E. Qed.

(** Run the first statement of a sequence with a known outcome. *)
Ltac run E := rewrite (bind_ok _ _ _ _ _ E); cbn beta.

Lemma bind_throw {A B} (m : M A) (k : A → M B) h e :
  m h = Throw e → (m ≫= k) h = Throw e.
Proof. intros E. unfold mbind, M_bind. by rewrite E. Qed.

Lemma bind_ret {A B} (a : A) (k : A → M B) h : (mret a ≫= k) h = k a h.
Proof. done. Qed.

Lemma deref_ok h r o : h !! r = Some o → deref r h = Ok o h.
Proof. intros E. unfold deref. by rewrite E. Qed.

Lemma set_value_ok h r o g :
  h !! r = Some o → set_value r g h = Ok () (<[r := with_value o g]> h).
Proof. intros E. unfold set_value. by rewrite E. Qed.

(** ** Loops as traversals of index lists *)

Lemma for_args_app {A} (l1 l2 : list A) body h :
  for_args (l1 ++ l2) body h = (for_args l1 body ;; for_args l2 body) h.
Proof.
  revert h. induction l1 as [|a l1 IH]; intros h; simpl; [done|].
  unfold mbind, M_bind. destruct (body a h) as [[] h'|e]; [|done]. apply IH.
Qed.

Lemma for_args_ext {A} (l : list A) (f g : A → M unit) h :
  (∀ a h, a ∈ l → f a h = g a h) → for_args l f h = for_args l g h.
Proof.
  revert h. induction l as [|a l IH]; intros h Hfg; simpl; [done|].
  unfold mbind, M_bind. rewrite Hfg by left.
  destruct (g a h) as [[] h'|e]; [|done].
  apply IH. intros b h'' Hb. apply Hfg. by right.
Qed.

Lemma for_down_list n body h : for_down n body h = for_args (down n) body h.
Proof.
  revert h. induction n as [|n IH]; intros h; [done|].
  unfold down. rewrite seq_S, reverse_app. simpl.
  unfold mbind, M_bind. destruct (body n h) as [[] h'|e]; [|done]. apply IH.
Qed.

Lemma for_up_from_list i n body h :
  for_up_from i n body h = for_args (seq i n) body h.
Proof.
  revert i h. induction n as [|n IH]; intros i h; [done|]. simpl.
  unfold mbind, M_bind. destruct (body i h) as [[] h'|e]; [|done]. apply IH.
Qed.

Lemma for_up_list n body h : for_up n body h = for_args (seq 0 n) body h.
Proof. apply for_up_from_list. Qed.

Lemma for_args_cells (l1 l2 : list nat) (body : nat → nat → M unit) h :
  for_args l1 (λ r, for_args l2 (body r)) h
  = for_args (cells l1 l2) (λ p, body p.1 p.2) h.
Proof.
  revert h. induction l1 as [|r l1 IH]; intros h; [done|].
  change (cells (r :: l1) l2) with ((pair r <$> l2) ++ cells l1 l2).
  rewrite for_args_app. simpl. unfold mbind, M_bind.
  assert (∀ h, for_args l2 (body r) h
               = for_args (pair r <$> l2) (λ p, body p.1 p.2) h) as ->.
  { clear. induction l2 as [|c l2 IH]; intros h; simpl; [done|].
    unfold mbind, M_bind. destruct (body r c h) as [[] h'|e]; [|done]. apply IH. }
  destruct (for_args (pair r <$> l2) _ h) as [[] h'|e]; [|done]. apply IH.
Qed.

Lemma elem_of_cells l1 l2 r c : (r, c) ∈ cells l1 l2 ↔ r ∈ l1 ∧ c ∈ l2.
Proof.
  unfold cells. rewrite list_elem_of_bind. split.
  - intros (r' & Hin & Hr'). apply list_elem_of_fmap in Hin as (c' & [= -> ->] & Hc'). done.
  - intros [Hr Hc]. exists r. split; [|done]. apply list_elem_of_fmap. by exists c.
Qed.

Lemma NoDup_cells l1 l2 : NoDup l1 → NoDup l2 → NoDup (cells l1 l2).
Proof.
  intros H1 H2. induction H1 as [|r l1 Hr H1 IH]; [constructor|].
  change (cells (r :: l1) l2) with ((pair r <$> l2) ++ cells l1 l2).
  apply NoDup_app. split_and!.
  - apply NoDup_fmap_2; [|done]. intros ?? [=]. done.
  - intros [r' c'] Hin Hin'. apply list_elem_of_fmap in Hin as (c'' & [= -> ->] & _).
    apply elem_of_cells in Hin' as [? _]. done.
  - done.
Qed.

Lemma elem_of_down n k : k ∈ down n ↔ k < n.
Proof. unfold down. rewrite elem_of_reverse, elem_of_seq. lia. Qed.

Lemma NoDup_down n : NoDup (down n).
Proof. unfold down. rewrite reverse_Permutation. apply NoDup_seq. Qed.

(** ** Arrays that grow on write *)

Lemma arr_set_lookup {A} (d : A) a i v j :
  arr_set d a i v !! j
  = if decide (j = i) then Some v
    else if decide (length a ≤ j < i) then Some d
    else a !! j.
Proof.
  unfold arr_set. destruct (decide (i < length a)).
  - destruct (decide (j = i)) as [->|].
    + by rewrite list_lookup_insert_eq.
    + rewrite list_lookup_insert_ne by done.
      destruct (decide _); [lia|done].
  - destruct (decide (j < length a)).
    + rewrite lookup_app_l by done.
      destruct (decide (j = i)); [lia|]. destruct (decide _); [lia|done].
    + rewrite lookup_app_r by lia.
      destruct (decide (j = i)) as [->|].
      * rewrite lookup_app_r by (rewrite length_replicate; lia).
        rewrite length_replicate. by replace (i - length a - (i - length a)) with 0 by lia.
      * destruct (decide (length a ≤ j < i)).
        -- rewrite lookup_app_l by (rewrite length_replicate; lia).
           apply lookup_replicate_2. lia.
        -- rewrite lookup_app_r by (rewrite length_replicate; lia).
           rewrite length_replicate.
           destruct (j - length a - (i - length a)) eqn:E; [lia|].
           simpl. rewrite lookup_nil. symmetry. apply lookup_ge_None. lia.
Qed.

Lemma arr_set_length {A} (d : A) a i v :
  length (arr_set d a i v) = length a `max` S i.
Proof.
  unfold arr_set. destruct (decide _).
  - rewrite length_insert. lia.
  - rewrite !length_app, length_replicate. simpl. lia.
Qed.

Lemma row_get_arr_set row c v c' :
  row_get (arr_set Undef row c v) c' = if decide (c' = c) then v else row_get row c'.
Proof.
  unfold row_get. rewrite arr_set_lookup.
  destruct (decide (c' = c)); [done|].
  destruct (decide _); [|done].
  rewrite (lookup_ge_None_2 row c') by lia. done.
Qed.

Lemma row_ext (row1 row2 : jsrow) :
  length row1 = length row2 →
  (∀ c, c < length row1 → row_get row1 c = row_get row2 c) →
  row1 = row2.
Proof.
  intros Hlen Hget. apply list_eq. intros c.
  destruct (decide (c < length row1)) as [Hc|Hc].
  - specialize (Hget c Hc). unfold row_get in Hget.
    destruct (lookup_lt_is_Some_2 row1 c Hc) as [x Hx].
    destruct (lookup_lt_is_Some_2 row2 c ltac:(lia)) as [y Hy].
    rewrite Hx, Hy in *. simpl in Hget. by subst.
  - rewrite !lookup_ge_None_2 by lia. done.
Qed.

(** ** Grids *)

Lemma grid_row_Some g r row : grid_row g r = Some row ↔ g !! r = Some (Some row).
Proof.
  unfold grid_row. destruct (g !! r) as [[?|]|]; naive_solver.
Qed.

Lemma grid_row_write g r c v r' :
  grid_row (grid_write g r c v) r'
  = (λ row, if decide (r' = r) then arr_set Undef row c v else row) <$> grid_row g r'.
Proof.
  unfold grid_write. destruct (grid_row g r) as [row|] eqn:E.
  - apply grid_row_Some in E. unfold grid_row at 1 2.
    destruct (decide (r' = r)) as [->|].
    + rewrite list_lookup_insert_eq by (by apply lookup_lt_Some in E).
      by rewrite E.
    + rewrite list_lookup_insert_ne by done.
      by destruct (g !! r') as [[?|]|].
  - destruct (decide (r' = r)) as [->|].
    + by rewrite E.
    + by destruct (grid_row g r').
Qed.

Lemma grid_write_length g r c v : length (grid_write g r c v) = length g.
Proof. unfold grid_write. destruct (grid_row g r); [apply length_insert|done]. Qed.

Lemma grid_write_lookup_ne g r c v r' :
  r' ≠ r → grid_write g r c v !! r' = g !! r'.
Proof.
  intros. unfold grid_write. destruct (grid_row g r); [|done].
  by apply list_lookup_insert_ne.
Qed.

Lemma rd_write g r c v r' c' :
  is_Some (grid_row g r) →
  rd (grid_write g r c v) r' c'
  = if decide (r' = r ∧ c' = c) then v else rd g r' c'.
Proof.
  intros [row Hrow]. unfold rd. rewrite grid_row_write.
  destruct (decide (r' = r)) as [->|].
  - rewrite Hrow. simpl. rewrite row_get_arr_set.
    destruct (decide (c' = c)) as [->|Hc].
    + by rewrite decide_True.
    + rewrite decide_False; [done|]. by intros [_ ?].
  - rewrite decide_False by (by intros [? _]).
    by destruct (grid_row g r').
Qed.

Lemma writes_snoc F cs r c g :
  writes F (cs ++ [(r, c)]) g = grid_write (writes F cs g) r c (F r c).
Proof. unfold writes. by rewrite foldl_app. Qed.

Lemma writes_present F cs g r :
  is_Some (grid_row (writes F cs g) r) ↔ is_Some (grid_row g r).
Proof.
  induction cs as [|[r' c] cs IH] using rev_ind; [done|].
  rewrite writes_snoc, grid_row_write, <-IH.
  rewrite fmap_is_Some. done.
Qed.

Lemma writes_lookup_other F cs g r :
  (∀ c, (r, c) ∉ cs) → writes F cs g !! r = g !! r.
Proof.
  induction cs as [|[r' c] cs IH] using rev_ind; intros Hr; [done|].
  rewrite writes_snoc.
  rewrite grid_write_lookup_ne.
  - apply IH. intros c' Hin. apply (Hr c'). apply elem_of_app. by left.
  - intros ->. apply (Hr c). apply elem_of_app. right. by left.
Qed.

Lemma rd_writes F cs g r c :
  (∀ r' c', (r', c') ∈ cs → is_Some (grid_row g r')) →
  rd (writes F cs g) r c = if decide ((r, c) ∈ cs) then F r c else rd g r c.
Proof.
  induction cs as [|[r' c'] cs IH] using rev_ind; intros Hp.
  - destruct (decide _) as [Hin|]; [by apply elem_of_nil in Hin|done].
  - rewrite writes_snoc, rd_write.
    2:{ apply writes_present, (Hp r' c'), elem_of_app. right. by left. }
    rewrite IH by (intros ???; eapply Hp, elem_of_app; by left).
    destruct (decide (r = r' ∧ c = c')) as [[-> ->]|Hne].
    + rewrite decide_True; [done|]. apply elem_of_app. right. by left.
    + destruct (decide ((r, c) ∈ cs)) as [Hin|Hin].
      * rewrite decide_True; [done|]. apply elem_of_app. by left.
      * rewrite decide_False; [done|].
        rewrite elem_of_app, list_elem_of_singleton.
        intros [?|[= -> ->]]; [done|]. by apply Hne.
Qed.

(** The length of a row after a series of writes. *)
Lemma writes_row_length F cs g r row0 :
  grid_row g r = Some row0 →
  ∃ row, grid_row (writes F cs g) r = Some row ∧
         length row0 ≤ length row ∧
         (∀ c, (r, c) ∈ cs → c < length row) ∧
         (∀ m, length row0 ≤ m → (∀ c, (r, c) ∈ cs → c < m) → length row ≤ m).
Proof.
  intros Hrow. induction cs as [|[r' c'] cs IH] using rev_ind.
  - exists row0. split_and!; [done|done| |done].
    intros c Hin. by apply elem_of_nil in Hin.
  - destruct IH as (row & Hr & Hge & Hlt & Hle).
    rewrite writes_snoc, grid_row_write, Hr. simpl.
    eexists. split; [done|].
    destruct (decide (r = r')) as [<-|Hne].
    + rewrite arr_set_length. split_and!.
      * lia.
      * intros c [Hin|Hin]%elem_of_app.
        -- specialize (Hlt c Hin). lia.
        -- apply list_elem_of_singleton in Hin as [= ->]. lia.
      * intros m Hm Hcs.
        assert (c' < m) by (apply Hcs, elem_of_app; right; by left).
        assert (length row ≤ m); [|lia].
        apply Hle; [done|]. intros c Hin. apply Hcs, elem_of_app. by left.
    + split_and!.
      * done.
      * intros c [Hin|Hin]%elem_of_app; [by apply Hlt|].
        apply list_elem_of_singleton in Hin as [= -> ->]. done.
      * intros m Hm Hcs. apply Hle; [done|].
        intros c Hin. apply Hcs, elem_of_app. by left.
Qed.

(** ** Cell statements on the store *)

Section on_store.
Context (this : ref) (o0 : Matrix) (h0 : heap).
Hypothesis Hthis : h0 !! this = Some o0.

Lemma st_lookup g : st this o0 h0 g !! this = Some (with_value o0 g).
Proof. apply list_lookup_insert_eq. by apply lookup_lt_Some in Hthis. Qed.

Lemma st_lookup_ne g m : m ≠ this → st this o0 h0 g !! m = h0 !! m.
Proof. intros. unfold st. by apply list_lookup_insert_ne. Qed.

Lemma st_st g g' : <[this := with_value (with_value o0 g) g']> (st this o0 h0 g) = st this o0 h0 g'.
Proof. unfold st. by rewrite list_insert_insert_eq. Qed.

Lemma st_id : st this o0 h0 (value o0) = h0.
Proof.
  unfold st. replace (with_value o0 (value o0)) with o0 by (by destruct o0).
  by apply list_insert_id.
Qed.

Lemma st_length g : length (st this o0 h0 g) = length h0.
Proof. apply length_insert. Qed.

Lemma deref_st g : deref this (st this o0 h0 g) = Ok (with_value o0 g) (st this o0 h0 g).
Proof. apply deref_ok, st_lookup. Qed.

Lemma set_value_st g g' : set_value this g' (st this o0 h0 g) = Ok () (st this o0 h0 g').
Proof. erewrite set_value_ok by apply st_lookup. by rewrite st_st. Qed.

Lemma write_cell_st g r c v :
  is_Some (grid_row g r) →
  write_cell this r c v (st this o0 h0 g) = Ok () (st this o0 h0 (grid_write g r c v)).
Proof.
  intros [row Hrow]. unfold write_cell.
  rewrite (bind_ok _ _ _ _ _ (deref_st g)). simpl.
  unfold grid_write. rewrite Hrow. apply set_value_st.
Qed.

Lemma read_cell_st g r c :
  is_Some (grid_row g r) →
  read_cell this r c (st this o0 h0 g) = Ok (rd g r c) (st this o0 h0 g).
Proof.
  intros [row Hrow]. unfold read_cell.
  rewrite (bind_ok _ _ _ _ _ (deref_st g)). simpl.
  unfold rd. by rewrite Hrow.
Qed.

Lemma new_row_st g r :
  new_row this r (st this o0 h0 g) = Ok () (st this o0 h0 (arr_set None g r (Some []))).
Proof.
  unfold new_row. rewrite (bind_ok _ _ _ _ _ (deref_st g)). simpl.
  apply set_value_st.
Qed.

(** A loop that computes a value for each cell of [cs] and stores it
    there, when computing the value for a cell only depends on cells
    that were not written yet. *)
Lemma for_cells_spec (expr : nat → nat → M jsval) F cs g0 :
  NoDup cs →
  (∀ r c, (r, c) ∈ cs → is_Some (grid_row g0 r)) →
  (∀ r c g, (r, c) ∈ cs →
     (∀ r', is_Some (grid_row g r') ↔ is_Some (grid_row g0 r')) →
     rd g r c = rd g0 r c →
     expr r c (st this o0 h0 g) = Ok (F r c) (st this o0 h0 g)) →
  for_args cs (λ p, v ← expr p.1 p.2; write_cell this p.1 p.2 v) (st this o0 h0 g0)
  = Ok () (st this o0 h0 (writes F cs g0)).
Proof.
  induction cs as [|[r c] cs IH] using rev_ind; intros Hnd Hrows Hexpr; [done|].
  apply NoDup_app in Hnd as (Hnd & Hnotin & _).
  rewrite for_args_app. erewrite bind_ok; cycle 1.
  { apply IH; [done| |].
    - intros ???. eapply Hrows, elem_of_app. by left.
    - intros ??? Hin. apply Hexpr, elem_of_app. by left. }
  simpl. erewrite bind_ok; cycle 1.
  { erewrite bind_ok; cycle 1.
    - apply Hexpr.
      + apply elem_of_app. right. by left.
      + intros r'. apply writes_present.
      + rewrite rd_writes.
        * rewrite decide_False; [done|]. intros Hin. eapply Hnotin; [done|]. by left.
        * intros ???. eapply Hrows, elem_of_app. by left.
    - apply write_cell_st, writes_present. eapply Hrows, elem_of_app. right. by left. }
  by rewrite writes_snoc.
Qed.
End on_store.

(** Reading an object other than the one being written. *)
Lemma read_cell_other this o0 h0 g m om r c :
  m ≠ this → h0 !! m = Some om → is_Some (grid_row (value om) r) →
  read_cell m r c (st this o0 h0 g) = Ok (rd (value om) r c) (st this o0 h0 g).
Proof.
  intros Hne Hm [row Hrow]. unfold read_cell.
  erewrite bind_ok by (apply deref_ok; rewrite st_lookup_ne by done; exact Hm).
  simpl. unfold rd. by rewrite Hrow.
Qed.

Lemma read_cell_ok h m om r c :
  h !! m = Some om → is_Some (grid_row (value om) r) →
  read_cell m r c h = Ok (rd (value om) r c) h.
Proof.
  intros Hm [row Hrow]. unfold read_cell.
  erewrite bind_ok by (by apply deref_ok). simpl. unfold rd. by rewrite Hrow.
Qed.

Lemma for_args_fmap {A B} (f : A → B) l (body : B → M unit) h :
  for_args (f <$> l) body h = for_args l (λ a, body (f a)) h.
Proof.
  revert h. induction l as [|a l IH]; intros h; [done|]. simpl.
  unfold mbind, M_bind. destruct (body (f a) h) as [[] h'|e]; [|done]. apply IH.
Qed.

(** A loop whose every turn rewrites the grid of [this] by a pure step. *)
Lemma for_args_pure {A} this o0 h0 (P : jsgrid → Prop) (f : jsgrid → A → jsgrid)
    (l : list A) (body : A → M unit) g :
  (∀ a g, a ∈ l → P g →
     body a (st this o0 h0 g) = Ok () (st this o0 h0 (f g a)) ∧ P (f g a)) →
  P g →
  for_args l body (st this o0 h0 g) = Ok () (st this o0 h0 (foldl f g l)) ∧ P (foldl f g l).
Proof.
  revert g. induction l as [|a l IH]; intros g Hbody HP; [done|]. simpl.
  destruct (Hbody a g) as [E HP']; [by left|done|].
  erewrite bind_ok by exact E.
  apply IH; [|done]. intros ????. apply Hbody; [by right|done].
Qed.

Lemma down_S n : down (S n) = n :: down n.
Proof. unfold down. by rewrite seq_S, reverse_app. Qed.

(** ** Writes that cover whole rows *)

Lemma writes_rows F cs g (R : nat → Prop) m :
  (∀ r c, (r, c) ∈ cs ↔ R r ∧ c < m) →
  (∀ r, R r → ∃ row0, grid_row g r = Some row0 ∧ length row0 ≤ m) →
  ∀ r, (R r → writes F cs g !! r = Some (Some (map (F r) (seq 0 m)))) ∧
       (¬ R r → writes F cs g !! r = g !! r).
Proof.
  intros Hcs Hrows r. split; intros Hr.
  - destruct (Hrows r Hr) as (row0 & Hrow0 & Hlen0).
    destruct (writes_row_length F cs g r row0 Hrow0) as (row & Hrow & Hge & Hlt & Hle).
    rewrite (proj1 (grid_row_Some _ _ _) Hrow). do 2 f_equal.
    assert (length row = m) as Hlen.
    { apply Nat.le_antisymm.
      - apply Hle; [done|]. intros c Hin. by apply Hcs in Hin as [_ ?].
      - destruct m as [|m]; [lia|].
        assert (m < length row); [|lia]. apply Hlt, Hcs. split; [done|lia]. }
    apply row_ext.
    + by rewrite length_map, length_seq.
    + intros c Hc.
      assert (rd (writes F cs g) r c = F r c) as Hrd.
      { rewrite rd_writes.
        - rewrite decide_True; [done|]. apply Hcs. split; [done|lia].
        - intros r' c' [Hr' _]%Hcs. destruct (Hrows r' Hr') as (? & -> & _). done. }
      unfold rd in Hrd. rewrite Hrow in Hrd.
      rewrite Hrd. unfold row_get. rewrite list_lookup_fmap, lookup_seq_lt by lia. done.
  - apply writes_lookup_other. intros c [? _]%Hcs. done.
Qed.

Lemma map_const_seq {A} (x : A) i m : map (λ _, x) (seq i m) = replicate m x.
Proof. revert i. induction m as [|m IH]; intros i; simpl; [done|]. by rewrite IH. Qed.

(** Writing every cell of an [n]-by-[m] window, in any order, over rows
    that are no longer than [m] leaves exactly the written values there. *)
Lemma writes_window F cs g n m :
  (∀ r c, (r, c) ∈ cs ↔ r < n ∧ c < m) →
  (∀ r, r < n → ∃ row0, grid_row g r = Some row0 ∧ length row0 ≤ m) →
  writes F cs g = grid_of n m F ++ drop n g.
Proof.
  intros Hcs Hrows. apply list_eq. intros r.
  assert (n ≤ length g) as Hn.
  { destruct n as [|n]; [lia|]. destruct (Hrows n) as (row0 & Hr & _); [lia|].
    apply grid_row_Some, lookup_lt_Some in Hr. lia. }
  destruct (writes_rows F cs g (λ r, r < n) m Hcs Hrows r) as [Hin Hout].
  destruct (decide (r < n)) as [Hr|Hr].
  - rewrite Hin by done.
    rewrite lookup_app_l by (unfold grid_of; rewrite length_map, length_seq; lia).
    unfold grid_of. by rewrite list_lookup_fmap, lookup_seq_lt.
  - rewrite Hout by done.
    rewrite lookup_app_r by (unfold grid_of; rewrite length_map, length_seq; lia).
    unfold grid_of. rewrite length_map, length_seq, lookup_drop.
    f_equal. lia.
Qed.

(** ** zero, reset and the constructor *)

Lemma fill_fold {A} (X : nat → A) (d : A) n g :
  foldl (λ g row, arr_set d g row (X row)) g (down n) = map X (seq 0 n) ++ drop n g.
Proof.
  revert g. induction n as [|n IH]; intros g; [by rewrite drop_0|].
  rewrite down_S, seq_S, map_app, <-app_assoc. simpl. rewrite IH. f_equal.
  apply list_eq. intros i. rewrite lookup_drop, arr_set_lookup.
  destruct i as [|i]; simpl.
  - rewrite decide_True by lia. done.
  - rewrite decide_False by lia. rewrite decide_False by lia.
    rewrite lookup_drop. f_equal. lia.
Qed.

Lemma zero_fold {A} (x : A) (d : A) n g :
  foldl (λ g row, arr_set d g row x) g (down n) = replicate n x ++ drop n g.
Proof. by rewrite (fill_fold (λ _, x)), map_const_seq. Qed.

Section zero_reset.
Context (this : ref) (o0 : Matrix) (h0 : heap).
Hypothesis Hthis : h0 !! this = Some o0.

(** [this.value[row] = []] followed by a descending fill of its first
    [m] cells. *)
Lemma fill_row_st g row m (V : nat → jsval) :
  (new_row this row ;; for_down m (λ col, write_cell this row col (V col)))
    (st this o0 h0 g)
  = Ok () (st this o0 h0 (arr_set None g row (Some (map V (seq 0 m))))).
Proof.
  erewrite bind_ok by (by apply new_row_st).
  rewrite for_down_list.
  set (g1 := arr_set None g row (Some [])).
  trans (for_args (pair row <$> down m)
           (λ p, v' ← (λ _ c : nat, mret (V c)) p.1 p.2; write_cell this p.1 p.2 v')
           (st this o0 h0 g1)).
  { by rewrite for_args_fmap. }
  assert (grid_row g1 row = Some []) as Hrow.
  { apply grid_row_Some. unfold g1. rewrite arr_set_lookup. by rewrite decide_True. }
  etrans; [apply (for_cells_spec this o0 h0 Hthis (λ _ c, mret (V c)) (λ _ c, V c)
                    (pair row <$> down m) g1)|].
  - apply NoDup_fmap_2; [|apply NoDup_down]. intros ?? [=]. done.
  - intros r c (c' & [= -> ->] & _)%list_elem_of_fmap. by rewrite Hrow.
  - done.
  - f_equal. f_equal. apply list_eq. intros r.
    assert (∀ r' c, (r', c) ∈ pair row <$> down m ↔ r' = row ∧ c < m) as H1.
    { intros r' c. rewrite list_elem_of_fmap. split.
      - intros (c' & [= -> ->] & Hc'%elem_of_down). done.
      - intros [-> Hc]. exists c. split; [done|]. by apply elem_of_down. }
    assert (∀ r', r' = row → ∃ row0, grid_row g1 r' = Some row0 ∧ length row0 ≤ m) as H2.
    { intros r' ->. exists []. split; [done|]. simpl. lia. }
    destruct (writes_rows (λ _ c, V c) _ g1 (λ r, r = row) m H1 H2 r) as [Hin Hout].
    destruct (decide (r = row)) as [->|Hne].
    + rewrite Hin by done. rewrite arr_set_lookup.
      by rewrite decide_True.
    + rewrite Hout by done. unfold g1. rewrite !arr_set_lookup.
      by rewrite !(decide_False (P := r = row)).
Qed.

Lemma zero_row_st g row m v :
  (new_row this row ;; for_down m (λ col, write_cell this row col v)) (st this o0 h0 g)
  = Ok () (st this o0 h0 (arr_set None g row (Some (replicate m v)))).
Proof. by rewrite (fill_row_st g row m (λ _, v)), map_const_seq. Qed.

Lemma zero_st g fill :
  zero this fill (st this o0 h0 g)
  = Ok () (st this o0 h0 (replicate (ext (rows o0)) (Some (replicate (ext (cols o0)) (or0 fill)))
                           ++ drop (ext (rows o0)) g)).
Proof.
  unfold zero. erewrite bind_ok by (by apply deref_st). simpl.
  rewrite for_down_list.
  destruct (for_args_pure this o0 h0 (λ _, True)
              (λ g row, arr_set None g row (Some (replicate (ext (cols o0)) (or0 fill))))
              (down (ext (rows o0)))
              (λ row, new_row this row;;
                      for_down (ext (cols o0)) (λ col, write_cell this row col (or0 fill))) g)
    as [E _]; [|done|].
  - intros row g' _ _. split; [|done]. apply zero_row_st.
  - rewrite E. by rewrite zero_fold.
Qed.

Lemma diag_fold zrow k g :
  (∀ j, j < k → g !! j = Some (Some zrow)) →
  ∀ j, foldl (λ g i, grid_write g i i (Num 1)) g (down k) !! j
       = if decide (j < k) then Some (Some (arr_set Undef zrow j (Num 1))) else g !! j.
Proof.
  revert g. induction k as [|k IH]; intros g Hg j.
  - destruct (decide (j < 0)); [lia|done].
  - rewrite down_S. simpl.
    assert (grid_row g k = Some zrow) as Hk by (apply grid_row_Some, Hg; lia).
    rewrite IH.
    + destruct (decide (j < k)); [by rewrite decide_True by lia|].
      destruct (decide (j = k)) as [->|].
      * rewrite decide_True by lia. unfold grid_write. rewrite Hk.
        apply list_lookup_insert_eq. apply grid_row_Some, lookup_lt_Some in Hk. done.
      * rewrite decide_False by lia. by apply grid_write_lookup_ne.
    + intros j' Hj'. rewrite grid_write_lookup_ne by lia. apply Hg. lia.
Qed.

Lemma reset_st g :
  reset this (st this o0 h0 g)
  = Ok () (st this o0 h0 (reset_rows (ext (rows o0)) (ext (cols o0)) ++ drop (ext (rows o0)) g)).
Proof.
  unfold reset. erewrite bind_ok by apply zero_st.
  erewrite bind_ok by (by apply deref_st). simpl.
  set (n := ext (rows o0)). set (m := ext (cols o0)).
  set (g1 := replicate n (Some (replicate m (Num 0))) ++ drop n g).
  rewrite for_down_list.
  destruct (for_args_pure this o0 h0 (λ g, ∀ r, r < n → is_Some (grid_row g r))
              (λ g i, grid_write g i i (Num 1)) (down n)
              (λ i, set this i i (Num 1)) g1) as [E _].
  - intros i g' Hi%elem_of_down Hg'. split.
    + by apply write_cell_st, Hg'.
    + intros r Hr. rewrite grid_row_write, fmap_is_Some. by apply Hg'.
  - intros r Hr. exists (replicate m (Num 0)). apply grid_row_Some.
    unfold g1. rewrite lookup_app_l by (by rewrite length_replicate).
    by apply lookup_replicate_2.
  - rewrite E. f_equal. f_equal. apply list_eq. intros j.
    rewrite (diag_fold (replicate m (Num 0))).
    + destruct (decide (j < n)).
      * rewrite lookup_app_l by (unfold reset_rows; by rewrite length_map, length_seq).
        unfold reset_rows. by rewrite list_lookup_fmap, lookup_seq_lt.
      * unfold g1.
        rewrite !lookup_app_r
          by (unfold reset_rows; rewrite ?length_map, ?length_seq, ?length_replicate; lia).
        unfold reset_rows. by rewrite length_map, length_seq, length_replicate.
    + intros j' Hj'. unfold g1. rewrite lookup_app_l by (by rewrite length_replicate).
      by apply lookup_replicate_2.
Qed.
End zero_reset.

Lemma st_alloc (h : heap) o g : st (length h) o (h ++ [o]) g = h ++ [with_value o g].
Proof.
  unfold st. rewrite insert_app_r_alt by lia.
  by replace (length h - length h) with 0 by lia.
Qed.

Lemma alloc_lookup (h : heap) (o : Matrix) : (h ++ [o]) !! length h = Some o.
Proof. rewrite lookup_app_r by lia. by replace (length h - length h) with 0 by lia. Qed.

(** The constructor on a pair of extents: a new object, after everything
    already in the store, holding what [reset] builds. *)
Lemma new_Matrix_pair r c h :
  new_Matrix (CPair r c) h
  = Ok (length h) (h ++ [{| rows := r; cols := c; value := reset_rows (ext r) (ext c) |}]).
Proof.
  set (o := {| rows := r; cols := c; value := [] |}).
  assert (reset (length h) (h ++ [o])
          = Ok () (h ++ [with_value o (reset_rows (ext r) (ext c))])) as E.
  { rewrite <-(st_id (length h) o (h ++ [o]) (alloc_lookup h o)) at 1.
    rewrite (reset_st _ _ _ (alloc_lookup h o)).
    simpl. by rewrite st_alloc, drop_nil, app_nil_r. }
  unfold new_Matrix. fold o.
  rewrite (bind_ok _ _ h (length h) (h ++ [o]) eq_refl).
  by rewrite (bind_ok _ _ _ _ _ E).
Qed.

(** ** Tables and the grids that hold them *)

Lemma lookup_tabulate n m f r :
  r < n → tabulate n m f !! r = Some (map (f r) (seq 0 m)).
Proof. intros. unfold tabulate. by rewrite list_lookup_fmap, lookup_seq_lt. Qed.

Lemma entry_tabulate n m f r c : r < n → c < m → entry (tabulate n m f) r c = f r c.
Proof.
  intros. unfold entry. rewrite lookup_tabulate by done. simpl.
  by rewrite list_lookup_fmap, lookup_seq_lt.
Qed.

Lemma is_table_tabulate n m f : is_table n m (tabulate n m f).
Proof.
  split.
  - unfold tabulate. by rewrite length_map, length_seq.
  - intros r row Hr. assert (r < n) as Hlt.
    { apply lookup_lt_Some in Hr. unfold tabulate in Hr.
      by rewrite length_map, length_seq in Hr. }
    rewrite lookup_tabulate in Hr by done. injection Hr as <-.
    by rewrite length_map, length_seq.
Qed.

Lemma nums_tabulate n m f : nums (tabulate n m f) = grid_of n m (λ r c, Num (f r c)).
Proof.
  unfold nums, tabulate, grid_of. rewrite map_map. apply map_ext. intros r.
  by rewrite map_map.
Qed.

Lemma grid_row_nums l r : grid_row (nums l) r = map Num <$> l !! r.
Proof.
  unfold grid_row, nums. rewrite list_lookup_fmap. by destruct (l !! r).
Qed.

Lemma rd_nums l r c n m :
  is_table n m l → r < n → c < m → rd (nums l) r c = Num (entry l r c).
Proof.
  intros [Hn Hm] Hr Hc. unfold rd, entry. rewrite grid_row_nums.
  destruct (lookup_lt_is_Some_2 l r ltac:(lia)) as [row Hrow]. rewrite Hrow. simpl.
  unfold row_get. rewrite list_lookup_fmap.
  destruct (lookup_lt_is_Some_2 row c) as [z Hz].
  { by rewrite (Hm r row Hrow). }
  by rewrite Hz.
Qed.

Lemma holds_matrix n m l : is_table n m l → holds (matrix n m l) n m l.
Proof.
  intros Ht. split_and!; [done|done| |].
  - intros r Hr. simpl. rewrite grid_row_nums.
    destruct Ht as [Hn _]. destruct (lookup_lt_is_Some_2 l r ltac:(lia)) as [row ->]. done.
  - intros r c Hr Hc. by apply (rd_nums l r c n m).
Qed.

(** A table is determined by its entries. *)
Lemma table_ext n m l1 l2 :
  is_table n m l1 → is_table n m l2 →
  (∀ r c, r < n → c < m → entry l1 r c = entry l2 r c) → l1 = l2.
Proof.
  intros [Hn1 Hm1] [Hn2 Hm2] He. apply list_eq. intros r.
  destruct (decide (r < n)) as [Hr|Hr].
  - destruct (lookup_lt_is_Some_2 l1 r ltac:(lia)) as [row1 Hrow1].
    destruct (lookup_lt_is_Some_2 l2 r ltac:(lia)) as [row2 Hrow2].
    rewrite Hrow1, Hrow2. f_equal. apply list_eq. intros c.
    pose proof (Hm1 _ _ Hrow1). pose proof (Hm2 _ _ Hrow2).
    destruct (decide (c < m)) as [Hc|Hc].
    + specialize (He r c Hr Hc). unfold entry in He. rewrite Hrow1, Hrow2 in He.
      simpl in He.
      destruct (lookup_lt_is_Some_2 row1 c ltac:(lia)) as [z1 Hz1].
      destruct (lookup_lt_is_Some_2 row2 c ltac:(lia)) as [z2 Hz2].
      rewrite Hz1, Hz2 in *. simpl in He. by subst.
    + rewrite !lookup_ge_None_2 by lia. done.
  - rewrite !lookup_ge_None_2 by lia. done.
Qed.

Lemma tabulate_entry n m l : is_table n m l → tabulate n m (entry l) = l.
Proof.
  intros Ht. apply (table_ext n m); [apply is_table_tabulate|done|].
  intros r c Hr Hc. by apply entry_tabulate.
Qed.

(** On at least as many columns as rows, what [reset] builds is the
    identity pattern. *)
Lemma reset_rows_identity n m : n ≤ m → reset_rows n m = nums (identity n m).
Proof.
  intros Hnm. unfold identity. rewrite nums_tabulate. unfold reset_rows, grid_of.
  apply list_eq. intros r. rewrite !list_lookup_fmap.
  destruct (decide (r < n)) as [Hr|Hr]; [|by rewrite lookup_seq_ge by lia].
  rewrite lookup_seq_lt by done. simpl. do 2 f_equal.
  apply list_eq. intros c. rewrite arr_set_lookup, list_lookup_fmap, length_replicate.
  destruct (decide (c = r)) as [->|Hne].
  - rewrite lookup_seq_lt by lia. simpl. by rewrite decide_True.
  - rewrite decide_False by lia.
    destruct (decide (c < m)).
    + rewrite lookup_replicate_2, lookup_seq_lt by done. simpl.
      by rewrite decide_False by lia.
    + rewrite lookup_seq_ge by lia. apply lookup_replicate_None. lia.
Qed.

(** * Properties stated by the specification *)

(** ** Construction and reset *)

(** With at least as many columns as rows the constructor yields the
    identity pattern in a grid of exactly [n] rows of [m] entries. *)
Lemma new_Matrix_identity_wide n m h :
  n ≤ m →
  new_Matrix (CPair (Some n) (Some m)) h
  = Ok (length h) (h ++ [matrix n m (identity n m)]).
Proof.
  intros Hnm. rewrite new_Matrix_pair. simpl.
  by rewrite reset_rows_identity.
Qed.

(** The same for [reset] on an object whose grid has no more than [n]
    rows, whatever it held before. *)
Lemma reset_identity_wide h this o n m :
  h !! this = Some o → rows o = Some n → cols o = Some m →
  length (value o) ≤ n → n ≤ m →
  reset this h = Ok () (<[this := matrix n m (identity n m)]> h).
Proof.
  intros Hthis Hn Hm Hlen Hnm.
  rewrite <-(st_id this o h Hthis) at 1.
  rewrite (reset_st this o h Hthis). rewrite Hn, Hm. simpl.
  rewrite drop_ge, app_nil_r by done.
  rewrite reset_rows_identity by done.
  unfold st, with_value, matrix. by rewrite Hn, Hm.
Qed.

(** C2 (defect of the code, shown on [[3, 2]]).  The specification asks
    that construction from a [[rows, cols]] pair leaves [rows] rows of
    exactly [cols] entries with ones at (i, i) for i < min(rows, cols), as
    [matrix 3 2 (identity 3 2)] does.  [reset] loops over
    [this.dimensions[0]] without looking at [cols]: for the pair [[3, 2]] it
    performs [value[2][2] = 1], which grows the last row to three
    entries. *)
Theorem C2_reset_tall_grows_rows :
  new_Matrix (CPair (Some 3) (Some 2)) []
  = Ok 0 [ {| rows := Some 3; cols := Some 2;
              value := [ Some [Num 1; Num 0];
                         Some [Num 0; Num 1];
                         Some [Num 0; Num 0; Num 1] ] |} ]
  ∧ matrix 3 2 (identity 3 2)
    = {| rows := Some 3; cols := Some 2;
         value := [ Some [Num 1; Num 0];
                    Some [Num 0; Num 1];
                    Some [Num 0; Num 0] ] |}.
Proof. split; reflexivity. Qed.

(** ** get *)

Lemma lookupZ_nat {A} (l : list A) (z : Z) :
  (0 ≤ z)%Z → lookupZ l z = l !! Z.to_nat z.
Proof. intros. unfold lookupZ. by rewrite decide_False by lia. Qed.

Lemma lookupZ_out {A} (l : list A) (z : Z) :
  ¬ (0 ≤ z < Z.of_nat (length l))%Z → lookupZ l z = None.
Proof.
  intros Hz. unfold lookupZ. destruct (decide _); [done|].
  apply lookup_ge_None. lia.
Qed.

Lemma get_inside (h : heap) (this : ref) (n m : nat) (l : table) (r c : nat) :
  h !! this = Some (matrix n m l) → is_table n m l → r < n → c < m →
  get this (Z.of_nat r) (Z.of_nat c) h = Ok (Num (entry l r c)) h.
Proof.
  intros Hthis [Hn Hm] Hr Hc. unfold get.
  rewrite (bind_ok _ _ _ _ _ (deref_ok _ _ _ Hthis)). simpl.
  rewrite lookupZ_nat, Nat2Z.id by lia.
  destruct (lookup_lt_is_Some_2 l r ltac:(lia)) as [row Hrow].
  unfold nums. rewrite list_lookup_fmap, Hrow. simpl.
  rewrite lookupZ_nat, Nat2Z.id by lia. rewrite list_lookup_fmap.
  pose proof (Hm _ _ Hrow).
  destruct (lookup_lt_is_Some_2 row c ltac:(lia)) as [z Hz].
  unfold entry. rewrite Hrow. simpl. by rewrite Hz.
Qed.

(** C3 (amended).  [get] has no bounds check.  On a well-formed [n]-by-[m]
    matrix, [get(x, y)] returns the stored scalar when (x, y) is inside the
    extents; when the row index is inside and the column index is outside
    it returns [undefined] and does not fail; when the row index is
    outside it fails with the runtime's TypeError (indexing a missing
    row), never with a dedicated index error. *)
Theorem C3_get_no_bounds_check (h : heap) (this : ref) (n m : nat) (l : table) (x y : Z) :
  h !! this = Some (matrix n m l) →
  is_table n m l →
  ((0 ≤ x < Z.of_nat n)%Z ∧ (0 ≤ y < Z.of_nat m)%Z →
     get this x y h = Ok (Num (entry l (Z.to_nat x) (Z.to_nat y))) h) ∧
  ((0 ≤ x < Z.of_nat n)%Z ∧ ¬ (0 ≤ y < Z.of_nat m)%Z → get this x y h = Ok Undef h) ∧
  (¬ (0 ≤ x < Z.of_nat n)%Z → get this x y h = Throw TypeError).
Proof.
  intros Hthis [Hn Hm]. unfold get.
  rewrite (bind_ok _ _ _ _ _ (deref_ok _ _ _ Hthis)). simpl.
  split_and!.
  - intros [Hx Hy]. rewrite lookupZ_nat by lia.
    destruct (lookup_lt_is_Some_2 l (Z.to_nat x) ltac:(lia)) as [row Hrow].
    unfold nums. rewrite list_lookup_fmap, Hrow. simpl.
    rewrite lookupZ_nat by lia. rewrite list_lookup_fmap.
    pose proof (Hm _ _ Hrow).
    destruct (lookup_lt_is_Some_2 row (Z.to_nat y) ltac:(lia)) as [z Hz].
    unfold entry. rewrite Hrow. simpl. by rewrite Hz.
  - intros [Hx Hy]. rewrite lookupZ_nat by lia.
    destruct (lookup_lt_is_Some_2 l (Z.to_nat x) ltac:(lia)) as [row Hrow].
    unfold nums. rewrite list_lookup_fmap, Hrow. simpl.
    pose proof (Hm _ _ Hrow).
    rewrite lookupZ_out; [done|]. rewrite length_map. lia.
  - intros Hx. rewrite lookupZ_out; [done|].
    unfold nums. rewrite length_map. lia.
Qed.

Lemma is_table_2_2 a b c d : is_table 2 2 [[a; b]; [c; d]].
Proof.
  split; [done|]. intros [|[|r]] row [=]; by subst.
Qed.

Lemma C3_get_witness :
  get 0 1 0 [matrix 2 2 [[1; 2]; [3; 4]]%float] = Ok (Num 3) [matrix 2 2 [[1; 2]; [3; 4]]%float].
Proof.
  apply (C3_get_no_bounds_check [matrix 2 2 [[1; 2]; [3; 4]]%float] 0 2 2 [[1; 2]; [3; 4]]%float 1 0
           eq_refl (is_table_2_2 _ _ _ _)).
  lia.
Defined.

(** C3, as stated, fails: (0, 2) is outside a 2-by-2 matrix, and [get]
    answers [undefined] instead of failing. *)
Lemma C3_get_counterexample :
  ¬ ((0 ≤ 0 < 2)%Z ∧ (0 ≤ 2 < 2)%Z) ∧
  get 0 0 2 [matrix 2 2 [[1; 2]; [3; 4]]%float] = Ok Undef [matrix 2 2 [[1; 2]; [3; 4]]%float].
Proof. split; [lia|reflexivity]. Qed.

(** ** Loop nests over the cells of a matrix *)

Section nests.
Context (this : ref) (o0 : Matrix) (h0 : heap).
Hypothesis Hthis : h0 !! this = Some o0.
Context (expr : nat → nat → M jsval) (F : nat → nat → jsval).

Lemma nest_spec l1 l2 g0 :
  NoDup l1 → NoDup l2 →
  (∀ r, r ∈ l1 → is_Some (grid_row g0 r)) →
  (∀ r c g, r ∈ l1 → c ∈ l2 →
     (∀ r', is_Some (grid_row g r') ↔ is_Some (grid_row g0 r')) →
     rd g r c = rd g0 r c →
     expr r c (st this o0 h0 g) = Ok (F r c) (st this o0 h0 g)) →
  for_args l1 (λ r, for_args l2 (λ c, v ← expr r c; write_cell this r c v))
    (st this o0 h0 g0)
  = Ok () (st this o0 h0 (writes F (cells l1 l2) g0)).
Proof.
  intros H1 H2 Hrows Hexpr.
  rewrite (for_args_cells l1 l2 (λ r c, v ← expr r c; write_cell this r c v)).
  apply (for_cells_spec this o0 h0 Hthis expr F).
  - by apply NoDup_cells.
  - intros r c [Hr _]%elem_of_cells. by apply Hrows.
  - intros r c g [Hr Hc]%elem_of_cells. by apply Hexpr.
Qed.

Lemma for_up_nest n m g0 :
  (∀ r, r < n → is_Some (grid_row g0 r)) →
  (∀ r c g, r < n → c < m →
     (∀ r', is_Some (grid_row g r') ↔ is_Some (grid_row g0 r')) →
     rd g r c = rd g0 r c →
     expr r c (st this o0 h0 g) = Ok (F r c) (st this o0 h0 g)) →
  for_up n (λ r, for_up m (λ c, v ← expr r c; write_cell this r c v))
    (st this o0 h0 g0)
  = Ok () (st this o0 h0 (writes F (cells (seq 0 n) (seq 0 m)) g0)).
Proof.
  intros Hrows Hexpr. rewrite for_up_list.
  erewrite for_args_ext by (intros; apply for_up_list).
  apply nest_spec; [apply NoDup_seq|apply NoDup_seq| |].
  - intros r Hr%elem_of_seq. apply Hrows. lia.
  - intros r c g Hr%elem_of_seq Hc%elem_of_seq. apply Hexpr; lia.
Qed.

Lemma for_down_nest n m g0 :
  (∀ r, r < n → is_Some (grid_row g0 r)) →
  (∀ r c g, r < n → c < m →
     (∀ r', is_Some (grid_row g r') ↔ is_Some (grid_row g0 r')) →
     rd g r c = rd g0 r c →
     expr r c (st this o0 h0 g) = Ok (F r c) (st this o0 h0 g)) →
  for_down n (λ r, for_down m (λ c, v ← expr r c; write_cell this r c v))
    (st this o0 h0 g0)
  = Ok () (st this o0 h0 (writes F (cells (down n) (down m)) g0)).
Proof.
  intros Hrows Hexpr. rewrite for_down_list.
  erewrite for_args_ext by (intros; apply for_down_list).
  apply nest_spec; [apply NoDup_down|apply NoDup_down| |].
  - intros r Hr%elem_of_down. by apply Hrows.
  - intros r c g Hr%elem_of_down Hc%elem_of_down. by apply Hexpr.
Qed.
End nests.

Lemma cells_up_window n m r c : (r, c) ∈ cells (seq 0 n) (seq 0 m) ↔ r < n ∧ c < m.
Proof. rewrite elem_of_cells, !elem_of_seq. lia. Qed.

Lemma cells_down_window n m r c : (r, c) ∈ cells (down n) (down m) ↔ r < n ∧ c < m.
Proof. by rewrite elem_of_cells, !elem_of_down. Qed.

(** ** One step of Matrix.dot *)

Lemma dot_sum_spec h a b oa ob n m p la lb row col j acc :
  h !! a = Some oa → h !! b = Some ob →
  holds oa n m la → holds ob m p lb →
  row < n → col < p → j ≤ m →
  dot_sum (AMat a) (AMat b) row col j (Num acc) h
  = Ok (Num (sum_down j (λ k, entry la row k * entry lb k col)%float acc)) h.
Proof.
  intros Ha Hb (_ & _ & Hpa & Hra) (_ & _ & Hpb & Hrb) Hrow Hcol.
  revert acc. induction j as [|j IH]; intros acc Hj; [done|].
  simpl dot_sum.
  rewrite (bind_ok _ _ _ _ _ (read_cell_ok h a oa row j Ha (Hpa row Hrow))).
  rewrite (bind_ok _ _ _ _ _ (read_cell_ok h b ob j col Hb (Hpb j ltac:(lia)))).
  rewrite Hra, Hrb by lia. unfold jsmul, jsadd. cbn beta iota. by rewrite IH by lia.
Qed.

Lemma grid_row_replicate n (row : jsrow) r :
  r < n → grid_row (replicate n (Some row)) r = Some row.
Proof. intros. apply grid_row_Some. by apply lookup_replicate_2. Qed.

Lemma prop_rows_ok h a oa : h !! a = Some oa → prop_rows (AMat a) h = Ok (rows oa) h.
Proof. intros Ha. unfold prop_rows. by rewrite (bind_ok _ _ _ _ _ (deref_ok _ _ _ Ha)). Qed.

Lemma prop_cols_ok h a oa : h !! a = Some oa → prop_cols (AMat a) h = Ok (cols oa) h.
Proof. intros Ha. unfold prop_cols. by rewrite (bind_ok _ _ _ _ _ (deref_ok _ _ _ Ha)). Qed.

Lemma prop_dimensions_ok h a oa :
  h !! a = Some oa → prop_dimensions (AMat a) h = Ok (Some (dimensions oa)) h.
Proof.
  intros Ha. unfold prop_dimensions. by rewrite (bind_ok _ _ _ _ _ (deref_ok _ _ _ Ha)).
Qed.

Lemma dot_step_spec h a b oa ob n m p la lb :
  h !! a = Some oa → h !! b = Some ob →
  holds oa n m la → holds ob m p lb →
  dot_step (AMat a) (AMat b) h
  = Ok (length h) (h ++ [matrix n p (mmul n m p la lb)]).
Proof.
  intros Ha Hb HA HB.
  pose proof HA as (Han & Ham & _). pose proof HB as (Hbm & Hbp & _).
  unfold dot_step.
  run (prop_cols_ok _ _ _ Ha). run (prop_rows_ok _ _ _ Hb).
  rewrite Ham, Hbm. rewrite decide_False by (intros H; by apply H).
  run (prop_rows_ok _ _ _ Ha). run (prop_cols_ok _ _ _ Hb).
  rewrite Han, Hbp.
  run (new_Matrix_pair (Some n) (Some p) h). simpl ext.
  set (o1 := {| rows := Some n; cols := Some p; value := reset_rows n p |}).
  set (h1 := h ++ [o1]).
  assert (h1 !! length h = Some o1) as Hres by apply alloc_lookup.
  assert (a < length h) as Hla by (by apply lookup_lt_Some in Ha).
  assert (b < length h) as Hlb by (by apply lookup_lt_Some in Hb).
  rewrite <-(st_id (length h) o1 h1 Hres) at 1.
  run (zero_st _ _ _ Hres (value o1) Undef). simpl ext. simpl or0. simpl value.
  rewrite drop_ge, app_nil_r by (unfold reset_rows; by rewrite length_map, length_seq).
  set (F := λ r c, Num (sum_down m (λ k, entry la r k * entry lb k c)%float 0%float)).
  erewrite bind_ok; cycle 1.
  { apply (for_up_nest (length h) o1 h1 Hres _ F).
    - intros r Hr. by rewrite grid_row_replicate.
    - intros r c g Hr Hc _ _.
      erewrite (dot_sum_spec _ a b oa ob n m p la lb r c m 0); try done.
      + rewrite st_lookup_ne by lia. unfold h1. by apply lookup_app_l_Some.
      + rewrite st_lookup_ne by lia. unfold h1. by apply lookup_app_l_Some. }
  cbn beta. unfold mret, M_ret. f_equal. unfold h1. rewrite st_alloc. f_equal.
  unfold with_value, matrix, mmul. simpl. f_equal.
  rewrite (writes_window F _ _ n p).
  - rewrite drop_ge, app_nil_r by (by rewrite length_replicate).
    by rewrite nums_tabulate.
  - apply cells_up_window.
  - intros r Hr. exists (replicate p (Num 0)).
    rewrite grid_row_replicate by done. split; [done|]. by rewrite length_replicate.
Qed.

Lemma dot_step_mismatch h a b oa ob ac br :
  h !! a = Some oa → h !! b = Some ob →
  cols oa = ac → rows ob = br → ac ≠ br →
  dot_step (AMat a) (AMat b) h = Throw (Thrown (dot_message ac br)).
Proof.
  intros Ha Hb <- <- Hne. unfold dot_step.
  run (prop_cols_ok _ _ _ Ha). run (prop_rows_ok _ _ _ Hb).
  by rewrite decide_True.
Qed.

(** ** Matrix.dot on two operands *)

Lemma Matrix_dot_two h a b oa ob n m p la lb :
  h !! a = Some oa → h !! b = Some ob →
  holds oa n m la → holds ob m p lb →
  Matrix_dot [AMat a; AMat b] h
  = Ok (Some (length h)) (h ++ [matrix n p (mmul n m p la lb)]).
Proof.
  intros Ha Hb HA HB. unfold Matrix_dot, dot_chain. rewrite bind_ret.
  by run (dot_step_spec h a b _ _ n m p la lb Ha Hb HA HB).
Qed.

(** C1.  For A of shape n-by-m and B of shape m-by-p, [Matrix.dot(A, B)]
    returns a brand-new object (a reference past every object of the
    store), of shape n-by-p, whose cell (row, col) is the sum over k of
    A[row][k] * B[k][col], accumulated in double precision as the source
    does it: from 0, the products are added for k = m-1 down to 0, every
    product and every addition being the rounded operation on doubles.
    The store is otherwise unchanged, so A and B are untouched. *)
Theorem C1_Matrix_dot_product (h : heap) (a b : ref) (n m p : nat) (la lb : table) :
  h !! a = Some (matrix n m la) → is_table n m la →
  h !! b = Some (matrix m p lb) → is_table m p lb →
  let C := mmul n m p la lb in
  Matrix_dot [AMat a; AMat b] h = Ok (Some (length h)) (h ++ [matrix n p C]) ∧
  is_table n p C ∧
  (∀ row col, row < n → col < p →
     entry C row col
     = sum_down m (λ k, entry la row k * entry lb k col)%float 0%float) ∧
  (h ++ [matrix n p C]) !! a = Some (matrix n m la) ∧
  (h ++ [matrix n p C]) !! b = Some (matrix m p lb).
Proof.
  intros Ha Hta Hb Htb C. split_and!.
  - apply (Matrix_dot_two h a b _ _ n m p la lb Ha Hb);
      by apply holds_matrix.
  - apply is_table_tabulate.
  - intros row col Hr Hc. unfold C, mmul. by rewrite entry_tabulate.
  - by apply lookup_app_l_Some.
  - by apply lookup_app_l_Some.
Qed.

(** The scenario of the specification: [[1,2],[3,4]] times [[5,6],[7,8]]
    is [[19,22],[43,50]]. *)
Lemma C1_Matrix_dot_witness :
  Matrix_dot [AMat 0; AMat 1]
    [matrix 2 2 [[1; 2]; [3; 4]]%float; matrix 2 2 [[5; 6]; [7; 8]]%float]
  = Ok (Some 2)
      [matrix 2 2 [[1; 2]; [3; 4]]%float; matrix 2 2 [[5; 6]; [7; 8]]%float;
       matrix 2 2 [[19; 22]; [43; 50]]%float].
Proof.
  exact (proj1 (C1_Matrix_dot_product
           [matrix 2 2 [[1; 2]; [3; 4]]%float; matrix 2 2 [[5; 6]; [7; 8]]%float] 0 1 2 2 2
           [[1; 2]; [3; 4]]%float [[5; 6]; [7; 8]]%float
           eq_refl (is_table_2_2 _ _ _ _) eq_refl (is_table_2_2 _ _ _ _))).
Defined.

(** The product is the one of doubles: 94906267 squared is
    9007199515875289, which no double holds, and the cell is the nearest
    one; an infinity meeting a zero yields NaN. *)
Example Matrix_dot_rounds :
  Matrix_dot [AMat 0; AMat 0] [matrix 1 1 [[94906267]]%float]
  = Ok (Some 1) [matrix 1 1 [[94906267]]%float; matrix 1 1 [[9007199515875288]]%float] ∧
  Matrix_dot [AMat 0; AMat 1]
    [matrix 1 2 [[infinity; 1]]%float; matrix 2 1 [[0]; [1]]%float]
  = Ok (Some 2) [matrix 1 2 [[infinity; 1]]%float; matrix 2 1 [[0]; [1]]%float;
                 matrix 1 1 [[nan]]%float].
Proof. split; reflexivity. Qed.

(** ** The constructor on a raw grid, and copy *)

Lemma or0_Num x : or0 (Num x) = Num (num_or0 x).
Proof. done. Qed.

Lemma grid_of_ext n m F G :
  (∀ r c, r < n → c < m → F r c = G r c) → grid_of n m F = grid_of n m G.
Proof.
  intros HFG. unfold grid_of. apply list_eq. intros r.
  rewrite !list_lookup_fmap.
  destruct (decide (r < n)) as [Hr|Hr]; [|by rewrite lookup_seq_ge by lia].
  rewrite lookup_seq_lt by done. simpl. do 2 f_equal.
  apply list_eq. intros c. rewrite !list_lookup_fmap.
  destruct (decide (c < m)) as [Hc|Hc]; [|by rewrite lookup_seq_ge by lia].
  rewrite lookup_seq_lt by done. simpl. f_equal. by apply HFG.
Qed.

Lemma nums_grid_of n m l :
  is_table n m l → nums l = grid_of n m (λ r c, Num (entry l r c)).
Proof. intros Ht. by rewrite <-nums_tabulate, tabulate_entry. Qed.

Lemma row_get_raw l r c n m :
  is_table n m l → r < n → c < m →
  row_get (default [] (raw l !! r)) c = Num (entry l r c).
Proof.
  intros [Hn Hm] Hr Hc. unfold raw, entry. rewrite list_lookup_fmap.
  destruct (lookup_lt_is_Some_2 l r ltac:(lia)) as [row Hrow]. rewrite Hrow. simpl.
  unfold row_get. rewrite list_lookup_fmap.
  destruct (lookup_lt_is_Some_2 row c) as [z Hz].
  { by rewrite (Hm r row Hrow). }
  by rewrite Hz.
Qed.

Lemma is_table_settle n m l : is_table n m l → is_table n m (settle l).
Proof.
  intros [Hn Hm]. split; [by unfold settle; rewrite length_map|].
  intros r row. unfold settle. rewrite list_lookup_fmap.
  destruct (l !! r) as [row'|] eqn:E; [|done]. intros [= <-].
  rewrite length_map. by apply (Hm r).
Qed.

(** Cells that are neither NaN nor a zero of either sign go through
    [|| 0] unchanged. *)
Lemma settle_id (l : table) : Forall (Forall (λ x, num_or0 x = x)) l → settle l = l.
Proof.
  unfold settle. induction 1 as [|row l Hrow _ IH]; [done|].
  simpl. rewrite IH. f_equal.
  induction Hrow as [|x row Hx _ IHrow]; [done|]. simpl. by rewrite Hx, IHrow.
Qed.

Lemma entry_settle n m l r c :
  is_table n m l → r < n → c < m → entry (settle l) r c = num_or0 (entry l r c).
Proof.
  intros [Hn Hm] Hr Hc. unfold entry, settle. rewrite list_lookup_fmap.
  destruct (lookup_lt_is_Some_2 l r ltac:(lia)) as [row Hrow]. rewrite Hrow. simpl.
  rewrite list_lookup_fmap.
  destruct (lookup_lt_is_Some_2 row c) as [z Hz].
  { by rewrite (Hm r row Hrow). }
  by rewrite Hz.
Qed.

(** The constructor on the raw grid of a table: every cell goes through
    [|| 0], so that NaN and -0 come out as 0. *)
Lemma new_Matrix_grid n m l h :
  is_table n m l → 1 ≤ n →
  new_Matrix (CGrid (raw l)) h = Ok (length h) (h ++ [matrix n m (settle l)]).
Proof.
  intros Ht Hn. pose proof Ht as [Hlen Hrows].
  destruct l as [|row0 l']; [simpl in Hlen; lia|].
  assert (length row0 = m) as Hm by (by apply (Hrows 0 row0)).
  unfold new_Matrix. change (raw (row0 :: l')) with (map Num row0 :: raw l').
  cbn beta iota. change (map Num row0 :: raw l') with (raw (row0 :: l')).
  set (g := raw (row0 :: l')).
  assert (g = raw (row0 :: l')) as Hg by done.
  assert (length g = n) as Hgn by (by rewrite Hg; unfold raw; rewrite length_map).
  rewrite length_map, Hgn, Hm.
  set (o := {| rows := Some n; cols := Some m; value := [] |}).
  rewrite (bind_ok _ _ h (length h) (h ++ [o]) eq_refl).
  set (V := λ row col, or0 (row_get (default [] (g !! row)) col)).
  destruct (for_args_pure (length h) o (h ++ [o]) (λ _, True)
              (λ g row, arr_set None g row (Some (map (V row) (seq 0 m))))
              (down n)
              (λ row, new_row (length h) row;;
                      for_down m (λ col, write_cell (length h) row col (V row col))) [])
    as [E _]; [|done|].
  { intros row g' _ _. split; [|done].
    apply (fill_row_st _ _ _ (alloc_lookup h o)). }
  rewrite !st_alloc in E. change (with_value o []) with o in E.
  rewrite <-for_down_list in E.
  rewrite (fill_fold (λ row, Some (map (V row) (seq 0 m)))), drop_nil, app_nil_r in E.
  assert (map (λ row, Some (map (V row) (seq 0 m))) (seq 0 n)
          = nums (settle (row0 :: l'))) as Hval.
  { rewrite (nums_grid_of n m) by (by apply is_table_settle).
    apply (grid_of_ext n m V). intros r c Hr Hc. unfold V.
    rewrite Hg, (row_get_raw _ r c n m) by done.
    by rewrite (entry_settle n m). }
  rewrite Hval in E. run E. done.
Qed.

Lemma copy_mat_st h this m o om n p :
  h !! this = Some o → h !! m = Some om →
  rows om = Some n → cols om = Some p →
  (∀ r, r < n → is_Some (grid_row (value om) r)) →
  (∀ r, r < n → is_Some (grid_row (value o) r)) →
  copy this (AMat m) h
  = Ok () (st this o h (writes (rd (value om)) (cells (down n) (down p)) (value o))).
Proof.
  intros Hthis Hm Hn Hp Hsrc Hdst. unfold copy.
  rewrite bind_ret. run (deref_ok _ _ _ Hm). rewrite Hn, Hp. simpl ext.
  rewrite <-(st_id this o h Hthis) at 1.
  apply (for_down_nest this o h Hthis (read_cell m) (rd (value om))); [done|].
  intros r c g Hr Hc Hpres Hrd.
  destruct (decide (m = this)) as [->|Hne].
  - assert (om = o) as -> by congruence.
    rewrite <-Hrd. apply (read_cell_st this o h Hthis). apply Hpres. by apply Hdst.
  - apply read_cell_other; [done|done|]. by apply Hsrc.
Qed.

Lemma grid_row_nums_is_Some n m l r : is_table n m l → r < n → is_Some (grid_row (nums l) r).
Proof.
  intros [Hn _] Hr. rewrite grid_row_nums.
  destruct (lookup_lt_is_Some_2 l r ltac:(lia)) as [row ->]. done.
Qed.

Lemma grid_row_nums_length n m l r row :
  is_table n m l → grid_row (nums l) r = Some row → length row = m.
Proof.
  intros [_ Hm]. rewrite grid_row_nums. intros Hrow.
  destruct (l !! r) as [row'|] eqn:E; [|done]. injection Hrow as <-.
  rewrite length_map. by apply (Hm r).
Qed.

Lemma grid_row_nums_None n m l r : is_table n m l → n ≤ r → grid_row (nums l) r = None.
Proof.
  intros [Hn _] Hr. rewrite grid_row_nums. by rewrite lookup_ge_None_2 by lia.
Qed.

(** Copying a same-shaped table over a well-formed matrix. *)
Lemma copy_window_same n m lt ls :
  is_table n m lt → is_table n m ls →
  writes (rd (nums ls)) (cells (down n) (down m)) (nums lt) = nums ls.
Proof.
  intros Ht Hs. rewrite (writes_window _ _ _ n m).
  - rewrite drop_ge, app_nil_r by (destruct Ht as [Hn _]; unfold nums; rewrite length_map; lia).
    trans (grid_of n m (λ r c, Num (entry ls r c))); [|by rewrite <-nums_grid_of].
    apply grid_of_ext. intros r c Hr Hc. by apply (rd_nums ls r c n m).
  - apply cells_down_window.
  - intros r Hr. destruct (grid_row_nums_is_Some n m lt r Ht Hr) as [row Hrow].
    exists row. split; [done|]. by rewrite (grid_row_nums_length n m lt r row).
Qed.

(** A source that is not a Matrix is first made one. *)
Lemma copy_coerce this src h :
  copy this src h
  = (m ← match src with
         | AMat m => mret m
         | AUndef => new_Matrix CUndef
         | ANum _ => new_Matrix (CPair None None)
         | AGrid g => new_Matrix (CGrid g)
         end;
     copy this (AMat m)) h.
Proof.
  unfold copy. destruct src; unfold mbind, M_bind;
    match goal with |- match ?m h with _ => _ end = _ => by destruct (m h) end.
Qed.

(** C4 (amended).  [copy] overwrites the receiver cell by cell with a
    same-shaped source, a Matrix (possibly the receiver itself) or a raw
    grid first turned into a temporary Matrix (by the constructor, which
    takes each cell [v] as [v || 0], so unchanged unless it is NaN or
    -0).  It has no shape check: a
    source of another shape that has no more rows than the receiver is
    copied without any error, only the cells inside the source's extents
    being overwritten; a source with more rows than the receiver (and at
    least one column) stops with the runtime's TypeError on the first
    missing row, never with a dedicated shape error. *)
Theorem C4_copy_no_shape_check (h : heap) (this : ref) (n m : nat) (lt : table) :
  h !! this = Some (matrix n m lt) → is_table n m lt →
  (∀ src ls, h !! src = Some (matrix n m ls) → is_table n m ls →
     copy this (AMat src) h = Ok () (<[this := matrix n m ls]> h)) ∧
  (∀ ls, is_table n m ls → 1 ≤ n →
     copy this (AGrid (raw ls)) h
     = Ok () (<[this := matrix n m (settle ls)]> (h ++ [matrix n m (settle ls)])) ∧
     (Forall (Forall (λ x, num_or0 x = x)) ls →
      copy this (AGrid (raw ls)) h
      = Ok () (<[this := matrix n m ls]> (h ++ [matrix n m ls])))) ∧
  (∀ src n' m' ls, h !! src = Some (matrix n' m' ls) → is_table n' m' ls → n' ≤ n →
     ∃ g', copy this (AMat src) h = Ok () (<[this := with_value (matrix n m lt) g']> h) ∧
           (∀ r c, r < n' → c < m' → rd g' r c = Num (entry ls r c)) ∧
           (∀ r c, ¬ (r < n' ∧ c < m') → rd g' r c = rd (nums lt) r c)) ∧
  (∀ src n' m' ls, h !! src = Some (matrix n' m' ls) → is_table n' m' ls →
     n < n' → 1 ≤ m' → copy this (AMat src) h = Throw TypeError).
Proof.
  intros Hthis Ht. split_and!.
  - intros src ls Hsrc Hs.
    rewrite (copy_mat_st h this src _ _ n m Hthis Hsrc eq_refl eq_refl).
    + simpl value. by rewrite (copy_window_same n m lt ls).
    + intros r Hr. by apply (grid_row_nums_is_Some n m).
    + intros r Hr. by apply (grid_row_nums_is_Some n m).
  - intros ls Hs Hn.
    assert (copy this (AGrid (raw ls)) h
            = Ok () (<[this := matrix n m (settle ls)]> (h ++ [matrix n m (settle ls)])))
      as E; [|split; [done|intros Hplain; by rewrite settle_id in E]].
    rewrite copy_coerce.
    run (new_Matrix_grid n m ls h Hs Hn).
    rewrite (copy_mat_st (h ++ [matrix n m (settle ls)]) this (length h)
               (matrix n m lt) (matrix n m (settle ls)) n m).
    + simpl value. by rewrite (copy_window_same n m lt (settle ls))
        by (done || by apply is_table_settle).
    + by apply lookup_app_l_Some.
    + apply alloc_lookup.
    + done.
    + done.
    + intros r Hr. apply (grid_row_nums_is_Some n m); [by apply is_table_settle|done].
    + intros r Hr. by apply (grid_row_nums_is_Some n m).
  - intros src n' m' ls Hsrc Hs Hle.
    exists (writes (rd (nums ls)) (cells (down n') (down m')) (nums lt)).
    assert (∀ r c, (r, c) ∈ cells (down n') (down m') → is_Some (grid_row (nums lt) r)) as Hp.
    { intros r c [Hr _]%cells_down_window. apply (grid_row_nums_is_Some n m); [done|lia]. }
    split_and!.
    + rewrite (copy_mat_st h this src _ _ n' m' Hthis Hsrc eq_refl eq_refl); [done| |].
      * intros r Hr. by apply (grid_row_nums_is_Some n' m').
      * intros r Hr. apply (grid_row_nums_is_Some n m); [done|lia].
    + intros r c Hr Hc. rewrite rd_writes by done.
      rewrite decide_True by (by apply cells_down_window).
      by apply (rd_nums ls r c n' m').
    + intros r c Hout. rewrite rd_writes by done.
      rewrite decide_False by (by rewrite cells_down_window). done.
  - intros src n' m' ls Hsrc Hs Hlt Hm'. unfold copy.
    rewrite bind_ret. run (deref_ok _ _ _ Hsrc). simpl ext.
    destruct n' as [|k]; [lia|]. destruct m' as [|j]; [lia|]. simpl for_down.
    apply bind_throw, bind_throw.
    erewrite bind_ok; cycle 1.
    { apply (read_cell_ok h src _ k j Hsrc). apply (grid_row_nums_is_Some (S k) (S j)); [done|lia]. }
    unfold write_cell. run (deref_ok _ _ _ Hthis).
    change (value (matrix n m lt)) with (nums lt).
    rewrite (grid_row_nums_None n m) by (done || lia). done.
Qed.

Lemma C4_copy_witness :
  copy 0 (AMat 1) [matrix 2 2 [[1; 2]; [3; 4]]%float; matrix 2 2 [[5; 6]; [7; 8]]%float]
  = Ok () [matrix 2 2 [[5; 6]; [7; 8]]%float; matrix 2 2 [[5; 6]; [7; 8]]%float].
Proof.
  exact (proj1 (C4_copy_no_shape_check
                  [matrix 2 2 [[1; 2]; [3; 4]]%float; matrix 2 2 [[5; 6]; [7; 8]]%float] 0 2 2
                  [[1; 2]; [3; 4]]%float eq_refl (is_table_2_2 _ _ _ _))
               1 [[5; 6]; [7; 8]]%float eq_refl (is_table_2_2 _ _ _ _)).
Defined.

(** C4, as stated, fails: a 1-by-1 source differs in shape from a 2-by-2
    receiver, and [copy] succeeds, overwriting the one cell (0, 0). *)
Lemma C4_copy_counterexample :
  (1, 1) ≠ (2, 2) ∧
  copy 0 (AGrid (raw [[9]]%float)) [matrix 2 2 [[1; 2]; [3; 4]]%float]
  = Ok () [matrix 2 2 [[9; 2]; [3; 4]]%float; matrix 1 1 [[9]]%float].
Proof. split; [done|reflexivity]. Qed.

(** ** Chains of Matrix.dot *)

Lemma operand_mono h h' a s : h `prefix_of` h' → operand h a s → operand h' a s.
Proof.
  intros [k ->] (r & l & -> & Hr & Hl). exists r, l. split_and!; [done| |done].
  by apply lookup_app_l_Some.
Qed.

Lemma grid_row_reset_rows n m r : r < n → is_Some (grid_row (reset_rows n m) r).
Proof.
  intros Hr. eexists. apply grid_row_Some. unfold reset_rows.
  by rewrite list_lookup_fmap, lookup_seq_lt.
Qed.

(** The copy of the running result made at the start of every turn but
    the first: whatever [reset] left outside the extents, it reads like the
    result inside them. *)
Lemma dot_chain_copy h r n p lr :
  h !! r = Some (matrix n p lr) → is_table n p lr →
  ∃ oA,
    (o ← deref r; A ← new_Matrix (CPair (rows o) (cols o));
     copy A (AMat r);; mret (AMat A)) h
    = Ok (AMat (length h)) (h ++ [oA]) ∧
    holds oA n p lr.
Proof.
  intros Hr Ht.
  set (o1 := {| rows := Some n; cols := Some p; value := reset_rows n p |}).
  set (g' := writes (rd (nums lr)) (cells (down n) (down p)) (reset_rows n p)).
  exists (with_value o1 g'). split.
  - run (deref_ok _ _ _ Hr). simpl rows. simpl cols.
    run (new_Matrix_pair (Some n) (Some p) h). simpl ext. fold o1.
    erewrite bind_ok; cycle 1.
    { apply (copy_mat_st (h ++ [o1]) (length h) r o1 (matrix n p lr) n p).
      - apply alloc_lookup.
      - by apply lookup_app_l_Some.
      - done.
      - done.
      - intros i Hi. by apply (grid_row_nums_is_Some n p).
      - intros i Hi. by apply grid_row_reset_rows. }
    cbn beta. by rewrite st_alloc.
  - split_and!; [done|done| |].
    + intros i Hi. apply writes_present. by apply grid_row_reset_rows.
    + intros i j Hi Hj. simpl value. unfold g'. rewrite rd_writes.
      * rewrite decide_True by (by apply cells_down_window).
        by apply (rd_nums lr i j n p).
      * intros i' j' [Hi' _]%cells_down_window. by apply grid_row_reset_rows.
Qed.

Lemma first_mismatch_head a a' b ss :
  first_mismatch ((a, b) :: ss) = first_mismatch ((a', b) :: ss).
Proof. by destruct ss. Qed.

Lemma first_mismatch_cons s1 s2 ss :
  first_mismatch (s1 :: s2 :: ss)
  = if decide (s1.2 = s2.1) then first_mismatch (s2 :: ss) else Some (s1.2, s2.1).
Proof. done. Qed.

(** The loop of [Matrix.dot] from its second turn on. *)
Lemma dot_chain_some bs : ∀ ss h r n p lr a,
  h !! r = Some (matrix n p lr) → is_table n p lr →
  Forall2 (operand h) bs ss →
  match first_mismatch ((n, p) :: ss) with
  | Some (x, y) =>
      dot_chain (Some r) (a :: bs) h = Throw (Thrown (dot_message (Some x) (Some y)))
  | None =>
      ∃ r' h' q lr',
        dot_chain (Some r) (a :: bs) h = Ok (Some r') h' ∧ h `prefix_of` h' ∧
        h' !! r' = Some (matrix n q lr') ∧ is_table n q lr' ∧
        q = (default (n, p) (last ss)).2
  end.
Proof.
  induction bs as [|b bs IH]; intros ss h r n p lr a Hr Ht Hops.
  - apply Forall2_nil_inv_l in Hops as ->. simpl.
    exists r, h, p, lr. split_and!; done.
  - apply Forall2_cons_inv_l in Hops as ([p' q] & ss' & (rb & lb & -> & Hb & Htb) & Hops & ->).
    simpl in Hb, Htb.
    destruct (dot_chain_copy h r n p lr Hr Ht) as (oA & EA & HA).
    rewrite first_mismatch_cons. simpl fst. simpl snd.
    change (dot_chain (Some r) (a :: AMat rb :: bs) h)
      with ((A ← (o ← deref r; A ← new_Matrix (CPair (rows o) (cols o));
                  copy A (AMat r);; mret (AMat A));
             r' ← dot_step A (AMat rb);
             dot_chain (Some r') (AMat rb :: bs)) h).
    run EA.
    assert ((h ++ [oA]) !! rb = Some (matrix p' q lb)) as Hb' by (by apply lookup_app_l_Some).
    destruct (decide (p = p')) as [<-|Hne].
    + run (dot_step_spec (h ++ [oA]) (length h) rb oA _ n p q lr lb
             (alloc_lookup h oA) Hb' HA (holds_matrix _ _ _ Htb)).
      set (h2 := (h ++ [oA]) ++ [matrix n q (mmul n p q lr lb)]).
      assert (h `prefix_of` h2) as Hpre.
      { unfold h2. rewrite <-app_assoc. by eexists. }
      specialize (IH ss' h2 (length (h ++ [oA])) n q (mmul n p q lr lb) (AMat rb)
                    (alloc_lookup _ _) (is_table_tabulate _ _ _)).
      rewrite (first_mismatch_head n p q ss') in IH.
      destruct (first_mismatch ((p, q) :: ss')) as [[x y]|].
      * apply IH. eapply Forall2_impl; [exact Hops|]. intros ??. by apply operand_mono.
      * destruct IH as (r' & h' & q' & lr' & E & Hpre' & Hr' & Ht' & Hq).
        { eapply Forall2_impl; [exact Hops|]. intros ??. by apply operand_mono. }
        exists r', h', q', lr'. split_and!; [done|by etrans|done|done|].
        rewrite Hq. clear. destruct ss' as [|s ss' _] using rev_ind; [done|].
        rewrite app_comm_cons, !last_snoc. done.
    + rewrite (bind_throw _ _ _ _
                 (dot_step_mismatch (h ++ [oA]) (length h) rb oA _ (Some p) (Some p')
                    (alloc_lookup h oA) Hb' (proj1 (proj2 HA)) eq_refl
                    ltac:(intros [=]; done))).
      done.
Qed.

Lemma first_mismatch_None ss :
  (∀ i s t, ss !! i = Some s → ss !! S i = Some t → s.2 = t.1) →
  first_mismatch ss = None.
Proof.
  induction ss as [|s1 ss IH]; intros Hall; [done|].
  destruct ss as [|s2 ss]; [done|].
  rewrite first_mismatch_cons.
  rewrite decide_True by (by apply (Hall 0)).
  apply IH. intros i s t Hs Ht. by apply (Hall (S i)).
Qed.

Lemma first_mismatch_Some ss i s t :
  ss !! i = Some s → ss !! S i = Some t → s.2 ≠ t.1 →
  (∀ j s' t', j < i → ss !! j = Some s' → ss !! S j = Some t' → s'.2 = t'.1) →
  first_mismatch ss = Some (s.2, t.1).
Proof.
  revert i. induction ss as [|s1 ss IH]; intros i Hs Ht Hne Hbefore; [done|].
  destruct ss as [|s2 ss]; [done|].
  rewrite first_mismatch_cons.
  destruct i as [|i].
  - injection Hs as ->. injection Ht as ->. by rewrite decide_False.
  - rewrite decide_True by (apply (Hbefore 0); [lia|done|done]).
    apply (IH i); [done|done|done|].
    intros j s' t' Hj Hs' Ht'. apply (Hbefore (S j)); [lia|done|done].
Qed.

(** The whole of [Matrix.dot] on well-formed matrices. *)
Lemma Matrix_dot_spec args ss h :
  Forall2 (operand h) args ss →
  match first_mismatch ss with
  | Some (x, y) =>
      Matrix_dot args h = Throw (Thrown (dot_message (Some x) (Some y)))
  | None =>
      match ss with
      | s0 :: _ :: _ =>
          ∃ r' h' lr',
            Matrix_dot args h = Ok (Some r') h' ∧ h `prefix_of` h' ∧
            h' !! r' = Some (matrix s0.1 (default s0 (last ss)).2 lr') ∧
            is_table s0.1 (default s0 (last ss)).2 lr'
      | _ => Matrix_dot args h = Ok None h
      end
  end.
Proof.
  intros Hops. destruct Hops as [|a0 [n m] args ss (ra & la & -> & Ha & Hta) Hops]; [done|].
  destruct Hops as [|a1 [m' p] args ss (rb & lb & -> & Hb & Htb) Hops]; [done|].
  simpl in Ha, Hta, Hb, Htb.
  rewrite first_mismatch_cons. simpl fst. simpl snd.
  unfold Matrix_dot.
  change (dot_chain None (AMat ra :: AMat rb :: args) h)
    with ((A ← mret (AMat ra); r' ← dot_step A (AMat rb);
           dot_chain (Some r') (AMat rb :: args)) h).
  rewrite bind_ret.
  destruct (decide (m = m')) as [<-|Hne].
  - run (dot_step_spec h ra rb _ _ n m p la lb Ha Hb
           (holds_matrix _ _ _ Hta) (holds_matrix _ _ _ Htb)).
    set (h1 := h ++ [matrix n p (mmul n m p la lb)]).
    assert (h `prefix_of` h1) as Hpre by (by eexists).
    pose proof (dot_chain_some args ss h1 (length h) n p (mmul n m p la lb) (AMat rb)
                  (alloc_lookup _ _) (is_table_tabulate _ _ _)) as Hc.
    rewrite (first_mismatch_head n m p ss) in Hc.
    destruct (first_mismatch ((m, p) :: ss)) as [[x y]|].
    + apply Hc. eapply Forall2_impl; [exact Hops|]. intros ??. by apply operand_mono.
    + destruct Hc as (r' & h' & q & lr' & E & Hpre' & Hr' & Ht' & Hq).
      { eapply Forall2_impl; [exact Hops|]. intros ??. by apply operand_mono. }
      exists r', h', lr'.
      assert (q = (default (n, m) (last ((m, p) :: ss))).2) as <-.
      { rewrite Hq. clear. destruct ss as [|s ss _] using rev_ind; [done|].
        rewrite !app_comm_cons, !last_snoc. done. }
      split_and!; [done|by etrans|done|done].
  - rewrite (bind_throw _ _ _ _
               (dot_step_mismatch h ra rb _ _ (Some m) (Some m') Ha Hb eq_refl eq_refl
                  ltac:(intros [=]; done))).
    done.
Qed.

(** C6.  In a chain [Matrix.dot(A0, A1, ...)] of well-formed matrices, the
    first adjacent pair whose left column count differs from the right row
    count makes the call throw the dot-product message, which spells out
    these two extents; when every adjacent pair agrees the call returns
    without any error. *)
Theorem C6_Matrix_dot_dimension_error (h : heap) (args : list arg) (ss : list (nat * nat)) :
  Forall2 (operand h) args ss →
  ((∀ i s t, ss !! i = Some s → ss !! S i = Some t → s.2 = t.1) →
     ∃ r h', Matrix_dot args h = Ok r h') ∧
  (∀ i s t, ss !! i = Some s → ss !! S i = Some t → s.2 ≠ t.1 →
     (∀ j s' t', j < i → ss !! j = Some s' → ss !! S j = Some t' → s'.2 = t'.1) →
     Matrix_dot args h = Throw (Thrown (dot_message (Some s.2) (Some t.1))) ∧
     dot_message (Some s.2) (Some t.1)
     = "Cannot compute the dot product of matrices of incompatible dimensions. "
       +:+ pretty s.2 +:+ " !== " +:+ pretty t.1).
Proof.
  intros Hops. pose proof (Matrix_dot_spec args ss h Hops) as Hspec. split.
  - intros Hall. rewrite (first_mismatch_None ss Hall) in Hspec.
    destruct ss as [|s0 [|s1 ss]].
    + by exists None, h.
    + by exists None, h.
    + destruct Hspec as (r' & h' & lr' & E & _). by exists (Some r'), h'.
  - intros i s t Hs Ht Hne Hbefore.
    rewrite (first_mismatch_Some ss i s t Hs Ht Hne Hbefore) in Hspec. done.
Qed.

Lemma operand_2_2 a b c d (h : heap) r :
  h !! r = Some (matrix 2 2 [[a; b]; [c; d]]) → operand h (AMat r) (2, 2).
Proof. intros Hr. exists r, [[a; b]; [c; d]]. split_and!; [done|done|apply is_table_2_2]. Qed.

Lemma C6_Matrix_dot_witness :
  ∃ r h',
    Matrix_dot [AMat 0; AMat 1]
      [matrix 2 2 [[1; 2]; [3; 4]]%float; matrix 2 2 [[5; 6]; [7; 8]]%float] = Ok r h'.
Proof.
  apply (C6_Matrix_dot_dimension_error
           [matrix 2 2 [[1; 2]; [3; 4]]%float; matrix 2 2 [[5; 6]; [7; 8]]%float]
           [AMat 0; AMat 1] [(2, 2); (2, 2)]).
  - repeat constructor; by eapply operand_2_2.
  - intros [|[|i]] s t [=] [=]; by subst.
Defined.

Example Matrix_dot_mismatch_scenario :
  Matrix_dot [AMat 0; AMat 1] [matrix 1 2 [[1; 2]]%float; matrix 1 2 [[1; 2]]%float]
  = Throw (Thrown "Cannot compute the dot product of matrices of incompatible dimensions. 2 !== 1").
Proof. reflexivity. Qed.

(** ** Matrix.prototype.dot *)

Lemma dot_check_ok h o a n :
  rows o = Some n → cols o = Some n → same_shape h a n n →
  dot_check o a h = Ok () h.
Proof.
  intros Hn Hm (r & oa & -> & Hr & Hrn & Hrm). unfold dot_check.
  rewrite decide_False by (rewrite Hn, Hm; intros H; by apply H).
  run (prop_dimensions_ok _ _ _ Hr).
  rewrite decide_True; [done|]. unfold dimensions. by rewrite Hn, Hm, Hrn, Hrm.
Qed.

Lemma dot_check_not_square h o a :
  rows o ≠ cols o → dot_check o a h = Throw (Thrown equal_dimensions_message).
Proof. intros Hne. unfold dot_check. by rewrite decide_True. Qed.

Lemma dot_check_bad h o a n :
  rows o = Some n → cols o = Some n → ¬ same_shape h a n n →
  ∃ e, dot_check o a h = Throw e.
Proof.
  intros Hn Hm Hbad. unfold dot_check.
  rewrite decide_False by (rewrite Hn, Hm; intros H; by apply H).
  destruct a as [|z|r|g].
  - by exists TypeError.
  - exists (Thrown equal_dimensions_message).
    unfold prop_dimensions. rewrite bind_ret. by rewrite decide_False.
  - destruct (h !! r) as [oa|] eqn:Hr.
    + run (prop_dimensions_ok _ _ _ Hr).
      destruct (decide _) as [E|]; [|by eexists].
      exfalso. apply Hbad. exists r, oa. injection E as E1 E2.
      split_and!; [done|done|congruence|congruence].
    + exists NoSuchObject. apply bind_throw. unfold prop_dimensions.
      apply bind_throw. unfold deref. by rewrite Hr.
  - exists (Thrown equal_dimensions_message).
    unfold prop_dimensions. rewrite bind_ret. by rewrite decide_False.
Qed.

Lemma same_shape_dec h a n m : same_shape h a n m ∨ ¬ same_shape h a n m.
Proof.
  destruct a as [|z|r|g]; try (right; intros (? & ? & [=] & _); done).
  destruct (h !! r) as [o|] eqn:Hr; [|right; intros (? & ? & [= <-] & ? & _); congruence].
  destruct (decide (rows o = Some n ∧ cols o = Some m)) as [[??]|Hno].
  - left. by exists r, o.
  - right. intros (r' & o' & [= <-] & Hr' & ? & ?). apply Hno.
    rewrite Hr in Hr'. by injection Hr' as <-.
Qed.

Lemma prop_dimensions_heap a h d h1 : prop_dimensions a h = Ok d h1 → h1 = h.
Proof.
  destruct a as [|z|r|g]; simpl.
  - done.
  - by intros [= _ <-].
  - unfold mbind, M_bind, deref. destruct (h !! r); [|done]. by intros [= _ <-].
  - by intros [= _ <-].
Qed.

Lemma dot_check_heap o a h u h1 : dot_check o a h = Ok u h1 → h1 = h.
Proof.
  unfold dot_check. destruct (decide _); [done|].
  destruct (prop_dimensions a h) as [d h2|e] eqn:Ed.
  - rewrite (bind_ok _ _ _ _ _ Ed). apply prop_dimensions_heap in Ed as ->.
    destruct (decide _); [|done]. by intros [= <-].
  - by rewrite (bind_throw _ _ _ _ Ed).
Qed.

Lemma dot_checks_bad h o n args b :
  rows o = Some n → cols o = Some n → b ∈ args → ¬ same_shape h b n n →
  ∃ e, for_args args (dot_check o) h = Throw e.
Proof.
  intros Hn Hm Hin Hbad. induction args as [|a args IH]; [by apply elem_of_nil in Hin|].
  simpl. destruct (dot_check o a h) as [[] h1|e] eqn:E.
  - pose proof (dot_check_heap _ _ _ _ _ E) as ->.
    apply elem_of_cons in Hin as [->|Hin].
    + destruct (dot_check_bad h o a n Hn Hm Hbad) as [e E']. congruence.
    + destruct (IH Hin) as [e IH']. exists e. by run E.
  - exists e. by apply bind_throw.
Qed.

Lemma dot_unfold this args h :
  dot this args h
  = (o ← deref this;
     for_args args (dot_check o);;
     result ← Matrix_dot (AMat this :: args);
     copy this (match result with Some r => AMat r | None => AUndef end);;
     mret this) h.
Proof. done. Qed.

Lemma operand_same_shape h a n m : operand h a (n, m) → same_shape h a n m.
Proof. intros (r & l & -> & Hr & _). by exists r, (matrix n m l). Qed.

(** The mutating [dot] on one or more well-formed operands of the square
    shape of the receiver: it succeeds, leaves a square matrix of the same
    shape in the receiver and only adds new objects to the store. *)
Lemma dot_square_ok h this n lt a args :
  h !! this = Some (matrix n n lt) → is_table n n lt →
  Forall (λ a, operand h a (n, n)) (a :: args) →
  ∃ h' l', dot this (a :: args) h = Ok this h' ∧
           h' !! this = Some (matrix n n l') ∧ is_table n n l' ∧
           length h ≤ length h' ∧
           (∀ r, r ≠ this → r < length h → h' !! r = h !! r).
Proof.
  intros Hthis Ht Hall. rewrite dot_unfold. run (deref_ok _ _ _ Hthis).
  assert (for_args (a :: args) (dot_check (matrix n n lt)) h = Ok () h) as Echeck.
  { clear Hthis Ht. induction Hall as [|b bs Hb _ IH]; [done|]. simpl.
    by run (dot_check_ok h (matrix n n lt) b n eq_refl eq_refl (operand_same_shape _ _ _ _ Hb)). }
  run Echeck.
  pose proof (Matrix_dot_spec (AMat this :: a :: args)
                ((n, n) :: replicate (length (a :: args)) (n, n)) h) as Hspec.
  rewrite first_mismatch_None in Hspec; cycle 1.
  { intros i s t Hs Ht'.
    change ((n, n) :: replicate (length (a :: args)) (n, n))
      with (replicate (S (length (a :: args))) (n, n)) in Hs, Ht'.
    apply lookup_replicate in Hs as [-> _]. apply lookup_replicate in Ht' as [-> _]. done. }
  destruct Hspec as (r' & h' & lr' & E & Hpre & Hr' & Hlr').
  { constructor; [by exists this, lt|].
    clear -Hall. induction Hall; constructor; done. }
  assert ((default (n, n) (last ((n, n) :: replicate (length (a :: args)) (n, n)))).2 = n) as Hq.
  { generalize (length (a :: args)). intros k. rewrite <-replicate_S.
    destruct k as [|k].
    - done.
    - rewrite replicate_S_end, last_snoc. done. }
  simpl fst in Hr', Hlr'. rewrite Hq in Hr', Hlr'.
  run E.
  destruct Hpre as [k ->].
  assert ((h ++ k) !! this = Some (matrix n n lt)) as Hthis' by (by apply lookup_app_l_Some).
  rewrite (bind_ok _ _ _ _ _
             (copy_mat_st (h ++ k) this r' _ _ n n Hthis' Hr' eq_refl eq_refl
                ltac:(intros; by apply (grid_row_nums_is_Some n n))
                ltac:(intros; by apply (grid_row_nums_is_Some n n)))).
  cbn beta. simpl value. rewrite (copy_window_same n n lt lr') by done.
  exists (st this (matrix n n lt) (h ++ k) (nums lr')), lr'. split_and!.
  - done.
  - by rewrite (st_lookup _ _ _ Hthis').
  - done.
  - rewrite st_length, length_app. lia.
  - intros r Hne Hr. rewrite st_lookup_ne by done. by apply lookup_app_l.
Qed.

(** What the mutating [dot] does check.  For every call with at least one
    operand: when the receiver is not square the call throws; when the
    receiver is square and some operand is not a Matrix of the receiver's
    exact shape the call throws; and when every operand is a well-formed
    Matrix of the receiver's square shape the call succeeds and returns the
    receiver. *)
Lemma dot_with_operands_checked
    (h : heap) (this : ref) (n m : nat) (lt : table) (a : arg) (args : list arg) :
  h !! this = Some (matrix n m lt) → is_table n m lt →
  (n ≠ m → dot this (a :: args) h = Throw (Thrown equal_dimensions_message)) ∧
  (n = m → (∃ b, b ∈ a :: args ∧ ¬ same_shape h b n m) →
     ∃ e, dot this (a :: args) h = Throw e) ∧
  (n = m → Forall (λ b, operand h b (n, m)) (a :: args) →
     ∃ h', dot this (a :: args) h = Ok this h') ∧
  ((∃ h', dot this (a :: args) h = Ok this h') →
     n = m ∧ Forall (λ b, same_shape h b n m) (a :: args)).
Proof.
  intros Hthis Ht.
  assert (n ≠ m → dot this (a :: args) h = Throw (Thrown equal_dimensions_message)) as H1.
  { intros Hne. rewrite dot_unfold. run (deref_ok _ _ _ Hthis).
    apply bind_throw. simpl. apply bind_throw, dot_check_not_square.
    simpl. intros [=]. done. }
  assert (n = m → (∃ b, b ∈ a :: args ∧ ¬ same_shape h b n m) →
          ∃ e, dot this (a :: args) h = Throw e) as H2.
  { intros <- (b & Hin & Hbad). rewrite dot_unfold. run (deref_ok _ _ _ Hthis).
    destruct (dot_checks_bad h (matrix n n lt) n (a :: args) b eq_refl eq_refl Hin Hbad)
      as [e E].
    exists e. by apply bind_throw. }
  split_and!; [done|done| |].
  - intros <- Hall.
    destruct (dot_square_ok h this n lt a args Hthis Ht Hall) as (h' & l' & E & _).
    by exists h'.
  - intros [h' E].
    destruct (decide (n = m)) as [<-|Hne]; [|by rewrite H1 in E].
    split; [done|]. apply Forall_forall. intros b Hb.
    destruct (same_shape_dec h b n n) as [|Hbad]; [done|].
    destruct (H2 eq_refl (ex_intro _ b (conj Hb Hbad))) as [e E'].
    by rewrite E' in E.
Qed.

Example dot_with_operands_scenario :
  ∃ h', dot 0 [AMat 1] [matrix 2 2 [[1; 2]; [3; 4]]%float; matrix 2 2 [[5; 6]; [7; 8]]%float]
        = Ok 0 h'.
Proof.
  apply (dot_with_operands_checked
           [matrix 2 2 [[1; 2]; [3; 4]]%float; matrix 2 2 [[5; 6]; [7; 8]]%float] 0 2 2
           [[1; 2]; [3; 4]]%float (AMat 1) [] eq_refl (is_table_2_2 _ _ _ _)).
  - reflexivity.
  - repeat constructor. by eapply operand_2_2.
Qed.

(** The call without operands, on any receiver with at least two rows,
    square or not: nothing is tested, [Matrix.dot] has nothing to multiply
    and returns [undefined], and [copy(undefined)] then copies a default
    2-by-2 matrix over the receiver, so that the top left block of the
    receiver is replaced by the identity pattern. *)
Lemma dot_without_operands h this n m lt :
  h !! this = Some (matrix n m lt) → is_table n m lt → 2 ≤ n →
  ∃ g',
    dot this [] h
    = Ok this (<[this := with_value (matrix n m lt) g']> (h ++ [matrix 2 2 (identity 2 2)])) ∧
    (∀ r c, r < 2 → c < 2 → rd g' r c = Num (entry (identity 2 2) r c)) ∧
    (∀ r c, ¬ (r < 2 ∧ c < 2) → rd g' r c = rd (nums lt) r c).
Proof.
  intros Hthis Ht Hn.
  exists (writes (rd (nums (identity 2 2))) (cells (down 2) (down 2)) (nums lt)).
  assert (∀ r c, (r, c) ∈ cells (down 2) (down 2) → is_Some (grid_row (nums lt) r)) as Hp.
  { intros r c [Hr _]%cells_down_window. apply (grid_row_nums_is_Some n m); [done|lia]. }
  split_and!.
  - assert (copy this AUndef h
            = Ok () (st this (matrix n m lt) (h ++ [matrix 2 2 (identity 2 2)])
                       (writes (rd (nums (identity 2 2))) (cells (down 2) (down 2)) (nums lt))))
      as Ecopy.
    { rewrite copy_coerce.
      change (new_Matrix CUndef) with (new_Matrix (CPair (Some 2) (Some 2))).
      run (new_Matrix_identity_wide 2 2 h (le_n 2)).
      apply (copy_mat_st (h ++ [matrix 2 2 (identity 2 2)]) this (length h)
               (matrix n m lt) (matrix 2 2 (identity 2 2)) 2 2).
      - by apply lookup_app_l_Some.
      - apply alloc_lookup.
      - done.
      - done.
      - intros r Hr. apply (grid_row_nums_is_Some 2 2); [apply is_table_tabulate|done].
      - intros r Hr. apply (grid_row_nums_is_Some n m); [done|lia]. }
    rewrite dot_unfold. run (deref_ok _ _ _ Hthis). simpl for_args. rewrite bind_ret.
    change (Matrix_dot [AMat this]) with (mret (M := M) (@None ref)). rewrite bind_ret.
    cbn iota. by run Ecopy.
  - intros r c Hr Hc. rewrite rd_writes by done.
    rewrite decide_True by (by apply cells_down_window).
    apply (rd_nums _ r c 2 2); [apply is_table_tabulate|done|done].
  - intros r c Hout. rewrite rd_writes by done.
    rewrite decide_False by (by rewrite cells_down_window). done.
Qed.

(** C5 (defect of the code, shown on a 2-by-3 receiver).  The source says
    of the mutating [dot] that a matrix that is not square cannot use it,
    and the specification that every call on a receiver that is not square
    raises an error.  The tests sit inside the loop over the operands, so
    the call without operands tests nothing: on the 2-by-3 receiver
    [[1,2,3],[4,5,6]] it raises nothing and overwrites the left block of
    the receiver with the identity pattern (as it also does to a square
    3-by-3 receiver), while the same receiver with an operand is turned
    down with the equal-dimensions message. *)
Theorem C5_dot_without_operands_unchecked :
  dot 0 [] [matrix 2 3 [[1; 2; 3]; [4; 5; 6]]%float]
  = Ok 0 [matrix 2 3 [[1; 0; 3]; [0; 1; 6]]%float; matrix 2 2 [[1; 0]; [0; 1]]%float]
  ∧ dot 0 [AMat 0] [matrix 2 3 [[1; 2; 3]; [4; 5; 6]]%float]
    = Throw (Thrown equal_dimensions_message)
  ∧ dot 0 [] [matrix 3 3 [[1; 2; 3]; [4; 5; 6]; [7; 8; 9]]%float]
    = Ok 0 [matrix 3 3 [[1; 0; 3]; [0; 1; 6]; [7; 8; 9]]%float;
            matrix 2 2 [[1; 0]; [0; 1]]%float].
Proof. split_and!; reflexivity. Qed.

(** ** pow *)

Lemma dot_one h this A n X l :
  h !! this = Some (matrix n n X) → is_table n n X →
  h !! A = Some (matrix n n l) → is_table n n l →
  dot this [AMat A] h
  = Ok this (<[this := matrix n n (mmul n n n X l)]> (h ++ [matrix n n (mmul n n n X l)])).
Proof.
  intros Hthis HX HA Hl. rewrite dot_unfold. run (deref_ok _ _ _ Hthis).
  simpl for_args.
  erewrite bind_ok; cycle 1.
  { erewrite bind_ok; [done|]. apply (dot_check_ok h _ _ n); [done|done|].
    by exists A, (matrix n n l). }
  cbn beta.
  run (Matrix_dot_two h this A _ _ n n n X l Hthis HA
         (holds_matrix _ _ _ HX) (holds_matrix _ _ _ Hl)).
  set (C := mmul n n n X l).
  assert ((h ++ [matrix n n C]) !! this = Some (matrix n n X)) as Hthis'
    by (by apply lookup_app_l_Some).
  rewrite (bind_ok _ _ _ _ _
             (copy_mat_st (h ++ [matrix n n C]) this (length h) _ _ n n Hthis'
                (alloc_lookup _ _) eq_refl eq_refl
                ltac:(intros; apply (grid_row_nums_is_Some n n); [apply is_table_tabulate|done])
                ltac:(intros; by apply (grid_row_nums_is_Some n n)))).
  cbn beta. simpl value.
  rewrite (copy_window_same n n X C) by (done || apply is_table_tabulate).
  done.
Qed.

Lemma pow_loop k : ∀ i h this A n X l,
  h !! this = Some (matrix n n X) → is_table n n X →
  h !! A = Some (matrix n n l) → is_table n n l → A ≠ this →
  ∃ h', for_up_from i k (λ _, dot this [AMat A];; mret ()) h = Ok () h' ∧
        h' !! this = Some (matrix n n (times n l k X)) ∧
        length h' = length h + k ∧
        (∀ r, r ≠ this → r < length h → h' !! r = h !! r).
Proof.
  induction k as [|k IH]; intros i h this A n X l Hthis HX HA Hl Hne.
  - exists h. split_and!; [done|done|lia|done].
  - simpl for_up_from.
    set (C := mmul n n n X l).
    set (h1 := <[this := matrix n n C]> (h ++ [matrix n n C])).
    assert (this < length h) as Hlt by (by apply lookup_lt_Some in Hthis).
    assert (A < length h) as HltA by (by apply lookup_lt_Some in HA).
    assert (h1 !! this = Some (matrix n n C)) as Hthis1.
    { apply list_lookup_insert_eq. rewrite length_app. lia. }
    assert (∀ r, r ≠ this → r < length h → h1 !! r = h !! r) as Hframe.
    { intros r Hr Hrl. unfold h1. rewrite list_lookup_insert_ne by done.
      by apply lookup_app_l. }
    destruct (IH (S i) h1 this A n C l Hthis1 (is_table_tabulate _ _ _)) as
      (h' & E & Hthis' & Hlen & Hframe'); [by rewrite Hframe|done|done|].
    exists h'. split_and!.
    + erewrite bind_ok; cycle 1.
      { erewrite bind_ok; [done|]. by apply (dot_one h this A n X l). }
      exact E.
    + rewrite Hthis'. unfold times. by rewrite Nat.iter_succ_r.
    + rewrite Hlen. unfold h1. rewrite length_insert, length_app. simpl. lia.
    + intros r Hr Hrl. rewrite Hframe' by (done || unfold h1;
        rewrite length_insert, length_app; lia). by apply Hframe.
Qed.

(** C7.  On a square well-formed matrix, [pow(0)] leaves the identity
    pattern whatever the matrix held, [pow(1)] leaves the values as they
    were, and for e >= 2 [pow(e)] multiplies the receiver by the saved copy
    of its original value e - 1 times, one after the other: each of these
    products is the table [mmul] of double-precision sums that [Matrix.dot]
    accumulates (so the result is the rounded chain [times], not an exact
    power), and each adds exactly one result object to the store, after
    the saved copy.  In every case the call returns the receiver, and no
    other object of the store changes. *)
Theorem C7_pow_linear (h : heap) (this : ref) (n : nat) (l : table) (e : Z) :
  h !! this = Some (matrix n n l) → is_table n n l → (0 ≤ e)%Z →
  ∃ h',
    pow this e h = Ok this h' ∧
    h' !! length h = Some (matrix n n l) ∧
    (∀ r, r ≠ this → r < length h → h' !! r = h !! r) ∧
    (e = 0%Z → h' !! this = Some (matrix n n (identity n n)) ∧ length h' = length h + 1) ∧
    (e = 1%Z → h' !! this = Some (matrix n n l) ∧ length h' = length h + 1) ∧
    ((2 ≤ e)%Z →
       h' !! this = Some (matrix n n (times n l (Z.to_nat (e - 1)) l)) ∧
       length h' = length h + 1 + Z.to_nat (e - 1)).
Proof.
  intros Hthis Hl He.
  assert (this < length h) as Hlt by (by apply lookup_lt_Some in Hthis).
  set (h1 := h ++ [matrix n n l]).
  assert ((A ← new_Matrix (CPair (Some n) (Some n)); copy A (AMat this);; mret A) h
          = Ok (length h) h1) as Esave.
  { run (new_Matrix_identity_wide n n h (le_n n)).
    erewrite bind_ok; cycle 1.
    { apply (copy_mat_st (h ++ [matrix n n (identity n n)]) (length h) this
               (matrix n n (identity n n)) (matrix n n l) n n).
      - apply alloc_lookup.
      - by apply lookup_app_l_Some.
      - done.
      - done.
      - intros. by apply (grid_row_nums_is_Some n n).
      - intros. apply (grid_row_nums_is_Some n n); [apply is_table_tabulate|done]. }
    cbn beta. simpl value.
    rewrite (copy_window_same n n (identity n n) l) by (done || apply is_table_tabulate).
    by rewrite st_alloc. }
  assert (h1 !! this = Some (matrix n n l)) as Hthis1 by (by apply lookup_app_l_Some).
  assert (h1 !! length h = Some (matrix n n l)) as HA1 by apply alloc_lookup.
  assert (length h1 = length h + 1) as Hlen1 by (unfold h1; rewrite length_app; simpl; lia).
  assert (pow this e h
               = ((if decide (e = 0%Z) then reset this
                   else for_up_from 1 (Z.to_nat (e - 1))
                          (λ _, dot this [AMat (length h)];; mret ()));; mret this) h1) as Epow.
  { unfold pow. run (deref_ok _ _ _ Hthis). simpl rows. simpl cols.
    unfold mbind, M_bind in Esave |- *.
    destruct (new_Matrix (CPair (Some n) (Some n)) h) as [A hA|]; [|done].
    destruct (copy A (AMat this) hA) as [[] hA'|]; [|done].
    injection Esave as -> ->. done. }
  rewrite Epow. clear Epow.
  destruct (decide (e = 0%Z)) as [->|Hne0].
  - exists (<[this := matrix n n (identity n n)]> h1).
    rewrite (bind_ok _ _ _ _ _
               (reset_identity_wide h1 this _ n n Hthis1 eq_refl eq_refl
                  ltac:(destruct Hl as [Hn _]; simpl; unfold nums; rewrite length_map; lia)
                  (le_n n))).
    split_and!.
    + done.
    + rewrite list_lookup_insert_ne by lia. done.
    + intros r Hr Hrl. rewrite list_lookup_insert_ne by done. by apply lookup_app_l.
    + intros _. split; [|by rewrite length_insert].
      apply list_lookup_insert_eq. lia.
    + done.
    + lia.
  - destruct (pow_loop (Z.to_nat (e - 1)) 1 h1 this (length h) n l l
                Hthis1 Hl HA1 Hl ltac:(lia)) as (h' & E & Hthis' & Hlen & Hframe).
    exists h'. run E. split_and!.
    + done.
    + rewrite Hframe by lia. done.
    + intros r Hr Hrl. rewrite Hframe by (done || lia). by apply lookup_app_l.
    + done.
    + intros ->. simpl in *. split; [done|lia].
    + intros _. split; [done|lia].
Qed.

Lemma C7_pow_witness :
  ∃ h',
    pow 0 3 [matrix 2 2 [[1; 2]; [3; 4]]%float] = Ok 0 h' ∧
    h' !! 0 = Some (matrix 2 2 [[37; 54]; [81; 118]]%float) ∧
    h' !! 1 = Some (matrix 2 2 [[1; 2]; [3; 4]]%float) ∧
    length h' = 4.
Proof.
  destruct (C7_pow_linear [matrix 2 2 [[1; 2]; [3; 4]]%float] 0 2 [[1; 2]; [3; 4]]%float 3
              eq_refl (is_table_2_2 _ _ _ _) ltac:(lia))
    as (h' & E & Hsaved & _ & _ & _ & H2).
  exists h'. destruct H2 as [Hthis Hlen]; [lia|].
  split_and!; [exact E|exact Hthis|exact Hsaved|exact Hlen].
Defined.

(** The chain rounds as it goes: 3 to the power 34 is 16677181699666569,
    which no double holds, and [[3]].pow(34) ends on the double next to
    it. *)
Example pow_rounds :
  times 1 [[3]]%float 33 [[3]]%float = [[16677181699666568]]%float
  ∧ ∃ h', pow 0 34 [matrix 1 1 [[3]]%float] = Ok 0 h'
          ∧ h' !! 0 = Some (matrix 1 1 [[16677181699666568]]%float).
Proof.
  split; [by vm_compute|].
  eexists. split; [by vm_compute|]. by vm_compute.
Qed.

(** ** Transpose *)

Lemma max_list_const (xs : list nat) m :
  xs ≠ [] → (∀ x, x ∈ xs → x = m) → max_list xs = m.
Proof.
  induction xs as [|x xs IH]; intros Hne Hall; [done|]. simpl.
  rewrite (Hall x) by left.
  destruct xs as [|y xs]; [simpl; lia|].
  rewrite IH; [lia|done|]. intros z Hz. apply Hall. by right.
Qed.

Lemma underscore_zip_nums n m l :
  is_table n m l → 1 ≤ n → underscore_zip (nums l) = nums (transpose n m l).
Proof.
  intros Ht Hn. pose proof Ht as [Hlen Hrows]. unfold underscore_zip.
  assert (max_list (map (λ r : option jsrow, length (default [] r)) (nums l)) = m) as ->.
  { apply max_list_const.
    - destruct l; [simpl in Hlen; lia|done].
    - intros x (r & -> & Hr)%list_elem_of_fmap.
      unfold nums in Hr. apply list_elem_of_fmap in Hr as (row & -> & Hrow). simpl.
      apply list_elem_of_lookup in Hrow as [i Hi]. rewrite length_map. by apply (Hrows i). }
  unfold transpose. rewrite nums_tabulate. unfold grid_of.
  apply map_ext_in. intros i Hi%list_elem_of_In%elem_of_seq. f_equal.
  apply list_eq. intros c. rewrite !list_lookup_fmap.
  destruct (decide (c < n)) as [Hc|Hc].
  - rewrite lookup_seq_lt by done. simpl.
    destruct (lookup_lt_is_Some_2 l c ltac:(lia)) as [row Hrow].
    unfold nums. rewrite list_lookup_fmap, Hrow. simpl. f_equal.
    rewrite <-(rd_nums l c i n m) by (done || lia).
    unfold rd. rewrite grid_row_nums, Hrow. done.
  - rewrite lookup_seq_ge by lia. unfold nums.
    rewrite list_lookup_fmap, lookup_ge_None_2 by lia. done.
Qed.

Lemma T_spec h this n m l :
  h !! this = Some (matrix n m l) → is_table n m l → 1 ≤ n →
  T this h = Ok (length h) (h ++ [matrix m n (transpose n m l)]).
Proof.
  intros Hthis Ht Hn. unfold T. run (deref_ok _ _ _ Hthis). simpl rows. simpl cols.
  run (new_Matrix_pair (Some m) (Some n) h).
  set (o1 := {| rows := Some m; cols := Some n; value := _ |}).
  assert ((h ++ [o1]) !! this = Some (matrix n m l)) as Hthis' by (by apply lookup_app_l_Some).
  run (deref_ok _ _ _ Hthis').
  run (set_value_ok (h ++ [o1]) (length h) o1 (underscore_zip (value (matrix n m l)))
         (alloc_lookup h o1)).
  unfold mret, M_ret. f_equal.
  fold (st (length h) o1 (h ++ [o1]) (underscore_zip (value (matrix n m l)))).
  rewrite st_alloc. simpl value. by rewrite (underscore_zip_nums n m l).
Qed.

Lemma transpose_involutive n m l :
  is_table n m l → transpose m n (transpose n m l) = l.
Proof.
  intros Ht. apply (table_ext n m); [apply is_table_tabulate|done|].
  intros r c Hr Hc. unfold transpose. by rewrite !entry_tabulate.
Qed.

(** C8.  On a well-formed matrix with at least one row and one column,
    the transpose is a new object with rows and columns swapped whose cell
    (j, i) is the source's cell (i, j); the source is unmodified; and the
    transpose of the transpose holds the same shape and values as the
    source. *)
Theorem C8_transpose_round_trip (h : heap) (this : ref) (n m : nat) (l : table) :
  h !! this = Some (matrix n m l) → is_table n m l → 1 ≤ n → 1 ≤ m →
  T this h = Ok (length h) (h ++ [matrix m n (transpose n m l)]) ∧
  (∀ i j, i < n → j < m → entry (transpose n m l) j i = entry l i j) ∧
  (h ++ [matrix m n (transpose n m l)]) !! this = Some (matrix n m l) ∧
  (t ← T this; T t) h
  = Ok (S (length h)) (h ++ [matrix m n (transpose n m l); matrix n m l]).
Proof.
  intros Hthis Ht Hn Hm. split_and!.
  - by apply T_spec.
  - intros i j Hi Hj. unfold transpose. by rewrite entry_tabulate.
  - by apply lookup_app_l_Some.
  - run (T_spec h this n m l Hthis Ht Hn).
    rewrite (T_spec _ (length h) m n (transpose n m l) (alloc_lookup _ _)
               (is_table_tabulate _ _ _) Hm).
    rewrite length_app, <-app_assoc, transpose_involutive by done. simpl.
    f_equal. lia.
Qed.

Lemma C8_transpose_witness :
  T 0 [matrix 2 3 [[1; 2; 3]; [4; 5; 6]]%float]
  = Ok 1 [matrix 2 3 [[1; 2; 3]; [4; 5; 6]]%float; matrix 3 2 [[1; 4]; [2; 5]; [3; 6]]%float].
Proof.
  refine (proj1 (C8_transpose_round_trip [matrix 2 3 [[1; 2; 3]; [4; 5; 6]]%float] 0 2 3
                   [[1; 2; 3]; [4; 5; 6]]%float eq_refl _ ltac:(lia) ltac:(lia))).
  split; [done|]. intros [|[|r]] row [=]; by subst.
Defined.

(** ** add *)

Lemma bind_assoc_ret {A B C} (ma : M A) (mb : A → M B) (f : A → B → C) (k : C → M unit) h :
  (x ← ma; y ← mb x; k (f x y)) h
  = (v ← (x ← ma; y ← mb x; mret (f x y)); k v) h.
Proof.
  unfold mbind, M_bind. destruct (ma h) as [x h1|]; [|done].
  by destruct (mb x h1).
Qed.

Lemma nums_const n m s :
  nums (tabulate n m (λ _ _, s)) = replicate n (Some (replicate m (Num s))).
Proof.
  rewrite nums_tabulate. unfold grid_of.
  rewrite <-(map_const_seq (Some (replicate m (Num s))) 0 n).
  apply map_ext. intros _. by rewrite map_const_seq.
Qed.

(** The loop nest of [add] for an operand that is a Matrix in the store
    (possibly the receiver itself). *)
Lemma add_nest_st h this b n m l lb :
  h !! this = Some (matrix n m l) → is_table n m l →
  h !! b = Some (matrix n m lb) → is_table n m lb →
  for_up n (λ row,
    for_up m (λ col,
      x ← read_cell this row col;
      y ← arg_cell (AMat b) row col;
      write_cell this row col (jsadd x y))) h
  = Ok () (<[this := matrix n m (tabulate n m (λ r c, entry l r c + entry lb r c)%float)]> h).
Proof.
  intros Hthis Hl Hb Hlb.
  set (F := λ r c, jsadd (rd (nums l) r c) (rd (nums lb) r c)).
  set (expr := λ r c, x ← read_cell this r c; y ← arg_cell (AMat b) r c; mret (jsadd x y)).
  trans (for_up n (λ row, for_up m (λ col, v ← expr row col; write_cell this row col v)) h).
  { rewrite !for_up_list. apply for_args_ext. intros r h1 _.
    rewrite !for_up_list. apply for_args_ext. intros c h2 _.
    apply (bind_assoc_ret (read_cell this r c) (λ _, arg_cell (AMat b) r c) jsadd). }
  rewrite <-(st_id this _ h Hthis) at 1.
  rewrite (for_up_nest this _ h Hthis expr F n m).
  - simpl value. rewrite (writes_window F _ _ n m).
    + rewrite drop_ge, app_nil_r
        by (destruct Hl as [Hn _]; unfold nums; rewrite length_map; lia).
      unfold st, with_value, matrix. simpl. do 3 f_equal.
      rewrite nums_tabulate. apply grid_of_ext. intros r c Hr Hc. unfold F.
      by rewrite (rd_nums l r c n m), (rd_nums lb r c n m).
    + apply cells_up_window.
    + intros r Hr. destruct (grid_row_nums_is_Some n m l r Hl Hr) as [row Hrow].
      exists row. split; [done|]. by rewrite (grid_row_nums_length n m l r row).
  - intros r Hr. by apply (grid_row_nums_is_Some n m).
  - intros r c g Hr Hc Hpres Hrd. unfold expr.
    assert (is_Some (grid_row g r)) as Hg.
    { apply Hpres. by apply (grid_row_nums_is_Some n m). }
    run (read_cell_st this _ h Hthis g r c Hg). rewrite Hrd.
    destruct (decide (b = this)) as [->|Hne].
    + assert (nums lb = nums l) as Hnums.
      { rewrite Hthis in Hb. by injection Hb. }
      simpl arg_cell. run (read_cell_st this _ h Hthis g r c Hg).
      unfold F. by rewrite Hrd, Hnums.
    + simpl arg_cell.
      run (read_cell_other this (matrix n m l) h g b (matrix n m lb) r c Hne Hb
             (grid_row_nums_is_Some n m lb r Hlb Hr)).
      done.
Qed.

Lemma add_operand_matrix h this b n m l lb :
  h !! this = Some (matrix n m l) → is_table n m l →
  h !! b = Some (matrix n m lb) → is_table n m lb →
  add_operand this (matrix n m l) (AMat b) h
  = Ok () (<[this := matrix n m (tabulate n m (λ r c, entry l r c + entry lb r c)%float)]> h).
Proof.
  intros Hthis Hl Hb Hlb. unfold add_operand. cbn beta iota.
  erewrite bind_ok; cycle 1.
  { run (prop_dimensions_ok _ _ _ Hb). by rewrite decide_True. }
  cbn beta.
  by apply add_nest_st.
Qed.

Lemma add_operand_scalar h this n m l s :
  h !! this = Some (matrix n m l) → is_table n m l →
  add_operand this (matrix n m l) (ANum s) h
  = Ok () (<[this := matrix n m (tabulate n m (λ r c, entry l r c + num_or0 s)%float)]>
             (h ++ [matrix n m (tabulate n m (λ _ _, num_or0 s))])).
Proof.
  intros Hthis Hl. unfold add_operand. cbn beta iota. simpl rows. simpl cols. simpl ext.
  set (B := tabulate n m (λ _ _, num_or0 s)).
  assert ((m' ← new_Matrix (CPair (Some n) (Some m)); zero m' (Num s);; mret (AMat m')) h
          = Ok (AMat (length h)) (h ++ [matrix n m B])) as E.
  { run (new_Matrix_pair (Some n) (Some m) h).
    set (o1 := {| rows := Some n; cols := Some m; value := _ |}).
    rewrite <-(st_id (length h) o1 (h ++ [o1]) (alloc_lookup h o1)) at 1.
    run (zero_st _ _ _ (alloc_lookup h o1) (value o1) (Num s)).
    simpl ext. rewrite or0_Num. simpl value.
    rewrite drop_ge, app_nil_r by (unfold reset_rows; by rewrite length_map, length_seq).
    rewrite st_alloc. unfold B, matrix, with_value. simpl. by rewrite nums_const. }
  run E.
  assert (is_table n m B) as HB by apply is_table_tabulate.
  rewrite (add_nest_st (h ++ [matrix n m B]) this (length h) n m l B);
    [|by apply lookup_app_l_Some|done|apply alloc_lookup|done].
  do 3 f_equal. apply (table_ext n m); [apply is_table_tabulate|apply is_table_tabulate|].
  intros r c Hr Hc. rewrite !entry_tabulate by done. unfold B. by rewrite entry_tabulate.
Qed.

(** Adding a scalar s to a well-formed n-by-m matrix A materialises a
    uniform n-by-m matrix (a new object of the store) and adds it cell by
    cell.  The uniform matrix is filled by [zero], which stores [s || 0]:
    in the mutating form the receiver keeps its shape and its cell (i, j),
    read back with [get], is A(i, j) + (s || 0); the free-function form
    returns a new matrix, which starts from zeros, with the cells
    (0 + A(i, j)) + (s || 0), and leaves A as it was. *)
Lemma add_scalar_broadcast (h : heap) (this : ref) (n m : nat) (l : table) (s : float) :
  h !! this = Some (matrix n m l) → is_table n m l →
  let B := tabulate n m (λ _ _, num_or0 s) in
  let R := tabulate n m (λ r c, entry l r c + num_or0 s)%float in
  let R' := tabulate n m (λ r c, (0 + entry l r c) + num_or0 s)%float in
  let h' := <[this := matrix n m R]> (h ++ [matrix n m B]) in
  add this [ANum s] h = Ok this h' ∧
  (∀ i j, i < n → j < m →
     get this (Z.of_nat i) (Z.of_nat j) h' = Ok (Num (entry l i j + num_or0 s)) h') ∧
  Matrix_add [AMat this; ANum s] h = Ok (length h) (h ++ [matrix n m R'; matrix n m B]) ∧
  (∀ i j, i < n → j < m →
     get (length h) (Z.of_nat i) (Z.of_nat j) (h ++ [matrix n m R'; matrix n m B])
     = Ok (Num ((0 + entry l i j) + num_or0 s)) (h ++ [matrix n m R'; matrix n m B])).
Proof.
  intros Hthis Hl B R R' h'.
  assert (this < length h) as Hlt by (by apply lookup_lt_Some in Hthis).
  assert (is_table n m R) as HR by apply is_table_tabulate.
  assert (is_table n m R') as HR' by apply is_table_tabulate.
  assert (∀ i j, i < n → j < m → entry R i j = (entry l i j + num_or0 s)%float) as HRe.
  { intros i j Hi Hj. unfold R. by rewrite entry_tabulate. }
  assert (∀ i j, i < n → j < m →
            entry R' i j = ((0 + entry l i j) + num_or0 s)%float) as HRe'.
  { intros i j Hi Hj. unfold R'. by rewrite entry_tabulate. }
  split_and!.
  - unfold add. run (deref_ok _ _ _ Hthis). simpl for_args.
    erewrite bind_ok; cycle 1.
    { erewrite bind_ok; [done|]. by apply add_operand_scalar. }
    done.
  - intros i j Hi Hj. rewrite <-HRe by done.
    apply (get_inside h' this n m R i j); [|done|done|done].
    unfold h'. apply list_lookup_insert_eq. rewrite length_app. lia.
  - unfold Matrix_add.
    assert (list_find (λ a, is_Some (is_matrix a)) [AMat this; ANum s] = Some (0, AMat this))
      as -> by done.
    run (deref_ok _ _ _ Hthis). simpl rows. simpl cols.
    run (new_Matrix_pair (Some n) (Some m) h).
    set (o1 := {| rows := Some n; cols := Some m; value := _ |}).
    rewrite <-(st_id (length h) o1 (h ++ [o1]) (alloc_lookup h o1)) at 1.
    run (zero_st _ _ _ (alloc_lookup h o1) (value o1) Undef).
    simpl ext. simpl or0. simpl value.
    rewrite drop_ge, app_nil_r by (unfold reset_rows; by rewrite length_map, length_seq).
    rewrite st_alloc.
    set (Z0 := tabulate n m (λ _ _, 0%float)).
    assert (with_value o1 (replicate n (Some (replicate m (Num 0)))) = matrix n m Z0) as ->.
    { unfold Z0, matrix, with_value. simpl. by rewrite nums_const. }
    set (h1 := h ++ [matrix n m Z0]).
    assert (h1 !! length h = Some (matrix n m Z0)) as Hres by apply alloc_lookup.
    assert (h1 !! this = Some (matrix n m l)) as Hthis1 by (by apply lookup_app_l_Some).
    assert (is_table n m Z0) as HZ0 by apply is_table_tabulate.
    set (S1 := tabulate n m (λ r c, entry Z0 r c + entry l r c)%float).
    assert (is_table n m S1) as HS1 by apply is_table_tabulate.
    assert (tabulate n m (λ r c, entry S1 r c + num_or0 s)%float = R') as HS1R.
    { apply (table_ext n m); [apply is_table_tabulate|done|]. intros r c Hr Hc.
      unfold S1, Z0, R'. by rewrite !entry_tabulate by done. }
    assert (add (length h) [AMat this; ANum s] h1
            = Ok (length h) (h ++ [matrix n m R'; matrix n m B])) as Eadd.
    { unfold add. run (deref_ok _ _ _ Hres). simpl for_args.
      erewrite bind_ok; cycle 1.
      { erewrite bind_ok; cycle 1.
        { apply (add_operand_matrix h1 (length h) this n m Z0 l); done. }
        fold S1.
        erewrite bind_ok; [done|].
        apply (add_operand_scalar _ (length h) n m S1 s); [|done].
        apply list_lookup_insert_eq. unfold h1. rewrite length_app. simpl. lia. }
      cbn beta. unfold mret, M_ret. f_equal. rewrite HS1R. fold B.
      rewrite insert_app_l by (unfold h1; rewrite length_insert, length_app; simpl; lia).
      rewrite list_insert_insert_eq. unfold h1.
      rewrite insert_app_r_alt by lia.
      replace (length h - length h) with 0 by lia. simpl.
      by rewrite <-app_assoc. }
    by run Eadd.
  - intros i j Hi Hj. rewrite <-HRe' by done.
    apply (get_inside _ (length h) n m R' i j); [|done|done|done].
    rewrite lookup_app_r by lia. by replace (length h - length h) with 0 by lia.
Qed.

Example add_scalar_scenario :
  add 0 [ANum 4] [matrix 2 2 [[1; 2]; [3; 4]]%float]
  = Ok 0 [matrix 2 2 [[5; 6]; [7; 8]]%float; matrix 2 2 [[4; 4]; [4; 4]]%float].
Proof.
  exact (proj1 (add_scalar_broadcast [matrix 2 2 [[1; 2]; [3; 4]]%float] 0 2 2
                  [[1; 2]; [3; 4]]%float 4 eq_refl (is_table_2_2 _ _ _ _))).
Qed.

(** C9 (defect of the code, shown on the scalar NaN).  The specification
    asks that adding a numeric scalar s leaves A(i, j) + s in every cell,
    and the source says of [zero] that the matrix fills itself to the value
    supplied.  The scalar is spread by [zero], whose [value || (value = 0)]
    takes every falsy number for a missing argument: for the scalar NaN the
    uniform matrix holds 0, so [add(NaN)] leaves [[1,2],[3,4]] as it was,
    in both forms, where the sum of a number and NaN is NaN. *)
Theorem C9_add_NaN_adds_zero :
  add 0 [ANum nan] [matrix 2 2 [[1; 2]; [3; 4]]%float]
  = Ok 0 [matrix 2 2 [[1; 2]; [3; 4]]%float; matrix 2 2 [[0; 0]; [0; 0]]%float]
  ∧ Matrix_add [AMat 0; ANum nan] [matrix 2 2 [[1; 2]; [3; 4]]%float]
    = Ok 1 [matrix 2 2 [[1; 2]; [3; 4]]%float; matrix 2 2 [[1; 2]; [3; 4]]%float;
            matrix 2 2 [[0; 0]; [0; 0]]%float]
  ∧ map (map (λ x, x + nan)%float) [[1; 2]; [3; 4]]%float = [[nan; nan]; [nan; nan]]%float.
Proof. split_and!; reflexivity. Qed.

(** ** product *)

Lemma for_args_skip {A} (body : A → M unit) x pre post h :
  (∀ h, body x h = Ok () h) →
  for_args (pre ++ x :: post) body h = for_args (pre ++ post) body h.
Proof.
  intros Hx. revert h. induction pre as [|a pre IH]; intros h; simpl.
  - by rewrite (bind_ok _ _ _ _ _ (Hx h)).
  - unfold mbind, M_bind. destruct (body a h) as [[] h1|e]; [|done]. apply IH.
Qed.

Lemma product_operand_skip this o x h :
  (∀ z, x ≠ ANum z) → (∀ m, x ≠ AMat m) → product_operand this o x h = Ok () h.
Proof. intros Hnum Hmat. destruct x as [|z|m|g]; [done|by destruct (Hnum z)|by destruct (Hmat m)|done]. Qed.

Lemma product_skip this x pre post h :
  (∀ z, x ≠ ANum z) → (∀ m, x ≠ AMat m) →
  product this (pre ++ x :: post) h = product this (pre ++ post) h.
Proof.
  intros Hnum Hmat. unfold product, mbind, M_bind.
  destruct (deref this h) as [o h1|e]; [|done].
  rewrite (for_args_skip (product_operand this o) x pre post h1); [done|].
  intros h2. by apply product_operand_skip.
Qed.

Lemma I_dense that o h :
  h !! that = Some o →
  ∃ rws, I that h = Ok (Some <$> rws)
                      (h ++ [{| rows := rows o; cols := cols o; value := Some <$> rws |}]).
Proof.
  intros Hthat.
  exists (map (λ i, arr_set Undef (replicate (ext (cols o)) (Num 0)) i (Num 1))
            (seq 0 (ext (rows o)))).
  unfold I. run (deref_ok _ _ _ Hthat).
  run (new_Matrix_pair (rows o) (cols o) h).
  run (deref_ok _ _ _ (alloc_lookup h {| rows := rows o; cols := cols o;
                                          value := reset_rows (ext (rows o)) (ext (cols o)) |})).
  unfold mret, M_ret. simpl value. unfold reset_rows.
  by rewrite <-list_fmap_compose.
Qed.

(** C10 (amended).  An operand that is neither a number nor a Matrix (such
    as the raw grid that the [I] property returns) is silently skipped by
    the mutating [product], and by the free-function [product] when it is
    not the first operand: the call behaves exactly as if the operand had
    not been passed, and a call with only such an operand raises nothing
    and leaves the store as it was.  (The first operand of the free-function
    form is not skipped: it seeds the result.) *)
Theorem C10_product_skips_non_matrix
    (h : heap) (this : ref) (x a0 : arg) (pre post : list arg) :
  (∀ z, x ≠ ANum z) → (∀ m, x ≠ AMat m) →
  product this (pre ++ x :: post) h = product this (pre ++ post) h ∧
  Matrix_product (a0 :: pre ++ x :: post) h = Matrix_product (a0 :: pre ++ post) h ∧
  (∀ o, h !! this = Some o → product this [x] h = Ok this h) ∧
  (∀ that o, h !! that = Some o →
     ∃ rws h', I that h = Ok (Some <$> rws) h' ∧
               product this (pre ++ AGrid rws :: post) h' = product this (pre ++ post) h').
Proof.
  intros Hnum Hmat. split_and!.
  - by apply product_skip.
  - unfold Matrix_product, mbind, M_bind.
    destruct (prop_dimensions a0 h) as [d h1|e]; [|done].
    destruct (new_Matrix _ h1) as [result h2|e]; [|done].
    destruct (copy result a0 h2) as [[] h3|e]; [|done].
    by rewrite (product_skip result x pre post h3 Hnum Hmat).
  - intros o Hthis. unfold product. run (deref_ok _ _ _ Hthis). simpl for_args.
    erewrite bind_ok; [done|].
    erewrite bind_ok; [done|]. by apply product_operand_skip.
  - intros that o Hthat. destruct (I_dense that o h Hthat) as [rws E].
    eexists rws, _. split; [exact E|]. by apply product_skip.
Qed.

Lemma C10_product_witness :
  product 0 [AGrid (raw [[1; 0]; [0; 1]]%float)] [matrix 2 2 [[1; 2]; [3; 4]]%float]
  = Ok 0 [matrix 2 2 [[1; 2]; [3; 4]]%float].
Proof.
  refine (proj1 (proj2 (proj2
            (C10_product_skips_non_matrix [matrix 2 2 [[1; 2]; [3; 4]]%float] 0
               (AGrid (raw [[1; 0]; [0; 1]]%float)) AUndef [] [] _ _))) _ eq_refl);
    intros ?; discriminate.
Defined.

(** C10, as stated, fails: passed as the first operand of the free-function
    [product], the 3-by-3 raw identity grid is not skipped; the call tries
    to copy it into a 2-by-2 default matrix and stops with a TypeError. *)
Lemma C10_product_counterexample :
  Matrix_product [AGrid [[Num 1; Num 0; Num 0]; [Num 0; Num 1; Num 0]; [Num 0; Num 0; Num 1]]] []
  = Throw TypeError.
Proof. reflexivity. Qed.

(** * Further properties of the code *)

(** ** Elementwise operations, in general *)

Lemma broadcast_spec h n m s :
  (m' ← new_Matrix (CPair (Some n) (Some m)); zero m' (Num s);; mret (AMat m')) h
  = Ok (AMat (length h)) (h ++ [matrix n m (tabulate n m (λ _ _, num_or0 s))]).
Proof.
  run (new_Matrix_pair (Some n) (Some m) h).
  set (o1 := {| rows := Some n; cols := Some m; value := _ |}).
  rewrite <-(st_id (length h) o1 (h ++ [o1]) (alloc_lookup h o1)) at 1.
  run (zero_st _ _ _ (alloc_lookup h o1) (value o1) (Num s)).
  simpl ext. rewrite or0_Num. simpl value.
  rewrite drop_ge, app_nil_r by (unfold reset_rows; by rewrite length_map, length_seq).
  rewrite st_alloc. unfold matrix, with_value. simpl. by rewrite nums_const.
Qed.

Lemma entry_fold_cells opF n m l ds r c :
  r < n → c < m →
  entry (fold_cells opF n m l ds) r c
  = foldl (λ acc d, opF acc (operand_cell acc d r c)) (entry l r c) ds.
Proof.
  intros Hr Hc. revert l. induction ds as [|d ds IH]; intros l; [done|].
  unfold fold_cells in *. simpl. rewrite IH. f_equal.
  unfold combine. by rewrite entry_tabulate.
Qed.

Lemma is_table_fold_cells opF n m l ds :
  is_table n m l → is_table n m (fold_cells opF n m l ds).
Proof.
  intros Hl. destruct ds as [|d ds _] using rev_ind; [done|].
  unfold fold_cells. rewrite foldl_app. simpl. apply is_table_tabulate.
Qed.

Section elementwise.
Context (op : jsval → jsval → jsval) (opF : float → float → float).
Hypothesis Hop : ∀ x y, op (Num x) (Num y) = Num (opF x y).

(** The nest of cell loops shared by [add], [sub] and [mult], whatever the
    order in which it visits the rows and the columns. *)
Lemma elementwise_nest l1 l2 h this b n m l lb :
  NoDup l1 → NoDup l2 → (∀ r, r ∈ l1 ↔ r < n) → (∀ c, c ∈ l2 ↔ c < m) →
  h !! this = Some (matrix n m l) → is_table n m l →
  h !! b = Some (matrix n m lb) → is_table n m lb →
  for_args l1 (λ row,
    for_args l2 (λ col,
      x ← read_cell this row col;
      y ← arg_cell (AMat b) row col;
      write_cell this row col (op x y))) h
  = Ok () (<[this := matrix n m
               (tabulate n m (λ r c, opF (entry l r c) (entry lb r c)))]> h).
Proof.
  intros Hnd1 Hnd2 Hl1 Hl2 Hthis Hl Hb Hlb.
  set (F := λ r c, op (rd (nums l) r c) (rd (nums lb) r c)).
  set (expr := λ r c, x ← read_cell this r c; y ← arg_cell (AMat b) r c; mret (op x y)).
  trans (for_args l1 (λ row, for_args l2 (λ col, v ← expr row col; write_cell this row col v)) h).
  { apply for_args_ext. intros r h1 _. apply for_args_ext. intros c h2 _.
    apply (bind_assoc_ret (read_cell this r c) (λ _, arg_cell (AMat b) r c) op). }
  rewrite <-(st_id this _ h Hthis) at 1.
  rewrite (nest_spec this _ h Hthis expr F l1 l2); [|done|done| |].
  - simpl value. rewrite (writes_window F _ _ n m).
    + rewrite drop_ge, app_nil_r
        by (destruct Hl as [Hn _]; unfold nums; rewrite length_map; lia).
      unfold st, with_value, matrix. simpl. do 3 f_equal.
      rewrite nums_tabulate. apply grid_of_ext. intros r c Hr Hc. unfold F.
      by rewrite (rd_nums l r c n m), (rd_nums lb r c n m), Hop.
    + intros r c. by rewrite elem_of_cells, Hl1, Hl2.
    + intros r Hr. destruct (grid_row_nums_is_Some n m l r Hl Hr) as [row Hrow].
      exists row. split; [done|]. by rewrite (grid_row_nums_length n m l r row).
  - intros r Hr%Hl1. by apply (grid_row_nums_is_Some n m).
  - intros r c g Hr%Hl1 Hc%Hl2 Hpres Hrd. unfold expr.
    assert (is_Some (grid_row g r)) as Hg.
    { apply Hpres. by apply (grid_row_nums_is_Some n m). }
    run (read_cell_st this _ h Hthis g r c Hg). rewrite Hrd.
    destruct (decide (b = this)) as [->|Hne].
    + assert (nums lb = nums l) as Hnums.
      { rewrite Hthis in Hb. by injection Hb. }
      simpl arg_cell. run (read_cell_st this _ h Hthis g r c Hg).
      unfold F. by rewrite Hrd, Hnums.
    + simpl arg_cell.
      run (read_cell_other this (matrix n m l) h g b (matrix n m lb) r c Hne Hb
             (grid_row_nums_is_Some n m lb r Hlb Hr)).
      done.
Qed.

Context (body : ref → Matrix → arg → M unit).
Hypothesis body_matrix : ∀ h this o b n m l lb,
  rows o = Some n → cols o = Some m →
  h !! this = Some (matrix n m l) → is_table n m l →
  h !! b = Some (matrix n m lb) → is_table n m lb →
  body this o (AMat b) h
  = Ok () (<[this := matrix n m
               (tabulate n m (λ r c, opF (entry l r c) (entry lb r c)))]> h).
Hypothesis body_scalar : ∀ h this o n m l s,
  rows o = Some n → cols o = Some m →
  h !! this = Some (matrix n m l) → is_table n m l →
  body this o (ANum s) h
  = Ok () (<[this := matrix n m (combine opF n m l (ONum s))]>
             (h ++ [matrix n m (tabulate n m (λ _ _, num_or0 s))])).

(** Any list of operands, the receiver possibly among them: the receiver
    ends with all of them combined from left to right, and nothing else
    that was in the store changes. *)
Lemma fold_spec this o n m args : ∀ ds h l,
  rows o = Some n → cols o = Some m →
  h !! this = Some (matrix n m l) → is_table n m l →
  Forall2 (describes h this n m) args ds →
  ∃ h', for_args args (body this o) h = Ok () h' ∧
        h' !! this = Some (matrix n m (fold_cells opF n m l ds)) ∧
        length h ≤ length h' ∧
        (∀ r, r ≠ this → r < length h → h' !! r = h !! r).
Proof.
  induction args as [|a args IH]; intros ds h l Hn Hm Hthis Hl Hds.
  - apply Forall2_nil_inv_l in Hds as ->. exists h. split_and!; done.
  - apply Forall2_cons_inv_l in Hds as (d & ds' & Hd & Hds & ->).
    assert (this < length h) as Hlt by (by apply lookup_lt_Some in Hthis).
    assert (∃ h1, body this o a h = Ok () h1 ∧
                  h1 !! this = Some (matrix n m (combine opF n m l d)) ∧
                  length h ≤ length h1 ∧
                  (∀ r, r ≠ this → r < length h → h1 !! r = h !! r)) as (h1 & E1 & Hthis1 & Hlen1 & Hfr1).
    { destruct d as [lb|s|].
      - destruct Hd as (b & -> & Hne & Hb & Hlb).
        eexists. split; [by apply (body_matrix h this o b n m l lb)|]. split_and!.
        + by apply list_lookup_insert_eq.
        + by rewrite length_insert.
        + intros r Hr _. by apply list_lookup_insert_ne.
      - simpl in Hd. subst a.
        eexists. split; [by apply (body_scalar h this o n m l s)|]. split_and!.
        + apply list_lookup_insert_eq. rewrite length_app. lia.
        + rewrite length_insert, length_app. lia.
        + intros r Hr Hrl. rewrite list_lookup_insert_ne by done. by apply lookup_app_l.
      - simpl in Hd. subst a.
        eexists. split; [by apply (body_matrix h this o this n m l l)|]. split_and!.
        + by apply list_lookup_insert_eq.
        + by rewrite length_insert.
        + intros r Hr _. by apply list_lookup_insert_ne. }
    destruct (IH ds' h1 (combine opF n m l d) Hn Hm Hthis1 (is_table_tabulate _ _ _))
      as (h' & E & Hthis' & Hlen & Hfr).
    { eapply Forall2_impl; [exact Hds|]. intros a' [lb|s|]; [|done|done].
      intros (b & -> & Hne & Hb & Hlb). exists b. split_and!; [done|done| |done].
      rewrite Hfr1; [done|done|by apply lookup_lt_Some in Hb]. }
    exists h'. split_and!.
    + simpl. by run E1.
    + done.
    + lia.
    + intros r Hr Hrl. rewrite Hfr by (done || lia). by apply Hfr1.
Qed.
End elementwise.

Lemma up_nest_lists (f : nat → nat → M unit) n m h :
  for_up n (λ row, for_up m (f row)) h
  = for_args (seq 0 n) (λ row, for_args (seq 0 m) (f row)) h.
Proof.
  rewrite for_up_list. apply for_args_ext. intros r h1 _. apply for_up_list.
Qed.

Lemma down_nest_lists (f : nat → nat → M unit) n m h :
  for_down n (λ row, for_down m (f row)) h
  = for_args (down n) (λ row, for_args (down m) (f row)) h.
Proof.
  rewrite for_down_list. apply for_args_ext. intros r h1 _. apply for_down_list.
Qed.

Lemma elem_of_seq_0 n r : r ∈ seq 0 n ↔ r < n.
Proof. rewrite elem_of_seq. lia. Qed.

(** The three loop bodies on a Matrix operand and on a scalar operand. *)
Ltac operand_matrix Hn Hm Hb :=
  cbn beta iota;
  erewrite bind_ok;
    [|run (prop_dimensions_ok _ _ _ Hb);
      rewrite decide_True; [done|]; unfold dimensions; simpl; by rewrite Hn, Hm];
  cbn beta; rewrite Hn, Hm; simpl ext.

Ltac operand_scalar Hn Hm :=
  cbn beta iota; rewrite Hn, Hm; simpl ext;
  rewrite (bind_ok _ _ _ _ _ (broadcast_spec _ _ _ _)); cbn beta.

Lemma add_operand_matrix_any h this o b n m l lb :
  rows o = Some n → cols o = Some m →
  h !! this = Some (matrix n m l) → is_table n m l →
  h !! b = Some (matrix n m lb) → is_table n m lb →
  add_operand this o (AMat b) h
  = Ok () (<[this := matrix n m
               (tabulate n m (λ r c, PrimFloat.add (entry l r c) (entry lb r c)))]> h).
Proof.
  intros Hn Hm Hthis Hl Hb Hlb. unfold add_operand. operand_matrix Hn Hm Hb.
  rewrite up_nest_lists.
  by apply (elementwise_nest jsadd PrimFloat.add); try apply NoDup_seq; try apply elem_of_seq_0.
Qed.

Lemma add_operand_scalar_any h this o n m l s :
  rows o = Some n → cols o = Some m →
  h !! this = Some (matrix n m l) → is_table n m l →
  add_operand this o (ANum s) h
  = Ok () (<[this := matrix n m (combine PrimFloat.add n m l (ONum s))]>
             (h ++ [matrix n m (tabulate n m (λ _ _, num_or0 s))])).
Proof.
  intros Hn Hm Hthis Hl. unfold add_operand. operand_scalar Hn Hm.
  rewrite up_nest_lists.
  rewrite (elementwise_nest jsadd PrimFloat.add ltac:(done) _ _ _ this (length h) n m l
             (tabulate n m (λ _ _, num_or0 s)));
    try apply NoDup_seq; try apply elem_of_seq_0; try apply is_table_tabulate;
    try apply alloc_lookup; try done; [|by apply lookup_app_l_Some].
  do 3 f_equal. unfold combine. apply (table_ext n m); try apply is_table_tabulate.
  intros r c Hr Hc. by rewrite !entry_tabulate.
Qed.

Lemma sub_operand_matrix_any h this o b n m l lb :
  rows o = Some n → cols o = Some m →
  h !! this = Some (matrix n m l) → is_table n m l →
  h !! b = Some (matrix n m lb) → is_table n m lb →
  sub_operand this o (AMat b) h
  = Ok () (<[this := matrix n m
               (tabulate n m (λ r c, PrimFloat.sub (entry l r c) (entry lb r c)))]> h).
Proof.
  intros Hn Hm Hthis Hl Hb Hlb. unfold sub_operand. operand_matrix Hn Hm Hb.
  rewrite up_nest_lists.
  by apply (elementwise_nest jssub PrimFloat.sub); try apply NoDup_seq; try apply elem_of_seq_0.
Qed.

Lemma sub_operand_scalar_any h this o n m l s :
  rows o = Some n → cols o = Some m →
  h !! this = Some (matrix n m l) → is_table n m l →
  sub_operand this o (ANum s) h
  = Ok () (<[this := matrix n m (combine PrimFloat.sub n m l (ONum s))]>
             (h ++ [matrix n m (tabulate n m (λ _ _, num_or0 s))])).
Proof.
  intros Hn Hm Hthis Hl. unfold sub_operand. operand_scalar Hn Hm.
  rewrite up_nest_lists.
  rewrite (elementwise_nest jssub PrimFloat.sub ltac:(done) _ _ _ this (length h) n m l
             (tabulate n m (λ _ _, num_or0 s)));
    try apply NoDup_seq; try apply elem_of_seq_0; try apply is_table_tabulate;
    try apply alloc_lookup; try done; [|by apply lookup_app_l_Some].
  do 3 f_equal. unfold combine. apply (table_ext n m); try apply is_table_tabulate.
  intros r c Hr Hc. by rewrite !entry_tabulate.
Qed.

Lemma mult_operand_matrix_any h this o b n m l lb :
  rows o = Some n → cols o = Some m →
  h !! this = Some (matrix n m l) → is_table n m l →
  h !! b = Some (matrix n m lb) → is_table n m lb →
  mult_operand this o (AMat b) h
  = Ok () (<[this := matrix n m
               (tabulate n m (λ r c, PrimFloat.mul (entry l r c) (entry lb r c)))]> h).
Proof.
  intros Hn Hm Hthis Hl Hb Hlb. unfold mult_operand. operand_matrix Hn Hm Hb.
  rewrite down_nest_lists.
  by apply (elementwise_nest jsmul PrimFloat.mul); try apply NoDup_down; try apply elem_of_down.
Qed.

Lemma mult_operand_scalar_any h this o n m l s :
  rows o = Some n → cols o = Some m →
  h !! this = Some (matrix n m l) → is_table n m l →
  mult_operand this o (ANum s) h
  = Ok () (<[this := matrix n m (combine PrimFloat.mul n m l (ONum s))]>
             (h ++ [matrix n m (tabulate n m (λ _ _, num_or0 s))])).
Proof.
  intros Hn Hm Hthis Hl. unfold mult_operand. operand_scalar Hn Hm.
  rewrite down_nest_lists.
  rewrite (elementwise_nest jsmul PrimFloat.mul ltac:(done) _ _ _ this (length h) n m l
             (tabulate n m (λ _ _, num_or0 s)));
    try apply NoDup_down; try apply elem_of_down; try apply is_table_tabulate;
    try apply alloc_lookup; try done; [|by apply lookup_app_l_Some].
  do 3 f_equal. unfold combine. apply (table_ext n m); try apply is_table_tabulate.
  intros r c Hr Hc. by rewrite !entry_tabulate.
Qed.

(** ** add, sub and mult on any list of operands *)

Lemma add_spec h this n m l args ds :
  h !! this = Some (matrix n m l) → is_table n m l →
  Forall2 (describes h this n m) args ds →
  ∃ h', add this args h = Ok this h' ∧
        h' !! this = Some (matrix n m (fold_cells PrimFloat.add n m l ds)) ∧
        length h ≤ length h' ∧
        (∀ r, r ≠ this → r < length h → h' !! r = h !! r).
Proof.
  intros Hthis Hl Hds.
  destruct (fold_spec PrimFloat.add add_operand add_operand_matrix_any add_operand_scalar_any
              this (matrix n m l) n m args ds h l eq_refl eq_refl Hthis Hl Hds)
    as (h' & E & H').
  exists h'. split; [|done]. unfold add. run (deref_ok _ _ _ Hthis). by run E.
Qed.

Lemma sub_spec h this n m l args ds :
  h !! this = Some (matrix n m l) → is_table n m l →
  Forall2 (describes h this n m) args ds →
  ∃ h', sub this args h = Ok this h' ∧
        h' !! this = Some (matrix n m (fold_cells PrimFloat.sub n m l ds)) ∧
        length h ≤ length h' ∧
        (∀ r, r ≠ this → r < length h → h' !! r = h !! r).
Proof.
  intros Hthis Hl Hds.
  destruct (fold_spec PrimFloat.sub sub_operand sub_operand_matrix_any sub_operand_scalar_any
              this (matrix n m l) n m args ds h l eq_refl eq_refl Hthis Hl Hds)
    as (h' & E & H').
  exists h'. split; [|done]. unfold sub. run (deref_ok _ _ _ Hthis). by run E.
Qed.

Lemma mult_spec h this n m l args ds :
  h !! this = Some (matrix n m l) → is_table n m l →
  Forall2 (describes h this n m) args ds →
  ∃ h', mult this args h = Ok this h' ∧
        h' !! this = Some (matrix n m (fold_cells PrimFloat.mul n m l ds)) ∧
        length h ≤ length h' ∧
        (∀ r, r ≠ this → r < length h → h' !! r = h !! r).
Proof.
  intros Hthis Hl Hds.
  destruct (fold_spec PrimFloat.mul mult_operand mult_operand_matrix_any mult_operand_scalar_any
              this (matrix n m l) n m args ds h l eq_refl eq_refl Hthis Hl Hds)
    as (h' & E & H').
  exists h'. split; [|done]. unfold mult. run (deref_ok _ _ _ Hthis). by run E.
Qed.

(** X1.  [A.add(x1, ..., xk)], for operands that are numbers, well-formed
    matrices of the receiver's shape, or the receiver itself: the call
    returns the receiver, whose cell (r, c) is then
    ((A(r, c) + x1(r, c)) + ...) + xk(r, c), each sum the sum of two
    doubles, taken in argument order.  A number [s] counts as [s || 0] at
    every cell (so NaN and -0 count as 0), and the receiver as an operand
    counts with the value the cell has at that point.  The receiver keeps
    its shape and no other object that was in the store changes. *)
Theorem X1_add_accumulates (h : heap) (this : ref) (n m : nat) (l : table)
    (args : list arg) (ds : list opd) :
  h !! this = Some (matrix n m l) → is_table n m l →
  Forall2 (describes h this n m) args ds →
  ∃ h' R,
    add this args h = Ok this h' ∧
    h' !! this = Some (matrix n m R) ∧ is_table n m R ∧
    (∀ r c, r < n → c < m →
       entry R r c = foldl (λ acc d, acc + operand_cell acc d r c)%float (entry l r c) ds) ∧
    (∀ r, r ≠ this → r < length h → h' !! r = h !! r).
Proof.
  intros Hthis Hl Hds.
  destruct (add_spec h this n m l args ds Hthis Hl Hds) as (h' & E & Hthis' & _ & Hfr).
  exists h', (fold_cells PrimFloat.add n m l ds). split_and!; [done|done| | |done].
  - by apply is_table_fold_cells.
  - intros r c Hr Hc. by apply entry_fold_cells.
Qed.

Lemma describes_2_2 a b c d (h : heap) this r :
  r ≠ this → h !! r = Some (matrix 2 2 [[a; b]; [c; d]]) →
  describes h this 2 2 (AMat r) (OMat [[a; b]; [c; d]]).
Proof. intros Hne Hr. exists r. split_and!; [done|done|done|apply is_table_2_2]. Qed.

Lemma X1_add_witness :
  ∃ h', add 0 [AMat 1; ANum 4; AMat 0]
          [matrix 2 2 [[1; 2]; [3; 4]]%float; matrix 2 2 [[5; 6]; [7; 8]]%float] = Ok 0 h' ∧
        h' !! 0 = Some (matrix 2 2 [[20; 24]; [28; 32]]%float).
Proof.
  destruct (X1_add_accumulates
              [matrix 2 2 [[1; 2]; [3; 4]]%float; matrix 2 2 [[5; 6]; [7; 8]]%float] 0 2 2
              [[1; 2]; [3; 4]]%float [AMat 1; ANum 4; AMat 0]
              [OMat [[5; 6]; [7; 8]]%float; ONum 4; OSelf]
              eq_refl (is_table_2_2 _ _ _ _))
    as (h' & R & E & Hthis & HR & Hentry & _).
  { repeat constructor. by apply describes_2_2. }
  exists h'. split; [exact E|]. etrans; [exact Hthis|]. do 2 f_equal.
  apply (table_ext 2 2); [done|apply is_table_2_2|].
  intros r c Hr Hc. rewrite Hentry by done.
  destruct r as [|[|r]]; [| |lia]; (destruct c as [|[|c]]; [| |lia]); reflexivity.
Defined.

(** X2.  [A.sub(x1, ..., xk)] subtracts its operands from the receiver one
    after the other, in argument order: cell (r, c) becomes
    ((A(r, c) - x1(r, c)) - ...) - xk(r, c), each difference the difference
    of two doubles.  A number [s] counts as [s || 0] at every cell, and the
    receiver as an operand counts with the value the cell has at that
    point.  The receiver keeps its shape and no other object that was in
    the store changes. *)
Theorem X2_sub_left_to_right (h : heap) (this : ref) (n m : nat) (l : table)
    (args : list arg) (ds : list opd) :
  h !! this = Some (matrix n m l) → is_table n m l →
  Forall2 (describes h this n m) args ds →
  ∃ h' R,
    sub this args h = Ok this h' ∧
    h' !! this = Some (matrix n m R) ∧ is_table n m R ∧
    (∀ r c, r < n → c < m →
       entry R r c = foldl (λ acc d, acc - operand_cell acc d r c)%float (entry l r c) ds) ∧
    (∀ r, r ≠ this → r < length h → h' !! r = h !! r).
Proof.
  intros Hthis Hl Hds.
  destruct (sub_spec h this n m l args ds Hthis Hl Hds) as (h' & E & Hthis' & _ & Hfr).
  exists h', (fold_cells PrimFloat.sub n m l ds). split_and!; [done|done| | |done].
  - by apply is_table_fold_cells.
  - intros r c Hr Hc. by apply entry_fold_cells.
Qed.

Lemma X2_sub_witness :
  ∃ h', sub 0 [AMat 0; AMat 1; ANum 1]
          [matrix 2 2 [[1; 2]; [3; 4]]%float; matrix 2 2 [[5; 6]; [7; 8]]%float] = Ok 0 h' ∧
        h' !! 0 = Some (matrix 2 2 [[-6; -7]; [-8; -9]]%float).
Proof.
  destruct (X2_sub_left_to_right
              [matrix 2 2 [[1; 2]; [3; 4]]%float; matrix 2 2 [[5; 6]; [7; 8]]%float] 0 2 2
              [[1; 2]; [3; 4]]%float [AMat 0; AMat 1; ANum 1]
              [OSelf; OMat [[5; 6]; [7; 8]]%float; ONum 1]
              eq_refl (is_table_2_2 _ _ _ _))
    as (h' & R & E & Hthis & HR & Hentry & _).
  { repeat constructor. by apply describes_2_2. }
  exists h'. split; [exact E|]. etrans; [exact Hthis|]. do 2 f_equal.
  apply (table_ext 2 2); [done|apply is_table_2_2|].
  intros r c Hr Hc. rewrite Hentry by done.
  destruct r as [|[|r]]; [| |lia]; (destruct c as [|[|c]]; [| |lia]); reflexivity.
Defined.

(** X3.  [A.mult(x1, ..., xk)] is the elementwise (Hadamard) product: cell
    (r, c) becomes ((A(r, c) * x1(r, c)) * ...) * xk(r, c), each product
    the product of two doubles, taken in argument order.  A number [s]
    scales every cell by [s || 0], and the receiver as an operand counts
    with the value the cell has at that point.  The receiver keeps its
    shape and no other object that was in the store changes. *)
Theorem X3_mult_hadamard (h : heap) (this : ref) (n m : nat) (l : table)
    (args : list arg) (ds : list opd) :
  h !! this = Some (matrix n m l) → is_table n m l →
  Forall2 (describes h this n m) args ds →
  ∃ h' R,
    mult this args h = Ok this h' ∧
    h' !! this = Some (matrix n m R) ∧ is_table n m R ∧
    (∀ r c, r < n → c < m →
       entry R r c = foldl (λ acc d, acc * operand_cell acc d r c)%float (entry l r c) ds) ∧
    (∀ r, r ≠ this → r < length h → h' !! r = h !! r).
Proof.
  intros Hthis Hl Hds.
  destruct (mult_spec h this n m l args ds Hthis Hl Hds) as (h' & E & Hthis' & _ & Hfr).
  exists h', (fold_cells PrimFloat.mul n m l ds). split_and!; [done|done| | |done].
  - by apply is_table_fold_cells.
  - intros r c Hr Hc. by apply entry_fold_cells.
Qed.

Lemma X3_mult_witness :
  ∃ h', mult 0 [AMat 1; ANum 2; AMat 0]
          [matrix 2 2 [[1; 2]; [3; 4]]%float; matrix 2 2 [[5; 6]; [7; 8]]%float] = Ok 0 h' ∧
        h' !! 0 = Some (matrix 2 2 [[100; 576]; [1764; 4096]]%float).
Proof.
  destruct (X3_mult_hadamard
              [matrix 2 2 [[1; 2]; [3; 4]]%float; matrix 2 2 [[5; 6]; [7; 8]]%float] 0 2 2
              [[1; 2]; [3; 4]]%float [AMat 1; ANum 2; AMat 0]
              [OMat [[5; 6]; [7; 8]]%float; ONum 2; OSelf]
              eq_refl (is_table_2_2 _ _ _ _))
    as (h' & R & E & Hthis & HR & Hentry & _).
  { repeat constructor. by apply describes_2_2. }
  exists h'. split; [exact E|]. etrans; [exact Hthis|]. do 2 f_equal.
  apply (table_ext 2 2); [done|apply is_table_2_2|].
  intros r c Hr Hc. rewrite Hentry by done.
  destruct r as [|[|r]]; [| |lia]; (destruct c as [|[|c]]; [| |lia]); reflexivity.
Defined.

(** ** Operands of another shape *)

Section elementwise_errors.
Context (opF : float → float → float) (body : ref → Matrix → arg → M unit) (msg : string).
Hypothesis body_fold : ∀ this o n m args ds h l,
  rows o = Some n → cols o = Some m →
  h !! this = Some (matrix n m l) → is_table n m l →
  Forall2 (describes h this n m) args ds →
  ∃ h', for_args args (body this o) h = Ok () h' ∧
        h' !! this = Some (matrix n m (fold_cells opF n m l ds)) ∧
        length h ≤ length h' ∧
        (∀ r, r ≠ this → r < length h → h' !! r = h !! r).
Hypothesis body_bad : ∀ h this o a n m,
  rows o = Some n → cols o = Some m → mismatched h a n m →
  body this o a h = Throw (Thrown msg).

Lemma fold_bad this o n m pre bad post ds h l :
  rows o = Some n → cols o = Some m →
  h !! this = Some (matrix n m l) → is_table n m l →
  Forall2 (describes h this n m) pre ds → mismatched h bad n m →
  for_args (pre ++ bad :: post) (body this o) h = Throw (Thrown msg).
Proof.
  intros Hn Hm Hthis Hl Hds Hbad.
  destruct (body_fold this o n m pre ds h l Hn Hm Hthis Hl Hds) as (h1 & E & _ & _ & Hfr).
  rewrite for_args_app. run E. simpl for_args. apply bind_throw.
  apply (body_bad h1 this o bad n m Hn Hm).
  destruct Hbad as [[g ->]|(b & ob & -> & Hb & Hdim)]; [left; by exists g|right].
  exists b, ob. split_and!; [done| |done].
  rewrite Hfr; [done| |by apply lookup_lt_Some in Hb].
  intros ->. rewrite Hthis in Hb. by injection Hb as <-.
Qed.
End elementwise_errors.

Lemma mismatched_dimensions h a n m o :
  rows o = Some n → cols o = Some m → mismatched h a n m →
  ∃ d, prop_dimensions a h = Ok d h ∧ d ≠ Some (dimensions o) ∧
       match a with ANum _ => False | _ => True end.
Proof.
  intros Hn Hm [[g ->]|(b & ob & -> & Hb & Hdim)].
  - by exists None.
  - exists (Some (dimensions ob)). split_and!; [by apply prop_dimensions_ok| |done].
    unfold dimensions at 2. rewrite Hn, Hm. intros E. apply Hdim. congruence.
Qed.

Lemma add_operand_bad h this o a n m :
  rows o = Some n → cols o = Some m → mismatched h a n m →
  add_operand this o a h = Throw (Thrown add_message).
Proof.
  intros Hn Hm Hbad.
  destruct (mismatched_dimensions h a n m o Hn Hm Hbad) as (d & E & Hd & Ha).
  unfold add_operand. apply bind_throw.
  destruct a as [|z|b|g]; [| done | |]; run E; by rewrite decide_False.
Qed.

Lemma sub_operand_bad h this o a n m :
  rows o = Some n → cols o = Some m → mismatched h a n m →
  sub_operand this o a h = Throw (Thrown sub_message).
Proof.
  intros Hn Hm Hbad.
  destruct (mismatched_dimensions h a n m o Hn Hm Hbad) as (d & E & Hd & Ha).
  unfold sub_operand. apply bind_throw.
  destruct a as [|z|b|g]; [| done | |]; run E; by rewrite decide_False.
Qed.

Lemma mult_operand_bad h this o a n m :
  rows o = Some n → cols o = Some m → mismatched h a n m →
  mult_operand this o a h = Throw (Thrown mult_message).
Proof.
  intros Hn Hm Hbad.
  destruct (mismatched_dimensions h a n m o Hn Hm Hbad) as (d & E & Hd & Ha).
  unfold mult_operand. apply bind_throw.
  destruct a as [|z|b|g]; [| done | |]; run E; by rewrite decide_False.
Qed.

(** X4.  [add], [sub] and [mult] check each operand when its turn comes:
    after any number of good operands, the first operand that is a raw array
    or a Matrix of another shape makes the call throw the method's own
    message, whatever follows it in the argument list.  The good operands
    are numbers, well-formed matrices of the receiver's shape, or the
    receiver itself. *)
Theorem X4_elementwise_shape_errors (h : heap) (this : ref) (n m : nat) (l : table)
    (pre post : list arg) (bad : arg) (ds : list opd) :
  h !! this = Some (matrix n m l) → is_table n m l →
  Forall2 (describes h this n m) pre ds → mismatched h bad n m →
  add this (pre ++ bad :: post) h = Throw (Thrown add_message) ∧
  sub this (pre ++ bad :: post) h = Throw (Thrown sub_message) ∧
  mult this (pre ++ bad :: post) h = Throw (Thrown mult_message).
Proof.
  intros Hthis Hl Hds Hbad. split_and!.
  - unfold add. run (deref_ok _ _ _ Hthis). apply bind_throw.
    apply (fold_bad PrimFloat.add add_operand add_message
             (fold_spec PrimFloat.add add_operand add_operand_matrix_any add_operand_scalar_any)
             add_operand_bad this (matrix n m l) n m pre bad post ds h l); done.
  - unfold sub. run (deref_ok _ _ _ Hthis). apply bind_throw.
    apply (fold_bad PrimFloat.sub sub_operand sub_message
             (fold_spec PrimFloat.sub sub_operand sub_operand_matrix_any sub_operand_scalar_any)
             sub_operand_bad this (matrix n m l) n m pre bad post ds h l); done.
  - unfold mult. run (deref_ok _ _ _ Hthis). apply bind_throw.
    apply (fold_bad PrimFloat.mul mult_operand mult_message
             (fold_spec PrimFloat.mul mult_operand mult_operand_matrix_any mult_operand_scalar_any)
             mult_operand_bad this (matrix n m l) n m pre bad post ds h l); done.
Qed.

Lemma X4_elementwise_witness :
  let h := [matrix 2 2 [[1; 2]; [3; 4]]%float; matrix 1 2 [[5; 6]]%float] in
  add 0 [ANum 1; AMat 1; ANum 2] h = Throw (Thrown add_message) ∧
  sub 0 [ANum 1; AMat 1; ANum 2] h = Throw (Thrown sub_message) ∧
  mult 0 [ANum 1; AMat 1; ANum 2] h = Throw (Thrown mult_message).
Proof.
  apply (X4_elementwise_shape_errors
           [matrix 2 2 [[1; 2]; [3; 4]]%float; matrix 1 2 [[5; 6]]%float] 0 2 2
           [[1; 2]; [3; 4]]%float [ANum 1] [ANum 2] (AMat 1) [ONum 1]
           eq_refl (is_table_2_2 _ _ _ _)).
  - repeat constructor.
  - right. exists 1, (matrix 1 2 [[5; 6]]%float). split_and!; [done|done|]. by intros [= ?].
Defined.

(** ** zero *)

Lemma insert_alloc (h : heap) (o o' : Matrix) : <[length h := o']> (h ++ [o]) = h ++ [o'].
Proof.
  rewrite insert_app_r_alt by lia.
  by replace (length h - length h) with 0 by lia.
Qed.

Lemma zero_spec h this o n m fill :
  h !! this = Some o → rows o = Some n → cols o = Some m → length (value o) ≤ n →
  zero this fill h
  = Ok () (<[this := {| rows := Some n; cols := Some m;
                        value := replicate n (Some (replicate m (or0 fill))) |}]> h).
Proof.
  intros Hthis Hn Hm Hlen.
  rewrite <-(st_id this o h Hthis) at 1.
  rewrite (zero_st _ _ _ Hthis (value o) fill). rewrite Hn, Hm. simpl ext.
  rewrite drop_ge, app_nil_r by done.
  unfold st, with_value. by rewrite Hn, Hm.
Qed.

(** X5.  [zero(v)] rebuilds every row of the receiver: whatever an n-by-m
    matrix with at most n rows held, also rows of the wrong length, it is
    afterwards the well-formed n-by-m matrix filled with [v], and with 0
    when [v] is omitted (undefined) or is falsy: 0, -0 or NaN.  Nothing
    else in the store changes. *)
Theorem X5_zero_fills (h : heap) (this : ref) (o : Matrix) (n m : nat) (fill : jsval) :
  h !! this = Some o → rows o = Some n → cols o = Some m → length (value o) ≤ n →
  ∃ z, or0 fill = Num z ∧
       (∀ v, fill = Num v → falsy v = false → z = v) ∧
       (∀ v, fill = Num v → falsy v = true → z = 0%float) ∧
       (fill = Undef → z = 0%float) ∧
       zero this fill h = Ok () (<[this := matrix n m (tabulate n m (λ _ _, z))]> h).
Proof.
  intros Hthis Hn Hm Hlen.
  assert (∃ z, or0 fill = Num z ∧
               (∀ v, fill = Num v → falsy v = false → z = v) ∧
               (∀ v, fill = Num v → falsy v = true → z = 0%float) ∧
               (fill = Undef → z = 0%float)) as (z & Hz & Hnum & Hfalsy & Hdef).
  { destruct fill as [|v]; [by exists 0%float; split_and!|].
    exists (num_or0 v). unfold num_or0. split_and!.
    - done.
    - intros ? [= <-] E. by rewrite E.
    - intros ? [= <-] E. by rewrite E.
    - done. }
  exists z. split_and!; [done|done|done|done|].
  rewrite (zero_spec h this o n m fill Hthis Hn Hm Hlen), Hz.
  unfold matrix. by rewrite nums_const.
Qed.

Lemma X5_zero_witness :
  ∃ h1, new_Matrix (CPair (Some 3) (Some 2)) [] = Ok 0 h1 ∧
        zero 0 (Num 7) h1 = Ok () [matrix 3 2 [[7; 7]; [7; 7]; [7; 7]]%float].
Proof.
  eexists. split; [by rewrite new_Matrix_pair|].
  destruct (X5_zero_fills
              [{| rows := Some 3; cols := Some 2; value := reset_rows 3 2 |}] 0
              {| rows := Some 3; cols := Some 2; value := reset_rows 3 2 |} 3 2 (Num 7)
              eq_refl eq_refl eq_refl) as (z & Hz & Hnum & _ & _ & E).
  { simpl. lia. }
  rewrite (Hnum 7%float eq_refl eq_refl) in E. exact E.
Defined.

(** ** The functions of the Matrix object: add, sub, mult *)

Lemma find_first_matrix h n m args (ds : list (table + float)) :
  Forall2 (stored h n m) args ds → (∃ lb, inl lb ∈ ds) →
  ∃ i b lb, list_find (λ a, is_Some (is_matrix a)) args = Some (i, AMat b) ∧
            h !! b = Some (matrix n m lb).
Proof.
  induction 1 as [|a d args ds Hd Hds IH]; intros [lb Hin].
  - by inversion Hin.
  - destruct d as [lb'|s].
    + destruct Hd as (b & -> & Hb & _). exists 0, b, lb'. split; [|done].
      done.
    + simpl in Hd. subst a.
      assert (inl lb ∈ ds) as Hin' by (by inversion Hin).
      destruct (IH (ex_intro _ lb Hin')) as (i & b & lb' & E & Hb).
      exists (S i), b, lb'. split; [|done].
      simpl. by rewrite E.
Qed.

(** An operand that is in the store when a function of the Matrix object
    is called is another object than the result, which is made afterwards. *)
Lemma stored_describes h h' n m args (ds : list (table + float)) :
  (∀ r, r < length h → h' !! r = h !! r) →
  Forall2 (stored h n m) args ds →
  Forall2 (describes h' (length h) n m) args (opd_of <$> ds).
Proof.
  intros Hfr Hds. apply Forall2_fmap_r.
  eapply Forall2_impl; [exact Hds|]. intros a [lb|s]; [|done].
  intros (b & -> & Hb & Hlb). exists b. split_and!; [done| | |done].
  - intros ->. apply lookup_lt_Some in Hb. lia.
  - rewrite Hfr; [done|by apply lookup_lt_Some in Hb].
Qed.

Lemma foldl_opd_of (op : float → float → float) (ds : list (table + float)) r c z :
  foldl (λ acc d, op acc (operand_cell acc d r c)) z (opd_of <$> ds)
  = foldl (λ acc d, op acc (operand_entry d r c)) z ds.
Proof.
  revert z. induction ds as [|d ds IH]; intros z; [done|].
  simpl. rewrite IH. by destruct d.
Qed.

Lemma Matrix_add_spec h n m args (ds : list (table + float)) :
  Forall2 (stored h n m) args ds → (∃ lb, inl lb ∈ ds) →
  ∃ h', Matrix_add args h = Ok (length h) h' ∧
        h' !! length h
        = Some (matrix n m (fold_cells PrimFloat.add n m (tabulate n m (λ _ _, 0%float))
                              (opd_of <$> ds))) ∧
        (∀ r, r < length h → h' !! r = h !! r).
Proof.
  intros Hds Hex.
  destruct (find_first_matrix h n m args ds Hds Hex) as (i & first & lf & Efind & Hfirst).
  unfold Matrix_add. rewrite Efind. run (deref_ok _ _ _ Hfirst).
  simpl rows. simpl cols. run (new_Matrix_pair (Some n) (Some m) h). simpl ext.
  erewrite bind_ok; cycle 1.
  { apply (zero_spec _ _ _ n m Undef (alloc_lookup h _)); [done|done|].
    simpl. unfold reset_rows. by rewrite length_map, length_seq. }
  cbn beta. rewrite insert_alloc. simpl or0. rewrite <-nums_const.
  change {| rows := Some n; cols := Some m; value := nums ?l |} with (matrix n m l).
  set (Z := tabulate n m (λ _ _, 0%float)).
  destruct (add_spec (h ++ [matrix n m Z]) (length h) n m Z args (opd_of <$> ds))
    as (h' & E & Hres & _ & Hfr).
  { apply alloc_lookup. }
  { apply is_table_tabulate. }
  { apply stored_describes; [|done]. intros r Hr. by apply lookup_app_l. }
  exists h'. split_and!.
  - by run E.
  - done.
  - intros r Hr. rewrite Hfr by (rewrite ?length_app; simpl; lia).
    by apply lookup_app_l.
Qed.

(** X6.  [Matrix.add(x1, ..., xk)], for operands that are numbers or
    well-formed n-by-m matrices of the store, with at least one matrix
    among them: the result is a new object, added at the end of the store,
    whose cell (r, c) is ((0 + x1(r, c)) + ...) + xk(r, c), each sum the sum
    of two doubles, taken in argument order from 0, and a number [s]
    counting as [s || 0]; no operand and no other object that was in the
    store changes. *)
Theorem X6_Matrix_add_new_sum (h : heap) (n m : nat)
    (args : list arg) (ds : list (table + float)) :
  Forall2 (stored h n m) args ds → (∃ lb, inl lb ∈ ds) →
  ∃ h' R,
    Matrix_add args h = Ok (length h) h' ∧
    h' !! length h = Some (matrix n m R) ∧ is_table n m R ∧
    (∀ r c, r < n → c < m →
       entry R r c = foldl (λ acc d, acc + operand_entry d r c)%float 0%float ds) ∧
    (∀ r, r < length h → h' !! r = h !! r).
Proof.
  intros Hds Hex.
  destruct (Matrix_add_spec h n m args ds Hds Hex) as (h' & E & Hres & Hfr).
  eexists h', _. split_and!; [done|exact Hres| | |done].
  - apply is_table_fold_cells, is_table_tabulate.
  - intros r c Hr Hc. rewrite entry_fold_cells by done.
    by rewrite entry_tabulate, foldl_opd_of.
Qed.

Lemma stored_2_2 a b c d (h : heap) r :
  h !! r = Some (matrix 2 2 [[a; b]; [c; d]]) →
  stored h 2 2 (AMat r) (inl [[a; b]; [c; d]]).
Proof. intros Hr. exists r. split_and!; [done|done|apply is_table_2_2]. Qed.

Lemma X6_Matrix_add_witness :
  ∃ h', Matrix_add [ANum 3; AMat 0; AMat 1]
          [matrix 2 2 [[1; 2]; [3; 4]]%float; matrix 2 2 [[5; 6]; [7; 8]]%float] = Ok 2 h' ∧
        h' !! 2 = Some (matrix 2 2 [[9; 11]; [13; 15]]%float).
Proof.
  destruct (X6_Matrix_add_new_sum
              [matrix 2 2 [[1; 2]; [3; 4]]%float; matrix 2 2 [[5; 6]; [7; 8]]%float] 2 2
              [ANum 3; AMat 0; AMat 1]
              [inr 3%float; inl [[1; 2]; [3; 4]]%float; inl [[5; 6]; [7; 8]]%float])
    as (h' & R & E & Hres & HR & Hentry & _).
  { repeat constructor; by apply stored_2_2. }
  { exists [[1; 2]; [3; 4]]%float. apply list_elem_of_In. simpl. tauto. }
  exists h'. split; [exact E|]. etrans; [exact Hres|]. do 2 f_equal.
  apply (table_ext 2 2); [done|apply is_table_2_2|].
  intros r c Hr Hc. rewrite Hentry by done.
  destruct r as [|[|r]]; [| |lia]; (destruct c as [|[|c]]; [| |lia]); reflexivity.
Defined.

Lemma bind_assoc {A B C} (m : M A) (f : A → M B) (g : B → M C) h :
  (x ← m; y ← f x; g y) h = (y ← (x ← m; f x); g y) h.
Proof. unfold mbind, M_bind. by destruct (m h). Qed.

Lemma describes_frame h h' this n m args ds :
  (∀ r, r ≠ this → r < length h → h' !! r = h !! r) →
  Forall2 (describes h this n m) args ds → Forall2 (describes h' this n m) args ds.
Proof.
  intros Hfr Hds. eapply Forall2_impl; [exact Hds|]. intros a [lb|s|]; [|done|done].
  intros (b & -> & Hne & Hb & Hlb). exists b. split_and!; [done|done| |done].
  rewrite Hfr; [done|done|by apply lookup_lt_Some in Hb].
Qed.

Lemma copy_matrix h this b n m lt ls :
  h !! this = Some (matrix n m lt) → is_table n m lt →
  h !! b = Some (matrix n m ls) → is_table n m ls →
  copy this (AMat b) h = Ok () (<[this := matrix n m ls]> h).
Proof.
  intros Hthis Ht Hb Hs.
  rewrite (copy_mat_st h this b (matrix n m lt) (matrix n m ls) n m); try done.
  - simpl value. by rewrite (copy_window_same n m lt ls).
  - intros. by apply (grid_row_nums_is_Some n m).
  - intros. by apply (grid_row_nums_is_Some n m).
Qed.

(** The table a first operand seeds the result of [Matrix.sub] with. *)
Lemma seed_entry n m (d : table + float) r c :
  r < n → c < m →
  entry (match d with inl l0 => l0 | inr s => tabulate n m (λ _ _, num_or0 s) end) r c
  = operand_entry d r c.
Proof. intros Hr Hc. destruct d as [l0|s]; [done|]. by rewrite entry_tabulate. Qed.

Lemma Matrix_sub_spec h n m a0 rest (d0 : table + float) ds :
  n ≤ m →
  Forall2 (stored h n m) (a0 :: rest) (d0 :: ds) →
  (∃ lb, inl lb ∈ d0 :: ds) →
  ∃ h', Matrix_sub (a0 :: rest) h = Ok (length h) h' ∧
        h' !! length h
        = Some (matrix n m
                  (fold_cells PrimFloat.sub n m
                     (match d0 with
                      | inl l0 => l0
                      | inr s => tabulate n m (λ _ _, num_or0 s)
                      end) (opd_of <$> ds))) ∧
        (∀ r, r < length h → h' !! r = h !! r).
Proof.
  intros Hnm Hall Hex.
  destruct (find_first_matrix h n m _ _ Hall Hex) as (i & first & lf & Efind & Hfirst).
  apply Forall2_cons in Hall as [Hd0 Hds].
  set (L0 := match d0 with inl l0 => l0 | inr s => tabulate n m (λ _ _, num_or0 s) end).
  set (h1 := h ++ [matrix n m (identity n m)]).
  assert (∃ h2, (a0' ← match a0 with
                       | ANum val =>
                           m' ← new_Matrix (CPair (Some n) (Some m));
                           zero m' (Num val);; mret (AMat m')
                       | _ => mret a0
                       end; copy (length h) a0') h1 = Ok () h2 ∧
                h2 !! length h = Some (matrix n m L0) ∧ is_table n m L0 ∧
                (∀ r, r < length h → h2 !! r = h !! r)) as (h2 & E2 & Hres2 & HL0 & Hfr2).
  { destruct d0 as [l0|s].
    - destruct Hd0 as (b & -> & Hb & Hl0).
      exists (<[length h := matrix n m l0]> h1). split_and!.
      + rewrite bind_ret.
        apply (copy_matrix h1 (length h) b n m (identity n m) l0);
          [apply alloc_lookup|apply is_table_tabulate|by apply lookup_app_l_Some|done].
      + apply list_lookup_insert_eq. unfold h1. rewrite length_app. simpl. lia.
      + done.
      + intros r Hr. rewrite list_lookup_insert_ne by lia. by apply lookup_app_l.
    - simpl in Hd0. subst a0.
      set (K := tabulate n m (λ _ _, num_or0 s)).
      exists (<[length h := matrix n m K]> (h1 ++ [matrix n m K])). split_and!.
      + run (broadcast_spec h1 n m s).
        apply (copy_matrix (h1 ++ [matrix n m K]) (length h) (length h1) n m (identity n m) K).
        * apply lookup_app_l_Some, alloc_lookup.
        * apply is_table_tabulate.
        * apply alloc_lookup.
        * apply is_table_tabulate.
      + apply list_lookup_insert_eq. unfold h1. rewrite !length_app. simpl. lia.
      + apply is_table_tabulate.
      + intros r Hr. rewrite list_lookup_insert_ne by lia.
        unfold h1. rewrite <-app_assoc. by apply lookup_app_l. }
  destruct (sub_spec h2 (length h) n m L0 rest (opd_of <$> ds) Hres2 HL0)
    as (h' & E & Hres & _ & Hfr).
  { by apply stored_describes. }
  exists h'. split_and!.
  - unfold Matrix_sub. rewrite Efind. run (deref_ok _ _ _ Hfirst).
    simpl rows. simpl cols. run (new_Matrix_identity_wide n m h Hnm).
    fold h1. etrans; [apply bind_assoc|]. run E2. by run E.
  - done.
  - intros r Hr. rewrite Hfr; [by apply Hfr2|lia|].
    apply lookup_lt_Some in Hres2.
    assert (h2 !! r = h !! r) as Hh by (by apply Hfr2).
    destruct (lookup_lt_is_Some_2 h r Hr) as [x Hx]. rewrite Hx in Hh.
    by apply lookup_lt_Some in Hh.
Qed.

(** X7.  [Matrix.sub(x0, x1, ..., xk)] for shapes with at most as many rows
    as columns, operands being numbers or well-formed n-by-m matrices of
    the store, with at least one matrix among them: the result is a new
    object whose cell (r, c) is ((x0(r, c) - x1(r, c)) - ...) - xk(r, c),
    each difference the difference of two doubles, the first operand being
    the value the others are subtracted from and a number [s] counting as
    [s || 0]; nothing that was in the store changes. *)
Theorem X7_Matrix_sub_new_difference (h : heap) (n m : nat) (a0 : arg)
    (rest : list arg) (d0 : table + float) (ds : list (table + float)) :
  n ≤ m →
  Forall2 (stored h n m) (a0 :: rest) (d0 :: ds) →
  (∃ lb, inl lb ∈ d0 :: ds) →
  ∃ h' R,
    Matrix_sub (a0 :: rest) h = Ok (length h) h' ∧
    h' !! length h = Some (matrix n m R) ∧ is_table n m R ∧
    (∀ r c, r < n → c < m →
       entry R r c
       = foldl (λ acc d, acc - operand_entry d r c)%float (operand_entry d0 r c) ds) ∧
    (∀ r, r < length h → h' !! r = h !! r).
Proof.
  intros Hnm Hall Hex.
  destruct (Matrix_sub_spec h n m a0 rest d0 ds Hnm Hall Hex) as (h' & E & Hres & Hfr).
  eexists h', _. split_and!; [done|exact Hres| | |done].
  - apply is_table_fold_cells. apply Forall2_cons in Hall as [Hd0 _].
    destruct d0 as [l0|s]; [|apply is_table_tabulate].
    by destruct Hd0 as (b & _ & _ & Hl0).
  - intros r c Hr Hc. rewrite entry_fold_cells by done.
    by rewrite seed_entry, foldl_opd_of.
Qed.

Lemma X7_Matrix_sub_witness :
  ∃ h', Matrix_sub [ANum 10; AMat 0; ANum 1]
          [matrix 2 2 [[1; 2]; [3; 4]]%float] = Ok 1 h' ∧
        h' !! 1 = Some (matrix 2 2 [[8; 7]; [6; 5]]%float).
Proof.
  destruct (X7_Matrix_sub_new_difference [matrix 2 2 [[1; 2]; [3; 4]]%float] 2 2
              (ANum 10) [AMat 0; ANum 1] (inr 10%float)
              [inl [[1; 2]; [3; 4]]%float; inr 1%float])
    as (h' & R & E & Hres & HR & Hentry & _).
  { lia. }
  { repeat constructor; by apply stored_2_2. }
  { exists [[1; 2]; [3; 4]]%float. apply list_elem_of_In. simpl. tauto. }
  exists h'. split; [exact E|]. etrans; [exact Hres|]. do 2 f_equal.
  apply (table_ext 2 2); [done|apply is_table_2_2|].
  intros r c Hr Hc. rewrite Hentry by done.
  destruct r as [|[|r]]; [| |lia]; (destruct c as [|[|c]]; [| |lia]); reflexivity.
Defined.

Lemma Matrix_mult_spec h n m b rest l0 (ds : list (table + float)) :
  Forall2 (stored h n m) (AMat b :: rest) (inl l0 :: ds) →
  ∃ h', Matrix_mult (AMat b :: rest) h = Ok (length h) h' ∧
        h' !! length h
        = Some (matrix n m (fold_cells PrimFloat.mul n m (tabulate n m (λ _ _, 1%float))
                              (opd_of <$> inl l0 :: ds))) ∧
        (∀ r, r < length h → h' !! r = h !! r).
Proof.
  intros Hall.
  assert (h !! b = Some (matrix n m l0)) as Hb.
  { apply Forall2_cons in Hall as [(b' & [= <-] & Hb & _) _]. done. }
  unfold Matrix_mult. run (prop_dimensions_ok h b _ Hb).
  unfold dimensions. simpl rows. simpl cols. cbn iota.
  run (new_Matrix_pair (Some n) (Some m) h). simpl ext.
  erewrite bind_ok; cycle 1.
  { apply (zero_spec _ _ _ n m (Num 1) (alloc_lookup h _)); [done|done|].
    simpl. unfold reset_rows. by rewrite length_map, length_seq. }
  cbn beta. rewrite insert_alloc. change (or0 (Num 1)) with (Num 1). rewrite <-nums_const.
  change {| rows := Some n; cols := Some m; value := nums ?l |} with (matrix n m l).
  set (K := tabulate n m (λ _ _, 1%float)).
  destruct (mult_spec (h ++ [matrix n m K]) (length h) n m K (AMat b :: rest)
              (opd_of <$> inl l0 :: ds))
    as (h' & E & Hres & _ & Hfr).
  { apply alloc_lookup. }
  { apply is_table_tabulate. }
  { apply stored_describes; [|done]. intros r Hr. by apply lookup_app_l. }
  exists h'. split_and!.
  - by run E.
  - done.
  - intros r Hr. rewrite Hfr by (rewrite ?length_app; simpl; lia).
    by apply lookup_app_l.
Qed.

(** X8.  [Matrix.mult(A, x1, ..., xk)], the first operand being a
    well-formed n-by-m matrix of the store and the others numbers or
    matrices of its shape: the result is a new n-by-m object, for every
    shape, whose cell (r, c) is (((1 * A(r, c)) * x1(r, c)) * ...) * xk(r, c),
    each product the product of two doubles, taken in argument order from
    1, and a number [s] counting as [s || 0]; nothing that was in the store
    changes. *)
Theorem X8_Matrix_mult_new_hadamard (h : heap) (n m : nat) (b : ref)
    (rest : list arg) (l0 : table) (ds : list (table + float)) :
  Forall2 (stored h n m) (AMat b :: rest) (inl l0 :: ds) →
  ∃ h' R,
    Matrix_mult (AMat b :: rest) h = Ok (length h) h' ∧
    h' !! length h = Some (matrix n m R) ∧ is_table n m R ∧
    (∀ r c, r < n → c < m →
       entry R r c
       = foldl (λ acc d, acc * operand_entry d r c)%float 1%float (inl l0 :: ds)) ∧
    (∀ r, r < length h → h' !! r = h !! r).
Proof.
  intros Hall.
  destruct (Matrix_mult_spec h n m b rest l0 ds Hall) as (h' & E & Hres & Hfr).
  eexists h', _. split_and!; [done|exact Hres| | |done].
  - apply is_table_fold_cells, is_table_tabulate.
  - intros r c Hr Hc. rewrite entry_fold_cells by done.
    by rewrite entry_tabulate, foldl_opd_of.
Qed.

Lemma X8_Matrix_mult_witness :
  ∃ h', Matrix_mult [AMat 0; AMat 0; ANum 2]
          [matrix 3 2 [[1; 2]; [3; 4]; [5; 6]]%float] = Ok 1 h' ∧
        h' !! 1 = Some (matrix 3 2 [[2; 8]; [18; 32]; [50; 72]]%float).
Proof.
  assert (is_table 3 2 [[1; 2]; [3; 4]; [5; 6]]%float) as Ht.
  { split; [done|]. intros [|[|[|r]]] row [= <-]; done. }
  destruct (X8_Matrix_mult_new_hadamard [matrix 3 2 [[1; 2]; [3; 4]; [5; 6]]%float] 3 2 0
              [AMat 0; ANum 2] [[1; 2]; [3; 4]; [5; 6]]%float
              [inl [[1; 2]; [3; 4]; [5; 6]]%float; inr 2%float])
    as (h' & R & E & Hres & HR & Hentry & _).
  { repeat constructor; exists 0; split_and!; done. }
  exists h'. split; [exact E|]. etrans; [exact Hres|]. do 2 f_equal.
  apply (table_ext 3 2); [done|split; [done|intros [|[|[|r]]] row [= <-]; done]|].
  intros r c Hr Hc. rewrite Hentry by done.
  destruct r as [|[|[|r]]]; [| | |lia]; (destruct c as [|[|c]]; [| |lia]); reflexivity.
Defined.

(** X9.  [Matrix.add] and [Matrix.sub] take the shape of their result from
    the first Matrix among their arguments: called without any Matrix
    (numbers, raw arrays, undefined, or no argument at all) they fail with a
    TypeError. *)
Theorem X9_static_needs_a_matrix (args : list arg) (h : heap) :
  Forall (λ a, is_matrix a = None) args →
  Matrix_add args h = Throw TypeError ∧ Matrix_sub args h = Throw TypeError.
Proof.
  intros Hall.
  assert (list_find (λ a, is_Some (is_matrix a)) args = None) as E.
  { apply list_find_None. eapply Forall_impl; [exact Hall|].
    intros a Ha [x Hx]. by rewrite Ha in Hx. }
  unfold Matrix_add, Matrix_sub. by rewrite E.
Qed.

Lemma X9_static_witness :
  Matrix_add [ANum 1; AGrid [[Num 1]]] [matrix 1 1 [[1]]%float] = Throw TypeError ∧
  Matrix_sub [ANum 1; AGrid [[Num 1]]] [matrix 1 1 [[1]]%float] = Throw TypeError.
Proof. apply X9_static_needs_a_matrix. by repeat constructor. Defined.

(** ** Adding and subtracting the same operands *)

(** X10.  [A.add(x1, ..., xk)] followed by [A.sub(x1, ..., xk)] with the
    same operands leaves in every cell the double
    ((((a + x1) + ...) + xk) - x1) - ... - xk, every sum and difference
    rounded as it is taken, which need not be the [a] the cell started
    with: after [add(2^53)] and [sub(2^53)] a cell that held 1 holds 0 and
    a cell that held 3 holds 4.  The receiver keeps its shape and no other
    object that was in the store before the two calls has changed. *)
Theorem X10_add_then_sub_in_doubles (h : heap) (this : ref) (n m : nat) (l : table)
    (args : list arg) (ds : list opd) :
  h !! this = Some (matrix n m l) → is_table n m l →
  Forall2 (describes h this n m) args ds →
  ∃ h1 h2 R,
    add this args h = Ok this h1 ∧ sub this args h1 = Ok this h2 ∧
    h2 !! this = Some (matrix n m R) ∧ is_table n m R ∧
    (∀ r c, r < n → c < m →
       entry R r c
       = foldl (λ acc d, acc - operand_cell acc d r c)%float
           (foldl (λ acc d, acc + operand_cell acc d r c)%float (entry l r c) ds) ds) ∧
    (∀ r, r ≠ this → r < length h → h2 !! r = h !! r).
Proof.
  intros Hthis Hl Hds.
  destruct (add_spec h this n m l args ds Hthis Hl Hds) as (h1 & E1 & Hthis1 & Hlen1 & Hfr1).
  destruct (sub_spec h1 this n m (fold_cells PrimFloat.add n m l ds) args ds Hthis1)
    as (h2 & E2 & Hthis2 & Hlen2 & Hfr2).
  { by apply is_table_fold_cells. }
  { by apply (describes_frame h). }
  eexists h1, h2, _. split_and!; [done|done|exact Hthis2| | |].
  - by do 2 apply is_table_fold_cells.
  - intros r c Hr Hc. by rewrite !entry_fold_cells.
  - intros r Hr Hrl. rewrite Hfr2 by (done || lia). by apply Hfr1.
Qed.

Lemma X10_add_then_sub_witness :
  ∃ h1 h2,
    add 0 [ANum 9007199254740992] [matrix 2 2 [[1; 2]; [3; 4]]%float] = Ok 0 h1 ∧
    sub 0 [ANum 9007199254740992] h1 = Ok 0 h2 ∧
    h2 !! 0 = Some (matrix 2 2 [[0; 2]; [4; 4]]%float).
Proof.
  destruct (X10_add_then_sub_in_doubles [matrix 2 2 [[1; 2]; [3; 4]]%float] 0 2 2
              [[1; 2]; [3; 4]]%float [ANum 9007199254740992] [ONum 9007199254740992]
              eq_refl (is_table_2_2 _ _ _ _))
    as (h1 & h2 & R & E1 & E2 & Hthis & HR & Hentry & _).
  { by repeat constructor. }
  exists h1, h2. split; [exact E1|]. split; [exact E2|].
  etrans; [exact Hthis|]. do 2 f_equal.
  apply (table_ext 2 2); [done|apply is_table_2_2|].
  intros r c Hr Hc. rewrite Hentry by done.
  destruct r as [|[|r]]; [| |lia]; (destruct c as [|[|c]]; [| |lia]); reflexivity.
Defined.

(** ** set and get *)

Lemma grid_ext_rd n m (g : jsgrid) (F : nat → nat → jsval) :
  length g = n →
  (∀ r, r < n → ∃ row, grid_row g r = Some row ∧ length row = m) →
  (∀ r c, r < n → c < m → rd g r c = F r c) →
  g = grid_of n m F.
Proof.
  intros Hlen Hrows Hrd. apply list_eq. intros r. unfold grid_of.
  rewrite list_lookup_fmap.
  destruct (decide (r < n)) as [Hr|Hr].
  - rewrite lookup_seq_lt by done. simpl.
    destruct (Hrows r Hr) as (row & Hrow & Hm).
    rewrite (proj1 (grid_row_Some g r row) Hrow). do 2 f_equal.
    apply row_ext; [by rewrite length_map, length_seq|].
    intros c Hc. specialize (Hrd r c Hr ltac:(lia)). unfold rd in Hrd. rewrite Hrow in Hrd.
    rewrite Hrd. unfold row_get. rewrite list_lookup_fmap, lookup_seq_lt by lia. done.
  - rewrite lookup_seq_ge by lia. apply lookup_ge_None_2. lia.
Qed.

Lemma grid_write_nums n m l x y v :
  is_table n m l → x < n → y < m →
  grid_write (nums l) x y (Num v)
  = nums (tabulate n m (λ r c, if decide (r = x ∧ c = y) then v else entry l r c)).
Proof.
  intros Ht Hx Hy. rewrite nums_tabulate. apply grid_ext_rd.
  - rewrite grid_write_length. destruct Ht as [Hn _]. unfold nums. by rewrite length_map.
  - intros r Hr. rewrite grid_row_write.
    destruct (grid_row_nums_is_Some n m l r Ht Hr) as [row Hrow].
    pose proof (grid_row_nums_length n m l r row Ht Hrow) as Hlen.
    rewrite Hrow. simpl. eexists. split; [done|].
    destruct (decide (r = x)); [|done]. rewrite arr_set_length. lia.
  - intros r c Hr Hc. rewrite rd_write by (by apply (grid_row_nums_is_Some n m)).
    rewrite (rd_nums l r c n m) by done. by destruct (decide _).
Qed.

Lemma set_inside h this n m l x y v :
  h !! this = Some (matrix n m l) → is_table n m l → x < n → y < m →
  set this x y (Num v) h
  = Ok () (<[this := matrix n m
               (tabulate n m (λ r c, if decide (r = x ∧ c = y) then v else entry l r c))]> h).
Proof.
  intros Hthis Ht Hx Hy. unfold set.
  rewrite <-(st_id this _ h Hthis) at 1.
  rewrite (write_cell_st this _ h Hthis) by (by apply (grid_row_nums_is_Some n m)).
  simpl value. rewrite (grid_write_nums n m) by done. done.
Qed.

(** X11.  [set(x, y)(v)] inside the extents of a well-formed matrix changes
    exactly one cell: [get(x, y)] then returns [v], [get] at every other
    position returns what it returned before, the matrix stays well formed
    and no other object changes. *)
Theorem X11_set_then_get (h : heap) (this : ref) (n m : nat) (l : table)
    (x y : nat) (v : float) :
  h !! this = Some (matrix n m l) → is_table n m l → x < n → y < m →
  ∃ h' l',
    set this x y (Num v) h = Ok () h' ∧
    h' = <[this := matrix n m l']> h ∧ is_table n m l' ∧
    get this (Z.of_nat x) (Z.of_nat y) h' = Ok (Num v) h' ∧
    (∀ r c, r < n → c < m → (r, c) ≠ (x, y) →
       get this (Z.of_nat r) (Z.of_nat c) h' = Ok (Num (entry l r c)) h').
Proof.
  intros Hthis Ht Hx Hy.
  set (l' := tabulate n m (λ r c, if decide (r = x ∧ c = y) then v else entry l r c)).
  assert (this < length h) as Hlt by (by apply lookup_lt_Some in Hthis).
  assert ((<[this := matrix n m l']> h) !! this = Some (matrix n m l')) as Hthis'
    by (by apply list_lookup_insert_eq).
  exists (<[this := matrix n m l']> h), l'. split_and!.
  - by apply set_inside.
  - done.
  - apply is_table_tabulate.
  - rewrite (get_inside _ this n m l' x y Hthis' (is_table_tabulate _ _ _) Hx Hy).
    unfold l'. rewrite entry_tabulate by done. by rewrite decide_True.
  - intros r c Hr Hc Hne.
    rewrite (get_inside _ this n m l' r c Hthis' (is_table_tabulate _ _ _) Hr Hc).
    unfold l'. rewrite entry_tabulate by done.
    rewrite decide_False; [done|]. intros [-> ->]. done.
Qed.

Lemma X11_set_witness :
  ∃ h', set 0 1 1 (Num 4) [matrix 2 3 [[1; 0; 0]; [0; 1; 0]]%float] = Ok () h' ∧
        h' = [matrix 2 3 [[1; 0; 0]; [0; 4; 0]]%float] ∧
        get 0 1 1 h' = Ok (Num 4) h'.
Proof.
  assert (is_table 2 3 [[1; 0; 0]; [0; 1; 0]]%float) as Ht.
  { split; [done|]. intros [|[|r]] row [= <-]; done. }
  destruct (X11_set_then_get [matrix 2 3 [[1; 0; 0]; [0; 1; 0]]%float] 0 2 3
              [[1; 0; 0]; [0; 1; 0]]%float 1 1 4%float eq_refl Ht)
    as (h' & l' & E & Hh' & Hl' & Eget & Hothers); [lia|lia|].
  exists h'. split; [exact E|]. split; [|exact Eget].
  rewrite Hh'. simpl. do 2 f_equal.
  apply (table_ext 2 3); [done|split; [done|intros [|[|r]] row [= <-]; done]|].
  intros r c Hr Hc.
  assert (h' !! 0 = Some (matrix 2 3 l')) as Hthis' by (by rewrite Hh').
  pose proof (get_inside h' 0 2 3 l' r c Hthis' Hl' Hr Hc) as G.
  destruct (decide ((r, c) = (1, 1))) as [[= -> ->]|Hne].
  - rewrite Eget in G. by injection G as <-.
  - rewrite (Hothers r c Hr Hc Hne) in G. injection G as <-.
    destruct r as [|[|r]]; [| |lia]; (destruct c as [|[|[|c]]]; [| | |lia]); done.
Defined.



(** ** I and clone *)

(** X13.  The [I] property of a matrix with at most as many rows as columns
    is the grid of the n-by-m identity pattern, whatever values the receiver
    holds: it is read off a fresh default matrix of the receiver's extents,
    which stays in the store, and the receiver is not touched. *)
Theorem X13_I_identity_grid (h : heap) (this : ref) (o : Matrix) (n m : nat) :
  h !! this = Some o → rows o = Some n → cols o = Some m → n ≤ m →
  I this h = Ok (nums (identity n m)) (h ++ [matrix n m (identity n m)]).
Proof.
  intros Hthis Hn Hm Hnm. unfold I. run (deref_ok _ _ _ Hthis). rewrite Hn, Hm.
  run (new_Matrix_identity_wide n m h Hnm).
  by run (deref_ok _ _ _ (alloc_lookup h (matrix n m (identity n m)))).
Qed.

Lemma X13_I_witness :
  I 0 [matrix 2 3 [[5; 6; 7]; [8; 9; 10]]%float]
  = Ok [Some [Num 1; Num 0; Num 0]; Some [Num 0; Num 1; Num 0]]
       [matrix 2 3 [[5; 6; 7]; [8; 9; 10]]%float; matrix 2 3 [[1; 0; 0]; [0; 1; 0]]%float].
Proof.
  apply (X13_I_identity_grid [matrix 2 3 [[5; 6; 7]; [8; 9; 10]]%float] 0
           (matrix 2 3 [[5; 6; 7]; [8; 9; 10]]%float) 2 3 eq_refl eq_refl eq_refl).
  lia.
Defined.

Lemma clone_spec h this n m l :
  h !! this = Some (matrix n m l) → is_table n m l → 1 ≤ n →
  clone this h = Ok (length h) (h ++ [matrix n m (settle l)]).
Proof.
  intros Hthis Ht Hn. pose proof Ht as [Hlen Hrows].
  destruct l as [|row0 l']; [simpl in Hlen; lia|].
  assert (length row0 = m) as Hm by (by apply (Hrows 0 row0)).
  unfold clone. run (deref_ok _ _ _ Hthis).
  change (value (matrix n m (row0 :: l'))) with (Some (map Num row0) :: nums l').
  cbn beta iota zeta. change (Some (map Num row0) :: nums l') with (nums (row0 :: l')).
  set (g := nums (row0 :: l')).
  assert (length g = n) as Hgn by (by unfold g, nums; rewrite length_map).
  rewrite length_map, Hgn, Hm.
  set (o := {| rows := Some n; cols := Some m; value := [] |}).
  rewrite (bind_ok _ _ h (length h) (h ++ [o]) eq_refl).
  set (V := λ row col, or0 (rd g row col)).
  assert (for_down n (λ row,
            new_row (length h) row;;
            for_down m (λ col,
              match grid_row g row with
              | Some r => write_cell (length h) row col (or0 (row_get r col))
              | None => throw TypeError
              end)) (h ++ [o])
          = for_args (down n) (λ row,
              new_row (length h) row;;
              for_down m (λ col, write_cell (length h) row col (V row col))) (h ++ [o])) as Eb.
  { rewrite for_down_list. apply for_args_ext. intros row h1 Hrow%elem_of_down.
    destruct (grid_row_nums_is_Some n m _ row Ht Hrow) as [r Hr]. fold g in Hr.
    unfold V, rd. by rewrite Hr. }
  destruct (for_args_pure (length h) o (h ++ [o]) (λ _, True)
              (λ g row, arr_set None g row (Some (map (V row) (seq 0 m))))
              (down n)
              (λ row, new_row (length h) row;;
                      for_down m (λ col, write_cell (length h) row col (V row col))) [])
    as [E _]; [|done|].
  { intros row g' _ _. split; [|done].
    apply (fill_row_st _ _ _ (alloc_lookup h o)). }
  rewrite !st_alloc in E. change (with_value o []) with o in E.
  rewrite (fill_fold (λ row, Some (map (V row) (seq 0 m)))), drop_nil, app_nil_r in E.
  assert (map (λ row, Some (map (V row) (seq 0 m))) (seq 0 n)
          = nums (settle (row0 :: l'))) as Hval.
  { rewrite (nums_grid_of n m) by (by apply is_table_settle).
    apply (grid_of_ext n m V). intros r c Hr Hc. unfold V, g.
    rewrite (rd_nums _ r c n m) by done.
    by rewrite (entry_settle n m), or0_Num. }
  rewrite Hval in E. rewrite <-Eb in E. run E. done.
Qed.

Lemma write_cell_frame m r c v h h' :
  write_cell m r c v h = Ok () h' → ∀ r', r' ≠ m → h' !! r' = h !! r'.
Proof.
  unfold write_cell, mbind, M_bind, deref, set_value.
  destruct (h !! m) as [o|] eqn:E; [|done].
  destruct (grid_row (value o) r); [|done]. rewrite E.
  intros [= <-] r' Hne. by apply list_lookup_insert_ne.
Qed.

(** X14.  [clone()] of a well-formed matrix with at least one row returns a
    new object with the same extents and the same values, each taken as
    [v || 0] by the constructor (so the same values exactly when no cell is
    NaN or -0), and the two are independent: a later [set] on the clone
    leaves the original as it was, and a later [set] on the original leaves
    the clone as it was. *)
Theorem X14_clone_independent (h : heap) (this : ref) (n m : nat) (l : table) :
  h !! this = Some (matrix n m l) → is_table n m l → 1 ≤ n →
  ∃ h',
    clone this h = Ok (length h) h' ∧ h' = h ++ [matrix n m (settle l)] ∧
    (Forall (Forall (λ x, num_or0 x = x)) l → h' = h ++ [matrix n m l]) ∧
    (∀ x y v h2, set (length h) x y v h' = Ok () h2 → h2 !! this = Some (matrix n m l)) ∧
    (∀ x y v h2, set this x y v h' = Ok () h2 →
       h2 !! length h = Some (matrix n m (settle l))).
Proof.
  intros Hthis Ht Hn.
  assert (this < length h) as Hlt by (by apply lookup_lt_Some in Hthis).
  exists (h ++ [matrix n m (settle l)]). split_and!.
  - by apply clone_spec.
  - done.
  - intros Hl. by rewrite settle_id.
  - intros x y v h2 E. rewrite (write_cell_frame _ _ _ _ _ _ E) by lia.
    by apply lookup_app_l_Some.
  - intros x y v h2 E. rewrite (write_cell_frame _ _ _ _ _ _ E) by lia.
    apply alloc_lookup.
Qed.

Lemma X14_clone_witness :
  clone 0 [matrix 2 2 [[1; 2]; [3; 4]]%float]
  = Ok 1 [matrix 2 2 [[1; 2]; [3; 4]]%float; matrix 2 2 [[1; 2]; [3; 4]]%float].
Proof.
  destruct (X14_clone_independent [matrix 2 2 [[1; 2]; [3; 4]]%float] 0 2 2 [[1; 2]; [3; 4]]%float
              eq_refl (is_table_2_2 _ _ _ _)) as (h' & E & -> & _); [lia|].
  exact E.
Defined.

(** ** product *)

Lemma product_operand_scalar h this o n m l s :
  rows o = Some n → cols o = Some m →
  h !! this = Some (matrix n m l) → is_table n m l →
  product_operand this o (ANum s) h
  = Ok () (<[this := matrix n m (product_step n m l (ONum s))]> h).
Proof.
  intros Hn Hm Hthis Hl. unfold product_operand. rewrite Hn, Hm. simpl ext.
  rewrite down_nest_lists.
  set (F := λ r c, jsmul (rd (nums l) r c) (Num s)).
  set (expr := λ r c, x ← read_cell this r c; mret (jsmul x (Num s))).
  trans (for_args (down n) (λ row,
           for_args (down m) (λ col, v ← expr row col; write_cell this row col v)) h).
  { apply for_args_ext. intros r h1 _. apply for_args_ext. intros c h2 _.
    unfold expr, mbind, M_bind. by destruct (read_cell this r c h2). }
  rewrite <-(st_id this _ h Hthis) at 1.
  rewrite (nest_spec this _ h Hthis expr F (down n) (down m));
    [|apply NoDup_down|apply NoDup_down| |].
  - simpl value. rewrite (writes_window F _ _ n m).
    + rewrite drop_ge, app_nil_r
        by (destruct Hl as [Hn' _]; unfold nums; rewrite length_map; lia).
      unfold st, with_value, matrix, product_step. simpl. do 3 f_equal.
      rewrite nums_tabulate. apply grid_of_ext. intros r c Hr Hc. unfold F.
      by rewrite (rd_nums l r c n m).
    + apply cells_down_window.
    + intros r Hr. destruct (grid_row_nums_is_Some n m l r Hl Hr) as [row Hrow].
      exists row. split; [done|]. by rewrite (grid_row_nums_length n m l r row).
  - intros r Hr%elem_of_down. by apply (grid_row_nums_is_Some n m).
  - intros r c g Hr%elem_of_down Hc%elem_of_down Hpres Hrd. unfold expr.
    assert (is_Some (grid_row g r)) as Hg.
    { apply Hpres. by apply (grid_row_nums_is_Some n m). }
    run (read_cell_st this _ h Hthis g r c Hg). by rewrite Hrd.
Qed.

Lemma product_spec this n m args : ∀ ds h l,
  h !! this = Some (matrix n m l) → is_table n m l →
  Forall2 (describes h this n m) args ds →
  (∀ d, d ∈ ds → is_number d = false → n = m) →
  ∃ h', for_args args (product_operand this (matrix n m l)) h = Ok () h' ∧
        h' !! this = Some (matrix n m (foldl (product_step n m) l ds)) ∧
        is_table n m (foldl (product_step n m) l ds) ∧
        length h ≤ length h' ∧
        (∀ r, r ≠ this → r < length h → h' !! r = h !! r).
Proof.
  induction args as [|a args IH]; intros ds h l Hthis Hl Hds Hsq.
  - apply Forall2_nil_inv_l in Hds as ->. exists h. split_and!; done.
  - apply Forall2_cons_inv_l in Hds as (d & ds' & Hd & Hds & ->).
    assert (this < length h) as Hlt by (by apply lookup_lt_Some in Hthis).
    assert (is_table n m (product_step n m l d)) as Hl1.
    { destruct d; apply is_table_tabulate. }
    assert (∃ h1, product_operand this (matrix n m l) a h = Ok () h1 ∧
                  h1 !! this = Some (matrix n m (product_step n m l d)) ∧
                  length h ≤ length h1 ∧
                  (∀ r, r ≠ this → r < length h → h1 !! r = h !! r))
      as (h1 & E1 & Hthis1 & Hlen1 & Hfr1).
    { destruct d as [lb|s|].
      - destruct Hd as (b & -> & Hne & Hb & Hlb).
        assert (n = m) as <- by (by apply (Hsq (OMat lb)); [left|]).
        eexists. split.
        { unfold product_operand. by run (dot_one h this b n l lb Hthis Hl Hb Hlb). }
        split_and!.
        + apply list_lookup_insert_eq. rewrite length_app. lia.
        + rewrite length_insert, length_app. lia.
        + intros r Hr Hrl. rewrite list_lookup_insert_ne by done. by apply lookup_app_l.
      - simpl in Hd. subst a.
        eexists. split; [by apply (product_operand_scalar h this _ n m l s)|]. split_and!.
        + by apply list_lookup_insert_eq.
        + by rewrite length_insert.
        + intros r Hr _. by apply list_lookup_insert_ne.
      - simpl in Hd. subst a.
        assert (n = m) as <- by (by apply (Hsq OSelf); [left|]).
        eexists. split.
        { unfold product_operand. by run (dot_one h this this n l l Hthis Hl Hthis Hl). }
        split_and!.
        + apply list_lookup_insert_eq. rewrite length_app. lia.
        + rewrite length_insert, length_app. lia.
        + intros r Hr Hrl. rewrite list_lookup_insert_ne by done. by apply lookup_app_l. }
    destruct (IH ds' h1 (product_step n m l d) Hthis1 Hl1)
      as (h' & E & Hthis' & Htab & Hlen & Hfr).
    { by apply (describes_frame h). }
    { intros d' Hin. apply Hsq. by right. }
    exists h'. split_and!.
    + simpl for_args. run E1.
      erewrite for_args_ext; [exact E|]. intros a' h2 _. by destruct a'.
    + done.
    + done.
    + lia.
    + intros r Hr Hrl. rewrite Hfr by (done || lia). by apply Hfr1.
Qed.

(** X15.  [A.product(x1, ..., xk)] takes its operands from left to right:
    a number [s] multiplies every cell of the receiver by [s] (as doubles,
    NaN included), a well-formed matrix of the receiver's shape, which must
    then be square, multiplies it from the right, and the receiver itself
    as an operand squares the value it has at that point; every matrix
    product accumulates its double-precision sums as [Matrix.dot] does.
    The call returns the receiver, which keeps its shape, and no other
    object that was in the store changes. *)
Theorem X15_product_left_to_right (h : heap) (this : ref) (n m : nat) (l : table)
    (args : list arg) (ds : list opd) :
  h !! this = Some (matrix n m l) → is_table n m l →
  Forall2 (describes h this n m) args ds →
  (∀ d, d ∈ ds → is_number d = false → n = m) →
  ∃ h',
    product this args h = Ok this h' ∧
    h' !! this = Some (matrix n m (foldl (product_step n m) l ds)) ∧
    is_table n m (foldl (product_step n m) l ds) ∧
    (∀ r, r ≠ this → r < length h → h' !! r = h !! r).
Proof.
  intros Hthis Hl Hds Hsq.
  destruct (product_spec this n m args ds h l Hthis Hl Hds Hsq)
    as (h' & E & Hthis' & Htab & _ & Hfr).
  exists h'. split_and!; [|done|done|done].
  unfold product. run (deref_ok _ _ _ Hthis). by run E.
Qed.

Lemma X15_product_witness :
  ∃ h', product 0 [ANum 3; AMat 1; AMat 0]
          [matrix 2 2 [[1; 2]; [3; 4]]%float; matrix 2 2 [[5; 6]; [7; 8]]%float] = Ok 0 h' ∧
        h' !! 0 = Some (matrix 2 2 [[11763; 13662]; [26703; 31014]]%float).
Proof.
  destruct (X15_product_left_to_right
              [matrix 2 2 [[1; 2]; [3; 4]]%float; matrix 2 2 [[5; 6]; [7; 8]]%float] 0 2 2
              [[1; 2]; [3; 4]]%float [ANum 3; AMat 1; AMat 0]
              [ONum 3; OMat [[5; 6]; [7; 8]]%float; OSelf]
              eq_refl (is_table_2_2 _ _ _ _))
    as (h' & E & Hthis & _).
  { repeat constructor. by apply describes_2_2. }
  { done. }
  exists h'. split; [exact E|]. exact Hthis.
Defined.

Lemma Matrix_product_spec h n m b rest l0 (ds : list (table + float)) :
  n ≤ m →
  Forall2 (stored h n m) (AMat b :: rest) (inl l0 :: ds) →
  ((∃ lb, inl lb ∈ ds) → n = m) →
  ∃ h', Matrix_product (AMat b :: rest) h = Ok (length h) h' ∧
        h' !! length h
        = Some (matrix n m (foldl (product_step n m) l0 (opd_of <$> ds))) ∧
        is_table n m (foldl (product_step n m) l0 (opd_of <$> ds)) ∧
        (∀ r, r < length h → h' !! r = h !! r).
Proof.
  intros Hnm Hall Hsq.
  apply Forall2_cons in Hall as [(b' & [= <-] & Hb & Hl0) Hds].
  unfold Matrix_product. run (prop_dimensions_ok h b _ Hb).
  unfold dimensions. simpl rows. simpl cols. cbn iota.
  run (new_Matrix_identity_wide n m h Hnm).
  erewrite bind_ok; cycle 1.
  { apply (copy_matrix _ (length h) b n m (identity n m) l0);
      [apply alloc_lookup|apply is_table_tabulate|by apply lookup_app_l_Some|done]. }
  cbn beta. rewrite insert_alloc.
  destruct (product_spec (length h) n m rest (opd_of <$> ds) (h ++ [matrix n m l0]) l0)
    as (h' & E & Hres & Htab & _ & Hfr).
  { apply alloc_lookup. }
  { done. }
  { apply stored_describes; [|done]. intros r Hr. by apply lookup_app_l. }
  { intros d (d' & -> & Hin)%list_elem_of_fmap Hd.
    destruct d' as [lb|s]; [|done]. apply Hsq. by exists lb. }
  exists h'. split_and!.
  - assert (product (length h) rest (h ++ [matrix n m l0]) = Ok (length h) h') as Ep.
    { unfold product. run (deref_ok _ _ _ (alloc_lookup h (matrix n m l0))). by run E. }
    by run Ep.
  - done.
  - done.
  - intros r Hr. rewrite Hfr by (rewrite ?length_app; simpl; lia).
    by apply lookup_app_l.
Qed.

(** X16.  [Matrix.product(A, x1, ..., xk)], for a well-formed first operand
    with at most as many rows as columns: the result is a new object that
    starts as a copy of [A] and then takes the other operands as
    [product] does, a number multiplying every cell (as doubles) and a
    matrix of the store (of a square shape) multiplying from the right,
    with the double-precision sums of [Matrix.dot]; [A] and everything
    else that was in the store are unchanged. *)
Theorem X16_Matrix_product_new (h : heap) (n m : nat) (b : ref)
    (rest : list arg) (l0 : table) (ds : list (table + float)) :
  n ≤ m →
  Forall2 (stored h n m) (AMat b :: rest) (inl l0 :: ds) →
  ((∃ lb, inl lb ∈ ds) → n = m) →
  ∃ h',
    Matrix_product (AMat b :: rest) h = Ok (length h) h' ∧
    h' !! length h = Some (matrix n m (foldl (product_step n m) l0 (opd_of <$> ds))) ∧
    is_table n m (foldl (product_step n m) l0 (opd_of <$> ds)) ∧
    (∀ r, r < length h → h' !! r = h !! r).
Proof. apply Matrix_product_spec. Qed.

Lemma X16_Matrix_product_witness :
  ∃ h', Matrix_product [AMat 0; ANum 2; AMat 0] [matrix 2 2 [[1; 2]; [3; 4]]%float] = Ok 1 h' ∧
        h' !! 1 = Some (matrix 2 2 [[14; 20]; [30; 44]]%float) ∧
        h' !! 0 = Some (matrix 2 2 [[1; 2]; [3; 4]]%float).
Proof.
  destruct (X16_Matrix_product_new [matrix 2 2 [[1; 2]; [3; 4]]%float] 2 2 0
              [ANum 2; AMat 0] [[1; 2]; [3; 4]]%float
              [inr 2%float; inl [[1; 2]; [3; 4]]%float])
    as (h' & E & Hres & _ & Hfr).
  { lia. }
  { repeat constructor; by apply stored_2_2. }
  { done. }
  exists h'. split; [exact E|]. split; [exact Hres|]. apply (Hfr 0). simpl. lia.
Defined.

(** ** The value of a chain of products *)

Lemma chained_mono h h' p args bs :
  h `prefix_of` h' → chained h p args bs → chained h' p args bs.
Proof.
  intros [k ->]. revert p bs. induction args as [|a args IH]; intros p [|[q lb] bs]; try done.
  simpl. intros [(r & -> & Hr & Hl) Hrest]. split; [|by apply IH].
  exists r. split_and!; [done| |done]. by apply lookup_app_l_Some.
Qed.

Lemma is_table_chain_product n p l bs :
  is_table n p l → is_table n (chain_product n p l bs).1 (chain_product n p l bs).2.
Proof.
  revert p l. induction bs as [|[q lb] bs IH]; intros p l Hl; [done|].
  simpl. apply IH, is_table_tabulate.
Qed.

(** The loop of [Matrix.dot] from its second turn on, with the value it
    computes. *)
Lemma dot_chain_value args : ∀ bs h r n p lr a,
  h !! r = Some (matrix n p lr) → is_table n p lr →
  chained h p args bs →
  ∃ r' h',
    dot_chain (Some r) (a :: args) h = Ok (Some r') h' ∧ h `prefix_of` h' ∧ r ≤ r' ∧
    h' !! r' = Some (matrix n (chain_product n p lr bs).1 (chain_product n p lr bs).2).
Proof.
  induction args as [|b args IH]; intros bs h r n p lr a Hr Ht Hch.
  - destruct bs; [|done]. exists r, h. split_and!; done.
  - destruct bs as [|[q lb] bs]; [done|].
    destruct Hch as [(rb & -> & Hb & Htb) Hch].
    destruct (dot_chain_copy h r n p lr Hr Ht) as (oA & EA & HA).
    change (dot_chain (Some r) (a :: AMat rb :: args) h)
      with ((A ← (o ← deref r; A ← new_Matrix (CPair (rows o) (cols o));
                  copy A (AMat r);; mret (AMat A));
             r' ← dot_step A (AMat rb);
             dot_chain (Some r') (AMat rb :: args)) h).
    run EA.
    assert ((h ++ [oA]) !! rb = Some (matrix p q lb)) as Hb' by (by apply lookup_app_l_Some).
    run (dot_step_spec (h ++ [oA]) (length h) rb oA _ n p q lr lb
           (alloc_lookup h oA) Hb' HA (holds_matrix _ _ _ Htb)).
    set (h2 := (h ++ [oA]) ++ [matrix n q (mmul n p q lr lb)]).
    assert (h `prefix_of` h2) as Hpre.
    { unfold h2. rewrite <-app_assoc. by eexists. }
    destruct (IH bs h2 (length (h ++ [oA])) n q (mmul n p q lr lb) (AMat rb)
                (alloc_lookup _ _) (is_table_tabulate _ _ _))
      as (r' & h' & E & Hpre' & Hle & Hr').
    { by apply (chained_mono h). }
    exists r', h'. split_and!; [done|by etrans| |done].
    apply lookup_lt_Some in Hr. rewrite length_app in Hle. simpl in Hle. lia.
Qed.

Lemma Matrix_dot_value h a n p la b args bs :
  h !! a = Some (matrix n p la) → is_table n p la →
  chained h p (b :: args) bs →
  ∃ r' h',
    Matrix_dot (AMat a :: b :: args) h = Ok (Some r') h' ∧
    h `prefix_of` h' ∧ length h ≤ r' ∧
    h' !! r' = Some (matrix n (chain_product n p la bs).1 (chain_product n p la bs).2).
Proof.
  intros Ha Hta Hch. destruct bs as [|[q lb] bs]; [done|].
  destruct Hch as [(rb & -> & Hb & Htb) Hch].
  unfold Matrix_dot.
  change (dot_chain None (AMat a :: AMat rb :: args) h)
    with ((A ← mret (AMat a); r' ← dot_step A (AMat rb);
           dot_chain (Some r') (AMat rb :: args)) h).
  rewrite bind_ret.
  run (dot_step_spec h a rb _ _ n p q la lb Ha Hb
         (holds_matrix _ _ _ Hta) (holds_matrix _ _ _ Htb)).
  set (h1 := h ++ [matrix n q (mmul n p q la lb)]).
  assert (h `prefix_of` h1) as Hpre by (by eexists).
  destruct (dot_chain_value args bs h1 (length h) n q (mmul n p q la lb) (AMat rb)
              (alloc_lookup _ _) (is_table_tabulate _ _ _))
    as (r' & h' & E & Hpre' & Hle & Hr').
  { by apply (chained_mono h). }
  exists r', h'. split_and!; [done|by etrans|done|done].
Qed.

(** X17.  [Matrix.dot(A, B1, ..., Bk)] with k >= 1 well-formed matrices
    whose shapes chain (each has as many rows as its predecessor has
    columns) multiplies from left to right: the result is a new object
    holding ((A * B1) * ...) * Bk, with the rows of [A] and the columns of
    [Bk], every product being the table [mmul] of double-precision sums
    that [Matrix.dot] accumulates, and every object that was in the store
    is unchanged.  With fewer
    than two operands there is no result: the call returns [undefined] and
    leaves the store alone. *)
Theorem X17_Matrix_dot_chain (h : heap) (a : ref) (n p : nat) (la : table)
    (b : arg) (args : list arg) (bs : list (nat * table)) :
  h !! a = Some (matrix n p la) → is_table n p la →
  chained h p (b :: args) bs →
  (∃ r' h',
     Matrix_dot (AMat a :: b :: args) h = Ok (Some r') h' ∧
     length h ≤ r' ∧ h `prefix_of` h' ∧
     h' !! r' = Some (matrix n (chain_product n p la bs).1 (chain_product n p la bs).2) ∧
     is_table n (chain_product n p la bs).1 (chain_product n p la bs).2) ∧
  Matrix_dot [AMat a] h = Ok None h ∧ Matrix_dot [] h = Ok None h.
Proof.
  intros Ha Hta Hch. split; [|done].
  destruct (Matrix_dot_value h a n p la b args bs Ha Hta Hch) as (r' & h' & E & Hpre & Hle & Hr').
  exists r', h'. split_and!; [done|done|done|done|by apply is_table_chain_product].
Qed.

Lemma X17_Matrix_dot_witness :
  ∃ r' h',
    Matrix_dot [AMat 0; AMat 1; AMat 0]
      [matrix 2 2 [[1; 2]; [3; 4]]%float; matrix 2 2 [[0; 1]; [1; 0]]%float] = Ok (Some r') h' ∧
    h' !! r' = Some (matrix 2 2 [[5; 8]; [13; 20]]%float).
Proof.
  destruct (X17_Matrix_dot_chain
              [matrix 2 2 [[1; 2]; [3; 4]]%float; matrix 2 2 [[0; 1]; [1; 0]]%float] 0 2 2
              [[1; 2]; [3; 4]]%float (AMat 1) [AMat 0]
              [(2, [[0; 1]; [1; 0]]%float); (2, [[1; 2]; [3; 4]]%float)]
              eq_refl (is_table_2_2 _ _ _ _))
    as [(r' & h' & E & _ & _ & Hr' & _) _].
  { split; [exists 1; split_and!; [done|done|apply is_table_2_2]|].
    split; [exists 0; split_and!; [done|done|apply is_table_2_2]|done]. }
  exists r', h'. split; [exact E|exact Hr'].
Defined.

(** ** The mutating dot on several operands *)

Lemma chained_square_checks h n o args bs :
  rows o = Some n → cols o = Some n →
  chained h n args bs → Forall (λ b, b.1 = n) bs →
  for_args args (dot_check o) h = Ok () h.
Proof.
  intros Hn Hm. revert bs. induction args as [|a args IH]; intros [|[q lb] bs]; try done.
  simpl chained. intros [(r & -> & Hr & Hl) Hch] Hall.
  apply Forall_cons in Hall as [Hq Hall]. simpl in Hq. subst q.
  simpl for_args.
  run (dot_check_ok h o (AMat r) n Hn Hm
         ltac:(by exists r, (matrix n n lb))).
  by apply (IH bs).
Qed.

Lemma chain_product_square n l bs :
  Forall (λ b, b.1 = n) bs → (chain_product n n l bs).1 = n.
Proof.
  revert l. induction bs as [|[q lb] bs IH]; intros l Hall; [done|].
  apply Forall_cons in Hall as [Hq Hall]. simpl in Hq. subst q. simpl. by apply IH.
Qed.

Lemma dot_value h this n l a args bs :
  h !! this = Some (matrix n n l) → is_table n n l →
  chained h n (a :: args) bs → Forall (λ b, b.1 = n) bs →
  ∃ h', dot this (a :: args) h = Ok this h' ∧
        h' !! this = Some (matrix n n (chain_product n n l bs).2) ∧
        length h ≤ length h' ∧
        (∀ r, r ≠ this → r < length h → h' !! r = h !! r).
Proof.
  intros Hthis Ht Hch Hall. rewrite dot_unfold. run (deref_ok _ _ _ Hthis).
  run (chained_square_checks h n (matrix n n l) (a :: args) bs eq_refl eq_refl Hch Hall).
  destruct (Matrix_dot_value h this n n l a args bs Hthis Ht Hch)
    as (r' & h' & E & Hpre & Hle & Hr').
  pose proof (is_table_chain_product n n l bs Ht) as Htab.
  rewrite (chain_product_square n l bs Hall) in Hr', Htab.
  run E. destruct Hpre as [k ->].
  assert ((h ++ k) !! this = Some (matrix n n l)) as Hthis' by (by apply lookup_app_l_Some).
  run (copy_matrix (h ++ k) this r' n n l _ Hthis' Ht Hr' Htab).
  eexists. split; [done|]. split_and!.
  - apply list_lookup_insert_eq. by apply lookup_lt_Some in Hthis'.
  - rewrite length_insert, length_app. lia.
  - intros r Hne Hr. rewrite list_lookup_insert_ne by done. by apply lookup_app_l.
Qed.

(** X18.  [A.dot(B1, ..., Bk)] on a square well-formed receiver, with
    k >= 1 well-formed operands of the same shape (the receiver itself may
    be among them): the receiver ends holding ((A * B1) * ...) * Bk, every
    product being the table [mmul] of double-precision sums that
    [Matrix.dot] accumulates, taken with the value [A] had when the call
    started; the call returns the receiver and no other object that was in
    the store changes. *)
Theorem X18_dot_chain_in_place (h : heap) (this : ref) (n : nat) (l : table)
    (a : arg) (args : list arg) (bs : list (nat * table)) :
  h !! this = Some (matrix n n l) → is_table n n l →
  chained h n (a :: args) bs → Forall (λ b, b.1 = n) bs →
  ∃ h',
    dot this (a :: args) h = Ok this h' ∧
    h' !! this = Some (matrix n n (chain_product n n l bs).2) ∧
    is_table n n (chain_product n n l bs).2 ∧
    (∀ r, r ≠ this → r < length h → h' !! r = h !! r).
Proof.
  intros Hthis Ht Hch Hall.
  destruct (dot_value h this n l a args bs Hthis Ht Hch Hall) as (h' & E & Hthis' & _ & Hfr).
  exists h'. split_and!; [done|done| |done].
  pose proof (is_table_chain_product n n l bs Ht) as Htab.
  by rewrite (chain_product_square n l bs Hall) in Htab.
Qed.

Lemma X18_dot_witness :
  ∃ h', dot 0 [AMat 0; AMat 0] [matrix 2 2 [[1; 1]; [0; 1]]%float] = Ok 0 h' ∧
        h' !! 0 = Some (matrix 2 2 [[1; 3]; [0; 1]]%float).
Proof.
  destruct (X18_dot_chain_in_place [matrix 2 2 [[1; 1]; [0; 1]]%float] 0 2
              [[1; 1]; [0; 1]]%float (AMat 0) [AMat 0]
              [(2, [[1; 1]; [0; 1]]%float); (2, [[1; 1]; [0; 1]]%float)]
              eq_refl (is_table_2_2 _ _ _ _))
    as (h' & E & Hthis & _).
  { split; [exists 0; split_and!; [done|done|apply is_table_2_2]|].
    split; [exists 0; split_and!; [done|done|apply is_table_2_2]|done]. }
  { by repeat constructor. }
  exists h'. split; [exact E|exact Hthis].
Defined.

(** ** The default square matrix as a factor *)

Lemma sum_down_ext m (f g : nat → float) acc :
  (∀ k, k < m → f k = g k) → sum_down m f acc = sum_down m g acc.
Proof.
  revert acc. induction m as [|m IH]; intros acc Hfg; [done|]. simpl.
  rewrite (Hfg m) by lia. apply IH. intros k Hk. apply Hfg. lia.
Qed.

(** X19.  The product of a well-formed n-by-m matrix [A] with a default
    square matrix, on either side, is a new n-by-m object whose cell (r, c)
    is the double-precision sum in which every cell of row r (of column c)
    of [A] is multiplied by 1 or by 0 and added on, from the last index
    down and starting from 0.  The result need not hold the values of
    [A]: an infinite cell times 0 is NaN, so [Matrix.dot] of
    [[Infinity, 1]] and the 2-by-2 default matrix is [[Infinity, NaN]]. *)
Theorem X19_default_matrix_factor (h : heap) (a : ref) (n m : nat) (la : table) :
  h !! a = Some (matrix n m la) → is_table n m la →
  (∃ h1, new_Matrix (CPair (Some m) (Some m)) h = Ok (length h) h1 ∧
         Matrix_dot [AMat a; AMat (length h)] h1
         = Ok (Some (length h1)) (h1 ++ [matrix n m (mmul n m m la (identity m m))])) ∧
  (∃ h1, new_Matrix (CPair (Some n) (Some n)) h = Ok (length h) h1 ∧
         Matrix_dot [AMat (length h); AMat a] h1
         = Ok (Some (length h1)) (h1 ++ [matrix n m (mmul n n m (identity n n) la)])) ∧
  (∀ r c, r < n → c < m →
     entry (mmul n m m la (identity m m)) r c
     = sum_down m (λ k, entry la r k * (if decide (k = c) then 1 else 0))%float 0%float ∧
     entry (mmul n n m (identity n n) la) r c
     = sum_down n (λ k, (if decide (r = k) then 1 else 0) * entry la k c)%float 0%float).
Proof.
  intros Ha Hta. split_and!.
  - exists (h ++ [matrix m m (identity m m)]). split; [by apply new_Matrix_identity_wide|].
    apply (Matrix_dot_two _ a (length h) (matrix n m la) (matrix m m (identity m m))
             n m m la (identity m m));
      [by apply lookup_app_l_Some|apply alloc_lookup|by apply holds_matrix
      |apply holds_matrix, is_table_tabulate].
  - exists (h ++ [matrix n n (identity n n)]). split; [by apply new_Matrix_identity_wide|].
    apply (Matrix_dot_two _ (length h) a (matrix n n (identity n n)) (matrix n m la)
             n n m (identity n n) la);
      [apply alloc_lookup|by apply lookup_app_l_Some|apply holds_matrix, is_table_tabulate
      |by apply holds_matrix].
  - intros r c Hr Hc. unfold mmul. rewrite !entry_tabulate by done. split.
    + apply sum_down_ext. intros k Hk. unfold identity. by rewrite entry_tabulate.
    + apply sum_down_ext. intros k Hk. unfold identity. by rewrite entry_tabulate.
Qed.

Lemma X19_default_witness :
  ∃ h1, new_Matrix (CPair (Some 2) (Some 2)) [matrix 1 2 [[infinity; 1]]%float] = Ok 1 h1 ∧
        Matrix_dot [AMat 0; AMat 1] h1
        = Ok (Some 2) (h1 ++ [matrix 1 2 [[infinity; nan]]%float]).
Proof.
  assert (is_table 1 2 [[infinity; 1]]%float) as Ht.
  { split; [done|]. intros [|r] row [= <-]; done. }
  destruct (X19_default_matrix_factor [matrix 1 2 [[infinity; 1]]%float] 0 1 2
              [[infinity; 1]]%float eq_refl Ht)
    as [(h1 & E1 & E2) _].
  exists h1. split; [exact E1|].
  assert (length h1 = 2) as Hlen.
  { rewrite new_Matrix_pair in E1. injection E1 as <-. done. }
  rewrite Hlen in E2. exact E2.
Defined.

(** ** pow on a receiver that is not square *)

(** X20.  [pow] multiplies through the mutating [dot], so on a well-formed
    matrix that is not square [pow(e)] throws the equal-dimensions message
    for every e >= 2, while [pow(1)], which multiplies nothing, returns the
    receiver with its values unchanged. *)
Theorem X20_pow_not_square (h : heap) (this : ref) (n m : nat) (l : table) (e : Z) :
  h !! this = Some (matrix n m l) → is_table n m l → n ≠ m →
  ((2 ≤ e)%Z → pow this e h = Throw (Thrown equal_dimensions_message)) ∧
  (e = 1%Z → ∃ h', pow this e h = Ok this h' ∧ h' !! this = Some (matrix n m l)).
Proof.
  intros Hthis Ht Hne.
  assert (this < length h) as Hlt by (by apply lookup_lt_Some in Hthis).
  set (o1 := {| rows := Some n; cols := Some m; value := reset_rows n m |}).
  set (h2 := st (length h) o1 (h ++ [o1])
               (writes (rd (value (matrix n m l))) (cells (down n) (down m)) (value o1))).
  assert (copy (length h) (AMat this) (h ++ [o1]) = Ok () h2) as Ecopy.
  { apply (copy_mat_st (h ++ [o1]) (length h) this o1 (matrix n m l) n m).
    - apply alloc_lookup.
    - by apply lookup_app_l_Some.
    - done.
    - done.
    - intros i Hi. by apply (grid_row_nums_is_Some n m).
    - intros i Hi. by apply grid_row_reset_rows. }
  assert (h2 !! this = Some (matrix n m l)) as Hthis2.
  { unfold h2, st. rewrite list_lookup_insert_ne by lia. by apply lookup_app_l_Some. }
  split.
  - intros He. unfold pow. run (deref_ok _ _ _ Hthis). simpl rows. simpl cols.
    run (new_Matrix_pair (Some n) (Some m) h). simpl ext. fold o1. run Ecopy.
    rewrite decide_False by lia.
    destruct (Z.to_nat (e - 1)) as [|k] eqn:Ek; [lia|].
    simpl for_up_from. apply bind_throw, bind_throw, bind_throw.
    rewrite dot_unfold. run (deref_ok _ _ _ Hthis2). apply bind_throw.
    simpl for_args. apply bind_throw, dot_check_not_square.
    simpl. by intros [= ?].
  - intros ->. exists h2. split; [|done].
    unfold pow. run (deref_ok _ _ _ Hthis). simpl rows. simpl cols.
    run (new_Matrix_pair (Some n) (Some m) h). simpl ext. fold o1. by run Ecopy.
Qed.

Lemma X20_pow_witness :
  pow 0 2 [matrix 1 2 [[1; 2]]%float] = Throw (Thrown equal_dimensions_message).
Proof.
  assert (is_table 1 2 [[1; 2]]%float) as Ht.
  { split; [done|]. intros [|r] row [= <-]; done. }
  destruct (X20_pow_not_square [matrix 1 2 [[1; 2]]%float] 0 1 2 [[1; 2]]%float 2 eq_refl Ht)
    as [Hthrow _]; [lia|].
  apply Hthrow. lia.
Defined.

(** ** Matrix.join and Matrix.concat *)

Lemma prop_value_ok h a oa : h !! a = Some oa → prop_value (AMat a) h = Ok (Some (value oa)) h.
Proof. intros Ha. unfold prop_value. by run (deref_ok _ _ _ Ha). Qed.

Lemma join_row_ok h a b n ma mb la lb k rowa rowb :
  h !! a = Some (matrix n ma la) → h !! b = Some (matrix n mb lb) →
  la !! k = Some rowa → lb !! k = Some rowb →
  join_row (AMat a) (AMat b) k h = Ok (map Num (rowa ++ rowb)) h.
Proof.
  intros Ha Hb Hra Hrb. unfold join_row. run (prop_value_ok _ _ _ Ha).
  change (value (matrix n ma la)) with (nums la).
  change (Some (nums la) ≫= λ ga : jsgrid, grid_row ga k) with (grid_row (nums la) k).
  rewrite grid_row_nums, Hra.
  change (map Num <$> Some rowa) with (Some (map Num rowa)). cbn iota.
  run (prop_value_ok _ _ _ Hb).
  change (value (matrix n mb lb)) with (nums lb).
  rewrite grid_row_nums, Hrb. simpl. by rewrite map_app.
Qed.

Lemma join_rows_ok h a b n ma mb la lb :
  h !! a = Some (matrix n ma la) → is_table n ma la →
  h !! b = Some (matrix n mb lb) → is_table n mb lb →
  ∀ k, k ≤ n →
    join_rows (AMat a) (AMat b) k h = Ok (raw (take k (zip_with app la lb))) h.
Proof.
  intros Ha [Hna _] Hb [Hnb _]. induction k as [|k IH]; intros Hk; [done|].
  destruct (lookup_lt_is_Some_2 la k ltac:(lia)) as [rowa Hra].
  destruct (lookup_lt_is_Some_2 lb k ltac:(lia)) as [rowb Hrb].
  simpl join_rows. run (join_row_ok h a b n ma mb la lb k rowa rowb Ha Hb Hra Hrb).
  run (IH ltac:(lia)).
  rewrite (take_S_r _ k (rowa ++ rowb)) by (by rewrite lookup_zip_with, Hra, Hrb).
  unfold raw. rewrite (map_app (map Num) (take k _)). simpl. by rewrite map_app.
Qed.

Lemma is_table_join n ma mb la lb :
  is_table n ma la → is_table n mb lb → is_table n (ma + mb) (zip_with app la lb).
Proof.
  intros [Hna Hma] [Hnb Hmb]. split.
  - rewrite length_zip_with. lia.
  - intros r row Hrow. apply lookup_zip_with_Some in Hrow as (ra & rb & -> & Hra & Hrb).
    rewrite length_app, (Hma r ra Hra), (Hmb r rb Hrb). done.
Qed.

Lemma entry_join n ma mb la lb r c :
  is_table n ma la → is_table n mb lb → r < n →
  entry (zip_with app la lb) r c
  = if decide (c < ma) then entry la r c else entry lb r (c - ma).
Proof.
  intros [Hna Hma] [Hnb Hmb] Hr.
  destruct (lookup_lt_is_Some_2 la r ltac:(lia)) as [ra Hra].
  destruct (lookup_lt_is_Some_2 lb r ltac:(lia)) as [rb Hrb].
  unfold entry. rewrite lookup_zip_with, Hra, Hrb. simpl.
  pose proof (Hma r ra Hra) as Hlen.
  destruct (decide (c < ma)).
  - by rewrite lookup_app_l by lia.
  - rewrite lookup_app_r by lia. by rewrite Hlen.
Qed.

Lemma Matrix_join_ok h a b n ma mb la lb :
  h !! a = Some (matrix n ma la) → is_table n ma la →
  h !! b = Some (matrix n mb lb) → is_table n mb lb → 1 ≤ n →
  Matrix_join (AMat a) (AMat b) h
  = Ok (length h) (h ++ [matrix n (ma + mb) (settle (zip_with app la lb))]).
Proof.
  intros Ha Hta Hb Htb Hn. unfold Matrix_join.
  run (prop_rows_ok _ _ _ Ha). run (prop_rows_ok _ _ _ Hb).
  simpl rows. rewrite decide_False by (intros H; by apply H). simpl ext.
  run (join_rows_ok h a b n ma mb la lb Ha Hta Hb Htb n (le_n n)).
  rewrite take_ge by (rewrite length_zip_with; destruct Hta, Htb; lia).
  apply (new_Matrix_grid n (ma + mb)); [by apply is_table_join|done].
Qed.

Lemma plain_join (P : float → Prop) (la lb : table) :
  Forall (Forall P) la → Forall (Forall P) lb → Forall (Forall P) (zip_with app la lb).
Proof.
  intros Ha. revert lb. induction Ha as [|ra la Hra _ IH]; intros [|rb lb] Hb; try done.
  apply Forall_cons in Hb as [Hrb Hb]. simpl. constructor; [|by apply IH].
  by apply Forall_app_2.
Qed.

(** X21.  [Matrix.join(A, B)] of two well-formed matrices: when their row
    counts differ it throws its message; when both have n >= 1 rows it
    returns a new n-by-(ma + mb) matrix each row of which is the row of [A]
    followed by the row of [B], every value taken as [v || 0] by the
    constructor (so the very rows when no cell is NaN or -0), and [A] and
    [B] are unchanged. *)
Theorem X21_Matrix_join_side_by_side (h : heap) (a b : ref) (n nb ma mb : nat)
    (la lb : table) :
  h !! a = Some (matrix n ma la) → is_table n ma la →
  h !! b = Some (matrix nb mb lb) → is_table nb mb lb →
  (n ≠ nb → Matrix_join (AMat a) (AMat b) h = Throw (Thrown join_message)) ∧
  (n = nb → 1 ≤ n →
     Matrix_join (AMat a) (AMat b) h
     = Ok (length h) (h ++ [matrix n (ma + mb) (settle (zip_with app la lb))]) ∧
     is_table n (ma + mb) (settle (zip_with app la lb)) ∧
     (∀ r c, r < n → c < ma + mb →
        entry (settle (zip_with app la lb)) r c
        = num_or0 (if decide (c < ma) then entry la r c else entry lb r (c - ma))) ∧
     (Forall (Forall (λ x, num_or0 x = x)) la → Forall (Forall (λ x, num_or0 x = x)) lb →
      settle (zip_with app la lb) = zip_with app la lb)).
Proof.
  intros Ha Hta Hb Htb. split.
  - intros Hne. unfold Matrix_join.
    run (prop_rows_ok _ _ _ Ha). run (prop_rows_ok _ _ _ Hb).
    simpl rows. rewrite decide_True; [done|]. by intros [= ?].
  - intros <- Hn. split_and!.
    + by apply Matrix_join_ok.
    + by apply is_table_settle, is_table_join.
    + intros r c Hr Hc.
      rewrite (entry_settle n (ma + mb)) by (done || by apply is_table_join).
      by rewrite (entry_join n ma mb).
    + intros Hpa Hpb. by apply settle_id, plain_join.
Qed.

Lemma X21_Matrix_join_witness :
  Matrix_join (AMat 0) (AMat 1)
    [matrix 2 2 [[1; 2]; [3; 4]]%float; matrix 2 1 [[5]; [6]]%float]
  = Ok 2 [matrix 2 2 [[1; 2]; [3; 4]]%float; matrix 2 1 [[5]; [6]]%float;
          matrix 2 3 [[1; 2; 5]; [3; 4; 6]]%float].
Proof.
  assert (is_table 2 1 [[5]; [6]]%float) as Ht.
  { split; [done|]. intros [|[|r]] row [= <-]; done. }
  destruct (X21_Matrix_join_side_by_side
              [matrix 2 2 [[1; 2]; [3; 4]]%float; matrix 2 1 [[5]; [6]]%float] 0 1 2 2 2 1
              [[1; 2]; [3; 4]]%float [[5]; [6]]%float eq_refl (is_table_2_2 _ _ _ _) eq_refl Ht)
    as [_ Hok].
  destruct (Hok eq_refl) as (E & _); [lia|]. exact E.
Defined.

(** X22.  [Matrix.concat(A, B)] of two well-formed matrices: with equal row
    counts (n >= 1) it is [Matrix.join(A, B)], a new Matrix whose rows are
    the rows of [A] followed by those of [B], every value taken as [v || 0]
    (so the very rows when no cell is NaN or -0); with different
    row counts and equal column counts it returns the rows of [A] followed
    by the rows of [B] as a plain array, not a Matrix, and creates no
    object; with both counts different it throws its message. *)
Theorem X22_Matrix_concat_cases (h : heap) (a b : ref) (na nb ma mb : nat)
    (la lb : table) :
  h !! a = Some (matrix na ma la) → is_table na ma la →
  h !! b = Some (matrix nb mb lb) → is_table nb mb lb →
  (na = nb → 1 ≤ na →
     Matrix_concat (AMat a) (AMat b) h
     = Ok (ConcatMatrix (length h))
          (h ++ [matrix na (ma + mb) (settle (zip_with app la lb))]) ∧
     (Forall (Forall (λ x, num_or0 x = x)) la → Forall (Forall (λ x, num_or0 x = x)) lb →
      settle (zip_with app la lb) = zip_with app la lb)) ∧
  (na ≠ nb → ma = mb →
     Matrix_concat (AMat a) (AMat b) h = Ok (ConcatRaw (nums (la ++ lb))) h ∧
     is_table (na + nb) ma (la ++ lb)) ∧
  (na ≠ nb → ma ≠ mb →
     Matrix_concat (AMat a) (AMat b) h = Throw (Thrown concat_message)).
Proof.
  intros Ha Hta Hb Htb. split_and!.
  - intros <- Hn. split; [|intros Hpa Hpb; by apply settle_id, plain_join].
    unfold Matrix_concat.
    run (prop_rows_ok _ _ _ Ha). run (prop_rows_ok _ _ _ Hb).
    simpl rows. rewrite decide_True by done.
    by run (Matrix_join_ok h a b na ma mb la lb Ha Hta Hb Htb Hn).
  - intros Hne <-. split.
    + unfold Matrix_concat.
      run (prop_rows_ok _ _ _ Ha). run (prop_rows_ok _ _ _ Hb).
      simpl rows. rewrite decide_False by (by intros [= ?]).
      run (prop_cols_ok _ _ _ Ha). run (prop_cols_ok _ _ _ Hb).
      simpl cols. rewrite decide_True by done.
      run (prop_value_ok _ _ _ Ha). run (prop_value_ok _ _ _ Hb).
      simpl. unfold nums. by rewrite map_app.
    + destruct Hta as [Hna Hma], Htb as [Hnb Hmb]. split.
      * rewrite length_app. lia.
      * intros r row [Hr|[_ Hr]]%lookup_app_Some; [by apply (Hma r)|].
        by apply (Hmb (r - length la)).
  - intros Hne Hme. unfold Matrix_concat.
    run (prop_rows_ok _ _ _ Ha). run (prop_rows_ok _ _ _ Hb).
    simpl rows. rewrite decide_False by (by intros [= ?]).
    run (prop_cols_ok _ _ _ Ha). run (prop_cols_ok _ _ _ Hb).
    simpl cols. by rewrite decide_False by (by intros [= ?]).
Qed.

Lemma X22_Matrix_concat_witness :
  let h := [matrix 2 2 [[1; 2]; [3; 4]]%float; matrix 1 2 [[5; 6]]%float] in
  Matrix_concat (AMat 0) (AMat 1) h
  = Ok (ConcatRaw [Some [Num 1; Num 2]; Some [Num 3; Num 4]; Some [Num 5; Num 6]]) h.
Proof.
  assert (is_table 1 2 [[5; 6]]%float) as Ht.
  { split; [done|]. intros [|r] row [= <-]; done. }
  destruct (X22_Matrix_concat_cases
              [matrix 2 2 [[1; 2]; [3; 4]]%float; matrix 1 2 [[5; 6]]%float] 0 1 2 1 2 2
              [[1; 2]; [3; 4]]%float [[5; 6]]%float eq_refl (is_table_2_2 _ _ _ _) eq_refl Ht)
    as (_ & Hraw & _).
  destruct Hraw as [E _]; [lia|done|]. exact E.
Defined.

(** ** sum *)

Lemma sum_row_ok h this n m l row :
  h !! this = Some (matrix n m l) → is_table n m l → row < n →
  ∀ k z, k ≤ m →
    sum_row this row k (Num z) h = Ok (Num (sum_down k (λ c, entry l row c) z)) h.
Proof.
  intros Hthis Ht Hrow. induction k as [|k IH]; intros z Hk; [done|].
  simpl sum_row.
  run (read_cell_ok h this _ row k Hthis (grid_row_nums_is_Some n m l row Ht Hrow)).
  change (value (matrix n m l)) with (nums l).
  rewrite (rd_nums l row k n m) by (done || lia).
  unfold jsadd. cbn beta iota. by rewrite IH by lia.
Qed.

Lemma tabulate_S n m f : tabulate (S n) m f = tabulate n m f ++ [map (f n) (seq 0 m)].
Proof. unfold tabulate. by rewrite seq_S, map_app. Qed.

Lemma sum_rows_ok h this n m l :
  h !! this = Some (matrix n m l) → is_table n m l →
  ∀ k, k ≤ n →
    sum_rows this k m h
    = Ok (raw (tabulate k 1 (λ r _, sum_down m (λ c, entry l r c) 0%float))) h.
Proof.
  intros Hthis Ht. induction k as [|k IH]; intros Hk; [done|].
  simpl sum_rows.
  run (sum_row_ok h this n m l k Hthis Ht ltac:(lia) m 0%float (le_n m)).
  run (IH ltac:(lia)).
  rewrite tabulate_S. unfold raw. rewrite (map_app (map Num)). done.
Qed.

(** X23.  [sum()] of a well-formed n-by-m matrix with n >= 1 returns a new
    single-column matrix whose row r holds the sum of the m cells of row r
    of the receiver, accumulated in double precision from 0 with the cells
    taken from the last column down to the first, and then taken as
    [v || 0] by the constructor (0 when m = 0, and 0 for a sum that is NaN);
    the receiver is unchanged. *)
Theorem X23_sum_row_sums (h : heap) (this : ref) (n m : nat) (l : table) :
  h !! this = Some (matrix n m l) → is_table n m l → 1 ≤ n →
  proto_sum this h
  = Ok (length h)
       (h ++ [matrix n 1
                (tabulate n 1 (λ r _, num_or0 (sum_down m (λ c, entry l r c) 0%float)))]).
Proof.
  intros Hthis Ht Hn. unfold proto_sum. run (deref_ok _ _ _ Hthis).
  simpl rows. simpl cols. simpl ext.
  run (sum_rows_ok h this n m l Hthis Ht n (le_n n)).
  rewrite (new_Matrix_grid n 1) by (apply is_table_tabulate || done).
  set (T := tabulate n 1 (λ r _, sum_down m (λ c, entry l r c) 0%float)).
  assert (settle T = tabulate n 1 (λ r _, num_or0 (sum_down m (λ c, entry l r c) 0%float)))
    as ->; [|done].
  apply (table_ext n 1).
  - apply is_table_settle, is_table_tabulate.
  - apply is_table_tabulate.
  - intros r c Hr Hc. rewrite (entry_settle n 1) by (apply is_table_tabulate || done).
    unfold T. by rewrite !entry_tabulate.
Qed.

Lemma X23_sum_witness :
  proto_sum 0 [matrix 2 3 [[1; 2; 3]; [4; 5; 6]]%float]
  = Ok 1 [matrix 2 3 [[1; 2; 3]; [4; 5; 6]]%float; matrix 2 1 [[6]; [15]]%float].
Proof.
  apply (X23_sum_row_sums [matrix 2 3 [[1; 2; 3]; [4; 5; 6]]%float] 0 2 3
           [[1; 2; 3]; [4; 5; 6]]%float eq_refl).
  - split; [done|]. intros [|[|r]] row [= <-]; done.
  - lia.
Defined.

(** ** map and forEach *)

Lemma grid_write_same g r c row :
  grid_row g r = Some row → c < length row → grid_write g r c (rd g r c) = g.
Proof.
  intros Hrow Hc. unfold grid_write, rd. rewrite Hrow.
  destruct (lookup_lt_is_Some_2 row c Hc) as [x Hx].
  unfold arr_set, row_get. rewrite decide_True by done. rewrite Hx. simpl.
  rewrite (list_insert_id row c x Hx).
  apply list_insert_id. by apply grid_row_Some.
Qed.

Section cell_loops.
Context (this : ref) (o0 : Matrix) (h0 : heap).

(** A loop over distinct cells whose every turn amounts to one write, or
    to none when the value to write is the one already there. *)
Lemma for_cells_gen (body : nat → nat → M unit) F cs g0 :
  NoDup cs →
  (∀ r c, (r, c) ∈ cs → ∃ row, grid_row g0 r = Some row ∧ c < length row) →
  (∀ r c g, (r, c) ∈ cs →
     (∀ r' row0, grid_row g0 r' = Some row0 →
        ∃ row, grid_row g r' = Some row ∧ length row0 ≤ length row) →
     rd g r c = rd g0 r c →
     body r c (st this o0 h0 g) = Ok () (st this o0 h0 (grid_write g r c (F r c)))) →
  for_args cs (λ p, body p.1 p.2) (st this o0 h0 g0)
  = Ok () (st this o0 h0 (writes F cs g0)).
Proof.
  induction cs as [|[r c] cs IH] using rev_ind; intros Hnd Hrows Hbody; [done|].
  apply NoDup_app in Hnd as (Hnd & Hnotin & _).
  rewrite for_args_app. erewrite bind_ok; cycle 1.
  { apply IH; [done| |].
    - intros ???. eapply Hrows, elem_of_app. by left.
    - intros ??? Hin. apply Hbody, elem_of_app. by left. }
  simpl. erewrite bind_ok; cycle 1.
  { apply Hbody.
    - apply elem_of_app. right. by left.
    - intros r' row0 Hrow0.
      destruct (writes_row_length F cs g0 r' row0 Hrow0) as (row & Hrow & Hlen & _).
      by exists row.
    - rewrite rd_writes.
      + rewrite decide_False; [done|]. intros Hin. eapply Hnotin; [done|]. by left.
      + intros r' c' Hin. destruct (Hrows r' c') as (row & Hrow & _).
        * apply elem_of_app. by left.
        * by rewrite Hrow. }
  by rewrite writes_snoc.
Qed.
End cell_loops.

Lemma proto_map_pure h this n m l (f : callback) (G : float → nat → nat → option float) :
  h !! this = Some (matrix n m l) → is_table n m l →
  (∀ z r c h', f (Num z) r c h'
               = Ok (match G z r c with Some z' => Num z' | None => Undef end) h') →
  proto_map this (Some f) h
  = Ok () (<[this := matrix n m
               (tabulate n m (λ r c, default (entry l r c) (G (entry l r c) r c)))]> h).
Proof.
  intros Hthis Ht Hf. unfold proto_map. run (deref_ok _ _ _ Hthis).
  simpl rows. simpl cols. simpl ext.
  set (F := λ r c, Num (default (entry l r c) (G (entry l r c) r c))).
  set (body := λ row col,
         v ← read_cell this row col;
         result ← f v row col;
         match result with
         | Undef => mret ()
         | _ => write_cell this row col result
         end).
  trans (for_args (cells (seq 0 n) (seq 0 m)) (λ p, body p.1 p.2)
           (st this (matrix n m l) h (value (matrix n m l)))).
  { rewrite (st_id this _ h Hthis), up_nest_lists.
    apply (for_args_cells (seq 0 n) (seq 0 m) body). }
  rewrite (for_cells_gen this (matrix n m l) h body F).
  - change (value (matrix n m l)) with (nums l).
    rewrite (writes_window F _ _ n m).
    + rewrite drop_ge, app_nil_r
        by (destruct Ht as [Hn _]; unfold nums; rewrite length_map; lia).
      unfold st, with_value, matrix. simpl. by rewrite nums_tabulate.
    + apply cells_up_window.
    + intros r Hr. destruct (grid_row_nums_is_Some n m l r Ht Hr) as [row Hrow].
      exists row. split; [done|]. by rewrite (grid_row_nums_length n m l r row).
  - apply NoDup_bind.
    + intros r1 r2 p _ _ (c1 & -> & _)%list_elem_of_fmap (c2 & [= -> _] & _)%list_elem_of_fmap.
      done.
    + intros r _. apply NoDup_fmap_2; [|apply NoDup_seq]. by intros ?? [=].
    + apply NoDup_seq.
  - intros r c [Hr Hc]%cells_up_window.
    change (value (matrix n m l)) with (nums l).
    destruct (grid_row_nums_is_Some n m l r Ht Hr) as [row Hrow].
    exists row. split; [done|]. by rewrite (grid_row_nums_length n m l r row).
  - intros r c g [Hr Hc]%cells_up_window Hlen Hrd. unfold body.
    change (value (matrix n m l)) with (nums l) in Hlen, Hrd.
    destruct (grid_row_nums_is_Some n m l r Ht Hr) as [row0 Hrow0].
    destruct (Hlen r row0 Hrow0) as (row & Hrow & Hle).
    pose proof (grid_row_nums_length n m l r row0 Ht Hrow0) as Hlen0.
    run (read_cell_st this _ h Hthis g r c ltac:(by rewrite Hrow)).
    rewrite Hrd, (rd_nums l r c n m) by done.
    run (Hf (entry l r c) r c (st this (matrix n m l) h g)).
    unfold F. destruct (G (entry l r c) r c) as [z'|]; simpl default.
    + apply (write_cell_st this _ h Hthis). by rewrite Hrow.
    + rewrite <-(rd_nums l r c n m), <-Hrd by done.
      rewrite (grid_write_same g r c row) by (done || lia). done.
Qed.

(** X24.  [map(cb)] with a callback that leaves the store alone visits
    every cell of a well-formed matrix exactly once, handing the callback
    the cell's value with its own row and column: a cell for which the
    callback returns a number takes that number, a cell for which it returns
    [undefined] keeps its value.  Anything that is not a function makes
    [map] throw its message. *)
Theorem X24_map_pure_callback (h : heap) (this : ref) (n m : nat) (l : table)
    (f : callback) (G : float → nat → nat → option float) :
  h !! this = Some (matrix n m l) → is_table n m l →
  (∀ z r c h', f (Num z) r c h'
               = Ok (match G z r c with Some z' => Num z' | None => Undef end) h') →
  proto_map this (Some f) h
  = Ok () (<[this := matrix n m
               (tabulate n m (λ r c, default (entry l r c) (G (entry l r c) r c)))]> h) ∧
  proto_map this None h = Throw (Thrown map_message).
Proof. intros Hthis Ht Hf. split; [by apply proto_map_pure|done]. Qed.

Lemma X24_map_witness :
  proto_map 0
    (Some (λ v r c, mret (match v with
                          | Num z => if decide (r = c) then Num (2 * z)%float else Undef
                          | _ => Undef
                          end)))
    [matrix 2 2 [[1; 2]; [3; 4]]%float]
  = Ok () [matrix 2 2 [[2; 2]; [3; 8]]%float].
Proof.
  refine (proj1 (X24_map_pure_callback [matrix 2 2 [[1; 2]; [3; 4]]%float] 0 2 2
                   [[1; 2]; [3; 4]]%float
                   (λ v r c, mret (match v with
                                   | Num z => if decide (r = c) then Num (2 * z)%float else Undef
                                   | _ => Undef
                                   end))
                   (λ z r c, if decide (r = c) then Some (2 * z)%float else None)
                   eq_refl (is_table_2_2 _ _ _ _) _)).
  intros z r c h'. by destruct (decide (r = c)).
Defined.

Lemma for_args_inv {A} (Inv : heap → Prop) (l : list A) (b1 b2 : A → M unit) h :
  Inv h →
  (∀ a h, a ∈ l → Inv h → b1 a h = b2 a h) →
  (∀ a h h', a ∈ l → Inv h → b2 a h = Ok () h' → Inv h') →
  for_args l b1 h = for_args l b2 h.
Proof.
  revert h. induction l as [|a l IH]; intros h HI Heq Hpres; [done|]. simpl.
  unfold mbind, M_bind. rewrite (Heq a h) by (done || by left).
  destruct (b2 a h) as [[] h'|e] eqn:E; [|done].
  apply IH.
  - apply (Hpres a h); [by left|done|done].
  - intros a' h1 Hin. apply Heq. by right.
  - intros a' h1 h2 Hin. apply Hpres. by right.
Qed.

(** X25.  [forEach(cb)] on a well-formed matrix, for any callback that
    does not replace the receiver's contents (it may change other objects
    or fail): the call is exactly the sequence of calls of the callback on
    the cells in row-major order, each with the cell's value, its row and
    its column; what the callback returns is dropped and [forEach] itself
    writes nothing.  Anything that is not a function makes it throw its
    message. *)
Theorem X25_forEach_row_major (h : heap) (this : ref) (n m : nat) (l : table)
    (f : callback) :
  h !! this = Some (matrix n m l) → is_table n m l →
  (∀ v r c h1 x h2,
     h1 !! this = Some (matrix n m l) → f v r c h1 = Ok x h2 →
     h2 !! this = Some (matrix n m l)) →
  proto_forEach this (Some f) h
  = for_args (cells (seq 0 n) (seq 0 m))
      (λ p, f (Num (entry l p.1 p.2)) p.1 p.2;; mret ()) h ∧
  proto_forEach this None h = Throw (Thrown forEach_message).
Proof.
  intros Hthis Ht Hf. split; [|done].
  unfold proto_forEach. run (deref_ok _ _ _ Hthis).
  simpl rows. simpl cols. simpl ext.
  rewrite up_nest_lists.
  rewrite (for_args_cells (seq 0 n) (seq 0 m)
             (λ row col, v ← read_cell this row col; f v row col;; mret ())).
  apply (for_args_inv (λ h1, h1 !! this = Some (matrix n m l))); [done| |].
  - intros [r c] h1 [Hr Hc]%cells_up_window H1. simpl fst. simpl snd.
    run (read_cell_ok h1 this _ r c H1 (grid_row_nums_is_Some n m l r Ht Hr)).
    change (value (matrix n m l)) with (nums l).
    by rewrite (rd_nums l r c n m).
  - intros [r c] h1 h2 _ H1. simpl fst. simpl snd. unfold mbind, M_bind.
    destruct (f (Num (entry l r c)) r c h1) as [x h'|e] eqn:E; [|done].
    intros [= <-]. by apply (Hf _ _ _ _ _ _ H1 E).
Qed.

Lemma X25_forEach_witness :
  proto_forEach 0 (Some (λ v r c, write_cell 1 r c v;; mret Undef))
    [matrix 2 2 [[1; 2]; [3; 4]]%float; matrix 2 2 [[0; 0]; [0; 0]]%float]
  = Ok () [matrix 2 2 [[1; 2]; [3; 4]]%float; matrix 2 2 [[1; 2]; [3; 4]]%float].
Proof.
  assert (∀ (v : jsval) (r c : nat) (h1 : heap) (x : jsval) (h2 : heap),
            h1 !! 0 = Some (matrix 2 2 [[1; 2]; [3; 4]]%float) →
            (write_cell 1 r c v;; mret Undef) h1 = Ok x h2 →
            h2 !! 0 = Some (matrix 2 2 [[1; 2]; [3; 4]]%float)) as Hf.
  { intros v r c h1 x h2 H1. unfold mbind, M_bind.
    destruct (write_cell 1 r c v h1) as [[] h'|e] eqn:E; [|done].
    intros [= _ <-]. rewrite (write_cell_frame _ _ _ _ _ _ E) by lia. exact H1. }
  etrans; [exact (proj1 (X25_forEach_row_major
                    [matrix 2 2 [[1; 2]; [3; 4]]%float; matrix 2 2 [[0; 0]; [0; 0]]%float] 0 2 2
                    [[1; 2]; [3; 4]]%float (λ v r c, write_cell 1 r c v;; mret Undef)
                    eq_refl (is_table_2_2 _ _ _ _) Hf))|].
  reflexivity.
Defined.

(** ** The constructor on any array of rows *)

Lemma or0_coerce v : or0 v = Num (coerce v).
Proof. by destruct v. Qed.

(** X26.  [new Matrix(rows)] on a non-empty array of rows always builds a
    well-formed matrix: it has as many rows as the array and as many
    columns as the first row is long; longer rows are cut, shorter rows are
    filled up, and every cell that is missing, [undefined], NaN, 0 or -0
    becomes 0. *)
Theorem X26_constructor_normalises_rows (row0 : jsrow) (g' : list jsrow) (h : heap) :
  let g := row0 :: g' in
  new_Matrix (CGrid g) h
  = Ok (length h)
       (h ++ [matrix (length g) (length row0)
                (tabulate (length g) (length row0)
                   (λ r c, coerce (row_get (default [] (g !! r)) c)))]).
Proof.
  intros g. subst g. unfold new_Matrix. cbn beta iota.
  set (g := row0 :: g'). set (n := length g). set (m := length row0).
  set (o := {| rows := Some n; cols := Some m; value := [] |}).
  rewrite (bind_ok _ _ h (length h) (h ++ [o]) eq_refl).
  set (V := λ row col, or0 (row_get (default [] (g !! row)) col)).
  destruct (for_args_pure (length h) o (h ++ [o]) (λ _, True)
              (λ g row, arr_set None g row (Some (map (V row) (seq 0 m))))
              (down n)
              (λ row, new_row (length h) row;;
                      for_down m (λ col, write_cell (length h) row col (V row col))) [])
    as [E _]; [|done|].
  { intros row g1 _ _. split; [|done].
    apply (fill_row_st _ _ _ (alloc_lookup h o)). }
  rewrite !st_alloc in E. change (with_value o []) with o in E.
  rewrite <-for_down_list in E.
  rewrite (fill_fold (λ row, Some (map (V row) (seq 0 m)))), drop_nil, app_nil_r in E.
  run E. unfold matrix. rewrite nums_tabulate. do 4 f_equal.
  apply (grid_of_ext n m V). intros r c _ _. apply or0_coerce.
Qed.

Example constructor_ragged :
  new_Matrix (CGrid [[Num 1; Undef; Num 3]; [Num nan; Num (-0)];
                     [Num 4; Num 5; Num infinity; Num 7]]) []
  = Ok 0 [matrix 3 3 [[1; 0; 3]; [0; 0; 0]; [4; 5; infinity]]%float].
Proof. reflexivity. Qed.

(** ** A number as first argument of Matrix.mult and Matrix.product *)

Lemma ones_then_mult h n m args (ds : list (table + float)) :
  Forall2 (stored h n m) args ds →
  ∃ h', (result ← new_Matrix (CPair (Some n) (Some m));
         zero result (Num 1);; mult result args;; mret result) h = Ok (length h) h' ∧
        h' !! length h
        = Some (matrix n m (fold_cells PrimFloat.mul n m (tabulate n m (λ _ _, 1%float))
                              (opd_of <$> ds))) ∧
        (∀ r, r < length h → h' !! r = h !! r).
Proof.
  intros Hds.
  run (new_Matrix_pair (Some n) (Some m) h). simpl ext.
  erewrite bind_ok; cycle 1.
  { apply (zero_spec _ _ _ n m (Num 1) (alloc_lookup h _)); [done|done|].
    simpl. unfold reset_rows. by rewrite length_map, length_seq. }
  cbn beta. rewrite insert_alloc. change (or0 (Num 1)) with (Num 1). rewrite <-nums_const.
  change {| rows := Some n; cols := Some m; value := nums ?l |} with (matrix n m l).
  set (K := tabulate n m (λ _ _, 1%float)).
  destruct (mult_spec (h ++ [matrix n m K]) (length h) n m K args (opd_of <$> ds))
    as (h' & E & Hres & _ & Hfr).
  { apply alloc_lookup. }
  { apply is_table_tabulate. }
  { apply stored_describes; [|done]. intros r Hr. by apply lookup_app_l. }
  exists h'. split_and!.
  - by run E.
  - done.
  - intros r Hr. rewrite Hfr by (rewrite ?length_app; simpl; lia).
    by apply lookup_app_l.
Qed.

(** X27.  [Matrix.mult] takes the shape of its result from its first
    argument, and a number has none: with a number [s] first the result is
    a 2-by-2 matrix whose every cell is ((1 * (s || 0)) * x1(r, c)) * ...,
    the product in doubles of 1, of that number and of the other operands,
    taken in argument order, when these are numbers or 2-by-2 matrices of
    the store; and the call throws the message of [mult] as soon as a
    matrix of any other shape follows. *)
Theorem X27_Matrix_mult_number_first (h : heap) (s : float)
    (rest : list arg) (ds : list (table + float)) :
  Forall2 (stored h 2 2) rest ds →
  (∃ h' R,
     Matrix_mult (ANum s :: rest) h = Ok (length h) h' ∧
     h' !! length h = Some (matrix 2 2 R) ∧ is_table 2 2 R ∧
     (∀ r c, r < 2 → c < 2 →
        entry R r c
        = foldl (λ acc d, acc * operand_entry d r c)%float 1%float (inr s :: ds)) ∧
     (∀ r, r < length h → h' !! r = h !! r)) ∧
  (∀ b ob post, h !! b = Some ob → dimensions ob ≠ (Some 2, Some 2) →
     Matrix_mult (ANum s :: rest ++ AMat b :: post) h = Throw (Thrown mult_message)).
Proof.
  intros Hds. split.
  - destruct (ones_then_mult h 2 2 (ANum s :: rest) (inr s :: ds)) as (h' & E & Hres & Hfr).
    { by constructor. }
    eexists h', _. split_and!; [exact E|exact Hres| | |done].
    + apply is_table_fold_cells, is_table_tabulate.
    + intros r c Hr Hc. rewrite entry_fold_cells by done.
      by rewrite entry_tabulate, foldl_opd_of.
  - intros b ob post Hb Hdim.
    change (Matrix_mult (ANum s :: rest ++ AMat b :: post) h)
      with ((result ← new_Matrix (CPair (Some 2) (Some 2));
             zero result (Num 1);;
             mult result (ANum s :: rest ++ AMat b :: post);; mret result) h).
    run (new_Matrix_pair (Some 2) (Some 2) h). simpl ext.
    erewrite bind_ok; cycle 1.
    { by apply (zero_spec _ _ _ 2 2 (Num 1) (alloc_lookup h _)). }
    cbn beta. rewrite insert_alloc. change (or0 (Num 1)) with (Num 1).
    rewrite <-(nums_const 2 2 1).
    change {| rows := Some 2; cols := Some 2; value := nums ?l |} with (matrix 2 2 l).
    set (K := tabulate 2 2 (λ _ _, 1%float)).
    apply bind_throw. unfold mult.
    run (deref_ok _ _ _ (alloc_lookup h (matrix 2 2 K))). apply bind_throw.
    apply (fold_bad PrimFloat.mul mult_operand mult_message
             (fold_spec PrimFloat.mul mult_operand mult_operand_matrix_any mult_operand_scalar_any)
             mult_operand_bad (length h) (matrix 2 2 K) 2 2 (ANum s :: rest) (AMat b) post
             (opd_of <$> inr s :: ds) (h ++ [matrix 2 2 K]) K);
      [done|done|apply alloc_lookup|apply is_table_tabulate| |].
    + apply stored_describes; [intros r Hr; by apply lookup_app_l|].
      by constructor.
    + right. exists b, ob. split_and!; [done|by apply lookup_app_l_Some|done].
Qed.

Lemma X27_Matrix_mult_witness :
  (∃ h', Matrix_mult [ANum 3; AMat 0] [matrix 2 2 [[1; 2]; [3; 4]]%float] = Ok 1 h' ∧
         h' !! 1 = Some (matrix 2 2 [[3; 6]; [9; 12]]%float)) ∧
  Matrix_mult [ANum 3; AMat 0] [matrix 1 2 [[1; 2]]%float] = Throw (Thrown mult_message).
Proof.
  split.
  - destruct (X27_Matrix_mult_number_first [matrix 2 2 [[1; 2]; [3; 4]]%float] 3
                [AMat 0] [inl [[1; 2]; [3; 4]]%float])
      as [(h' & R & E & Hres & HR & Hentry & _) _].
    { repeat constructor. by apply stored_2_2. }
    exists h'. split; [exact E|]. etrans; [exact Hres|]. do 2 f_equal.
    apply (table_ext 2 2); [done|apply is_table_2_2|].
    intros r c Hr Hc. rewrite Hentry by done.
    destruct r as [|[|r]]; [| |lia]; (destruct c as [|[|c]]; [| |lia]); reflexivity.
  - destruct (X27_Matrix_mult_number_first [matrix 1 2 [[1; 2]]%float] 3 [] [])
      as [_ Hthrow]; [constructor|].
    apply (Hthrow 0 (matrix 1 2 [[1; 2]]%float) [] eq_refl). by intros [= ?].
Defined.

(** X28.  [Matrix.product] copies its first argument into a fresh default
    matrix of that argument's extents.  A number has no extents and copying
    it copies nothing, so with a number first the number is lost: the
    result is the 2-by-2 identity pattern taken through the other operands
    (numbers or 2-by-2 matrices of the store) as [product] does, in
    doubles, whatever the number was. *)
Theorem X28_Matrix_product_number_first (h : heap) (s : float)
    (rest : list arg) (ds : list (table + float)) :
  Forall2 (stored h 2 2) rest ds →
  ∃ h',
    Matrix_product (ANum s :: rest) h = Ok (length h) h' ∧
    h' !! length h
    = Some (matrix 2 2 (foldl (product_step 2 2) (identity 2 2) (opd_of <$> ds))) ∧
    (∀ r, r < length h → h' !! r = h !! r).
Proof.
  intros Hds.
  set (o' := {| rows := None; cols := None; value := [] |}).
  set (h2 := (h ++ [matrix 2 2 (identity 2 2)]) ++ [o']).
  assert ((result ← new_Matrix CUndef; copy result (ANum s);; mret result) h
          = Ok (length h) h2) as Ecopy.
  { change (new_Matrix CUndef) with (new_Matrix (CPair (Some 2) (Some 2))).
    run (new_Matrix_identity_wide 2 2 h (le_n 2)).
    assert (copy (length h) (ANum s) (h ++ [matrix 2 2 (identity 2 2)]) = Ok () h2) as Ec.
    { unfold copy. run (new_Matrix_pair None None (h ++ [matrix 2 2 (identity 2 2)])).
      simpl ext. change (reset_rows 0 0) with (@nil (option jsrow)). fold o'. fold h2.
      by run (deref_ok _ _ _ (alloc_lookup (h ++ [matrix 2 2 (identity 2 2)]) o')). }
    by run Ec. }
  assert (h2 !! length h = Some (matrix 2 2 (identity 2 2))) as Hres2.
  { unfold h2. apply lookup_app_l_Some, alloc_lookup. }
  destruct (product_spec (length h) 2 2 rest (opd_of <$> ds) h2 (identity 2 2) Hres2
              (is_table_tabulate _ _ _))
    as (h' & E & Hres & _ & _ & Hfr).
  { apply stored_describes; [|done].
    intros r Hr. unfold h2. rewrite <-app_assoc. by apply lookup_app_l. }
  { done. }
  exists h'. split_and!.
  - assert (product (length h) rest h2 = Ok (length h) h') as Ep.
    { unfold product. run (deref_ok _ _ _ Hres2). by run E. }
    change (Matrix_product (ANum s :: rest) h)
      with ((result ← new_Matrix CUndef; copy result (ANum s);;
             product result rest;; mret result) h).
    unfold mbind, M_bind in Ecopy |- *.
    destruct (new_Matrix CUndef h) as [res h1|]; [|done].
    destruct (copy res (ANum s) h1) as [[] hc|]; [|done].
    injection Ecopy as -> ->. by rewrite Ep.
  - done.
  - intros r Hr. rewrite Hfr by (unfold h2; rewrite ?length_app; simpl; lia).
    unfold h2. rewrite <-app_assoc. by apply lookup_app_l.
Qed.

Lemma X28_Matrix_product_witness :
  ∃ h', Matrix_product [ANum 3; AMat 0] [matrix 2 2 [[1; 2]; [3; 4]]%float] = Ok 1 h' ∧
        h' !! 1 = Some (matrix 2 2 [[1; 2]; [3; 4]]%float).
Proof.
  destruct (X28_Matrix_product_number_first [matrix 2 2 [[1; 2]; [3; 4]]%float] 3
              [AMat 0] [inl [[1; 2]; [3; 4]]%float])
    as (h' & E & Hres & _).
  { repeat constructor. by apply stored_2_2. }
  exists h'. split; [exact E|exact Hres].
Defined.

(** ** The order of evaluation of a chain of products *)



(** ** The receiver as its own operand *)

(** X30.  The elementwise methods read each cell of their operand just
    before they write the same cell of the receiver, so the receiver can be
    its own operand: [A.add(A)] puts x + x in every cell that held x,
    [A.sub(A)] puts x - x and [A.mult(A)] puts x * x, each computed in
    doubles; nothing else in the store changes. *)
Theorem X30_receiver_as_operand (h : heap) (this : ref) (n m : nat) (l : table) :
  h !! this = Some (matrix n m l) → is_table n m l →
  add this [AMat this] h
  = Ok this (<[this := matrix n m (tabulate n m (λ r c, entry l r c + entry l r c)%float)]> h) ∧
  sub this [AMat this] h
  = Ok this (<[this := matrix n m (tabulate n m (λ r c, entry l r c - entry l r c)%float)]> h) ∧
  mult this [AMat this] h
  = Ok this (<[this := matrix n m (tabulate n m (λ r c, entry l r c * entry l r c)%float)]> h).
Proof.
  intros Hthis Ht. split_and!.
  - unfold add. run (deref_ok _ _ _ Hthis). simpl for_args.
    erewrite bind_ok; cycle 1.
    { erewrite bind_ok; [done|].
      by apply (add_operand_matrix_any h this _ this n m l l). }
    done.
  - unfold sub. run (deref_ok _ _ _ Hthis). simpl for_args.
    erewrite bind_ok; cycle 1.
    { erewrite bind_ok; [done|].
      by apply (sub_operand_matrix_any h this _ this n m l l). }
    done.
  - unfold mult. run (deref_ok _ _ _ Hthis). simpl for_args.
    erewrite bind_ok; cycle 1.
    { erewrite bind_ok; [done|].
      by apply (mult_operand_matrix_any h this _ this n m l l). }
    done.
Qed.

Lemma X30_receiver_witness :
  add 0 [AMat 0] [matrix 2 2 [[1; 2]; [3; 4]]%float] = Ok 0 [matrix 2 2 [[2; 4]; [6; 8]]%float] ∧
  sub 0 [AMat 0] [matrix 2 2 [[1; 2]; [3; 4]]%float] = Ok 0 [matrix 2 2 [[0; 0]; [0; 0]]%float] ∧
  mult 0 [AMat 0] [matrix 2 2 [[1; 2]; [3; 4]]%float] = Ok 0 [matrix 2 2 [[1; 4]; [9; 16]]%float].
Proof.
  exact (X30_receiver_as_operand [matrix 2 2 [[1; 2]; [3; 4]]%float] 0 2 2 [[1; 2]; [3; 4]]%float
           eq_refl (is_table_2_2 _ _ _ _)).
Defined.
